(** * Sigma- front end: lexer and recursive-descent parser

    Shallow embedding of [analisadorsintatico/analisador_sintatico_gui.py]
    (classes [TokenType], [Token], [LexicalError], [SyntaxError], [TreeNode],
    [Lexer] and [Parser]) together with the properties checked against it.

    Modelling conventions.
    - A Python [str] is a [string]; one [ascii] stands for one code point, so
      the model covers source texts whose code points are below 256.  The
      character classes [isdigit], [isalpha], [isalnum] and [lower] follow
      Python's [str] methods on that range.
    - Python integers ([line], [column]) are [Z]; list indices are [nat].
    - An object with mutable attributes is a record that is passed along
      explicitly (the [Lexer]) or through a state-and-exception monad (the
      [Parser]).
    - [while] loops and recursive calls are driven by a fuel counter; the
      entry points [Lexer.tokenize] and [Parser.parse] supply enough fuel, and
      the termination theorems show that the fuel never runs out. *)

From Stdlib Require Import String Ascii List ZArith Arith Bool Lia.
From Stdlib Require Import DecimalString.
Import ListNotations.

Set Warnings "-notation-for-abbreviation,-register-all,-non-full-mutual".
Local Open Scope string_scope.

(* ===================================================================== *)
(** ** Characters and strings *)
(* ===================================================================== *)

Definition chr (n : nat) : ascii := ascii_of_nat n.

Definition NUL : ascii := chr 0.        (* '\0' *)
Definition TAB : ascii := chr 9.        (* '\t' *)
Definition LF : ascii := chr 10.        (* '\n' *)
Definition CR : ascii := chr 13.        (* '\r' *)
Definition QUOTE : ascii := chr 34.     (* the double quote *)

(** [str(c)] for a single character. *)
Definition str1 (c : ascii) : string := String c EmptyString.

(** [s[i]], guarded by the callers so that [i] is in range. *)
Definition char_at (s : string) (i : nat) : ascii :=
  match String.get i s with
  | Some c => c
  | None => NUL
  end.

Definition between (lo hi n : nat) : bool := (lo <=? n)%nat && (n <=? hi)%nat.

(** [c.isdigit()] on code points below 256. *)
Definition isdigit (c : ascii) : bool :=
  let n := nat_of_ascii c in
  between 48 57 n || (n =? 178)%nat || (n =? 179)%nat || (n =? 185)%nat.

(** [c.isalpha()] on code points below 256. *)
Definition isalpha (c : ascii) : bool :=
  let n := nat_of_ascii c in
  between 65 90 n || between 97 122 n
  || (n =? 170)%nat || (n =? 181)%nat || (n =? 186)%nat
  || between 192 214 n || between 216 246 n || between 248 255 n.

(** [c.isalnum()] on code points below 256: alphabetic, digit or numeric. *)
Definition isalnum (c : ascii) : bool :=
  isalpha c || isdigit c || between 188 190 (nat_of_ascii c).

(** [c.lower()] on code points below 256. *)
Definition lower_char (c : ascii) : ascii :=
  let n := nat_of_ascii c in
  if between 65 90 n || between 192 214 n || between 216 222 n
  then chr (n + 32)
  else c.

Fixpoint lower (s : string) : string :=
  match s with
  | EmptyString => EmptyString
  | String c s' => String (lower_char c) (lower s')
  end.

(** [str(z)] for an integer. *)
Definition str_of_Z (z : Z) : string := NilEmpty.string_of_int (Z.to_int z).

(** Accented letters used by the messages of the program. *)
Definition a_acute : string := str1 (chr 225).
Definition a_tilde : string := str1 (chr 227).
Definition e_acute : string := str1 (chr 233).

(** A [dict] with string keys, as an association list; [dict_get d k] is
    [d.get(k)], and [k in d] holds when it is not [None]. *)
Fixpoint dict_get {V : Type} (d : list (string * V)) (k : string) : option V :=
  match d with
  | [] => None
  | (k', v) :: d' => if String.eqb k k' then Some v else dict_get d' k
  end.

(* ===================================================================== *)
(** ** Tokens *)
(* ===================================================================== *)

Inductive TokenType : Set :=
  | NUMBER | IDENTIFIER | STRING
  | PROGRAM | VAR | INTEGER | BOOLEAN | BEGIN | END | READ | READLN
  | WRITE | WRITELN | IF | THEN | ELSE | WHILE | DO
  | PLUS | MINUS | MULTIPLY | DIVIDE
  | ASSIGN | EQUAL | NOT_EQUAL | LESS_THAN | LESS_EQUAL
  | GREATER_THAN | GREATER_EQUAL
  | SEMICOLON | COMMA | COLON | LEFT_PAREN | RIGHT_PAREN | DOT
  | NEWLINE | EOF.

(** The [.value] of each enumeration member. *)
Definition TokenType_value (t : TokenType) : string :=
  match t with
  | NUMBER => "num" | IDENTIFIER => "id" | STRING => "str"
  | PROGRAM => "program" | VAR => "var" | INTEGER => "integer"
  | BOOLEAN => "boolean" | BEGIN => "begin" | END => "end"
  | READ => "read" | READLN => "readln" | WRITE => "write"
  | WRITELN => "writeln" | IF => "if" | THEN => "then" | ELSE => "else"
  | WHILE => "while" | DO => "do"
  | PLUS => "+" | MINUS => "-" | MULTIPLY => "*" | DIVIDE => "/"
  | ASSIGN => ":=" | EQUAL => "=" | NOT_EQUAL => "<>" | LESS_THAN => "<"
  | LESS_EQUAL => "<=" | GREATER_THAN => ">" | GREATER_EQUAL => ">="
  | SEMICOLON => ";" | COMMA => "," | COLON => ":" | LEFT_PAREN => "("
  | RIGHT_PAREN => ")" | DOT => "."
  | NEWLINE => "NEWLINE" | EOF => "EOF"
  end.

Definition TokenType_eq_dec (a b : TokenType) : {a = b} + {a <> b}.
Proof. decide equality. Defined.

Definition TokenType_eqb (a b : TokenType) : bool :=
  if TokenType_eq_dec a b then true else false.

(** [t in [k1, k2, ...]] *)
Definition TokenType_in (t : TokenType) (l : list TokenType) : bool :=
  existsb (TokenType_eqb t) l.

Module Token.
Record Token : Set := mk
  { type : TokenType; value : string; line : Z; column : Z }.
End Token.
Notation Token := Token.Token.

(* ===================================================================== *)
(** ** Diagnostics *)
(* ===================================================================== *)

Module LexicalError.
(** [text] is the message handed to the base class, i.e. [str(e)]. *)
Record LexicalError : Set := mk
  { message : string; line : Z; column : Z; text : string }.

Definition init (message : string) (line column : Z) : LexicalError :=
  mk message line column
     ("Erro l" ++ e_acute ++ "xico na linha " ++ str_of_Z line
      ++ ", coluna " ++ str_of_Z column ++ ": " ++ message).
End LexicalError.
Notation LexicalError := LexicalError.LexicalError.

Module SyntaxError.
(** [text] is the message handed to the base class, i.e. [str(e)]. *)
Record SyntaxError : Set := mk
  { message : string; token : option Token; text : string }.

Definition init (message : string) (token : option Token) : SyntaxError :=
  match token with
  | Some tk =>
      mk message token
         ("Erro sint" ++ a_acute ++ "tico: " ++ message
          ++ " (Token: " ++ TokenType_value (Token.type tk)
          ++ ", Linha: " ++ str_of_Z (Token.line tk) ++ ")")
  | None =>
      mk message token ("Erro sint" ++ a_acute ++ "tico: " ++ message)
  end.
End SyntaxError.
Notation SyntaxError := SyntaxError.SyntaxError.

(* ===================================================================== *)
(** ** Syntax tree *)
(* ===================================================================== *)

Module TreeNode.
Inductive TreeNode : Set := mk
  { symbol : string; token : option Token; children : list TreeNode }.

(** [TreeNode(symbol)] and [TreeNode(symbol, token=tk)]. *)
Definition init (symbol : string) (token : option Token) : TreeNode :=
  mk symbol token [].

(** [node.add_child(child)]; the call returns the updated node. *)
Definition add_child (node child : TreeNode) : TreeNode :=
  mk (symbol node) (token node) (children node ++ [child])%list.

(** The tokens carried by the nodes of a tree, in pre-order. *)
Fixpoint tokens_of (t : TreeNode) : list Token :=
  match t with
  | mk _ tk ch =>
      ((match tk with Some k => [k] | None => [] end)
       ++ (fix go (l : list TreeNode) : list Token :=
             match l with
             | [] => []
             | c :: l' => tokens_of c ++ go l'
             end) ch)%list
  end.

(** Number of nodes labelled [s]. *)
Fixpoint count_symbol (s : string) (t : TreeNode) : nat :=
  match t with
  | mk s' _ ch =>
      (if String.eqb s s' then 1 else 0)
      + (fix go (l : list TreeNode) : nat :=
           match l with
           | [] => 0
           | c :: l' => count_symbol s c + go l'
           end) ch
  end.
End TreeNode.
Notation TreeNode := TreeNode.TreeNode.

(* ===================================================================== *)
(** ** Outcomes of stateful, failing computations *)
(* ===================================================================== *)

(** A call on an object with state [St] returns a value, raises an
    exception (the object keeps the state it had when the exception was
    raised), or exhausts the fuel of the model. *)
Inductive outcome (E St A : Type) : Type :=
  | Ok (a : A) (s : St)
  | Raise (e : E) (s : St)
  | OutOfFuel.
Arguments Ok {E St A} a s.
Arguments Raise {E St A} e s.
Arguments OutOfFuel {E St A}.

(* ===================================================================== *)
(** ** Lexer *)
(* ===================================================================== *)

Module Lexer.

Record Lexer : Set := mk
  { source : string;
    tokens : list Token;
    current : nat;
    line : Z;
    column : Z }.

Definition keywords : list (string * TokenType) :=
  [ ("program", PROGRAM); ("var", VAR); ("integer", INTEGER);
    ("boolean", BOOLEAN); ("begin", BEGIN); ("end", END);
    ("read", READ); ("readln", READLN); ("write", WRITE);
    ("writeln", WRITELN); ("if", IF); ("then", THEN); ("else", ELSE);
    ("while", WHILE); ("do", DO) ].

Definition single_char_tokens : list (string * TokenType) :=
  [ ("+", PLUS); ("-", MINUS); ("*", MULTIPLY); ("/", DIVIDE);
    ("=", EQUAL); ("<", LESS_THAN); (">", GREATER_THAN);
    (";", SEMICOLON); (",", COMMA); (":", COLON);
    ("(", LEFT_PAREN); (")", RIGHT_PAREN); (".", DOT) ].

Definition double_char_tokens : list (string * TokenType) :=
  [ (":=", ASSIGN); ("<=", LESS_EQUAL); (">=", GREATER_EQUAL);
    ("<>", NOT_EQUAL) ].

(** [Lexer(source_code)] *)
Definition init (source_code : string) : Lexer :=
  mk source_code [] 0 1 1.

Definition is_at_end (lx : Lexer) : bool :=
  (String.length (source lx) <=? current lx)%nat.

Definition advance (lx : Lexer) : ascii * Lexer :=
  if negb (is_at_end lx) then
    let ch := char_at (source lx) (current lx) in
    let lx1 := mk (source lx) (tokens lx) (current lx + 1)
                  (line lx) (column lx) in
    let lx2 :=
      if Ascii.eqb ch LF
      then mk (source lx1) (tokens lx1) (current lx1) (line lx1 + 1) 1
      else mk (source lx1) (tokens lx1) (current lx1)
              (line lx1) (column lx1 + 1) in
    (ch, lx2)
  else (NUL, lx).

Definition peek (lx : Lexer) : ascii :=
  if is_at_end lx then NUL else char_at (source lx) (current lx).

Definition peek_next (lx : Lexer) : ascii :=
  if (String.length (source lx) <=? current lx + 1)%nat then NUL
  else char_at (source lx) (current lx + 1).

Definition add_token (token_type : TokenType) (value : string)
    (lx : Lexer) : Lexer :=
  let token :=
    Token.mk token_type value (line lx)
             (column lx - Z.of_nat (String.length value)) in
  mk (source lx) (tokens lx ++ [token])%list (current lx) (line lx)
     (column lx).

(** The [while] loop of [scan_string]; [None] when the fuel runs out. *)
Fixpoint scan_string_loop (fuel : nat) (value : string) (lx : Lexer)
    : option (string * Lexer) :=
  match fuel with
  | O => None
  | S fuel' =>
      if negb (Ascii.eqb (peek lx) QUOTE) && negb (is_at_end lx) then
        let lx1 :=
          if Ascii.eqb (peek lx) LF
          then mk (source lx) (tokens lx) (current lx) (line lx + 1) 1
          else lx in
        let (ch, lx2) := advance lx1 in
        scan_string_loop fuel' (value ++ str1 ch) lx2
      else Some (value, lx)
  end.

Definition scan_string (fuel : nat) (lx : Lexer)
    : outcome LexicalError Lexer string :=
  match scan_string_loop fuel "" lx with
  | None => OutOfFuel
  | Some (value, lx1) =>
      if is_at_end lx1 then
        Raise (LexicalError.init ("String n" ++ a_tilde ++ "o terminada")
                                 (line lx1) (column lx1)) lx1
      else
        let (_, lx2) := advance lx1 in
        Ok value lx2
  end.

Fixpoint scan_number_loop (fuel : nat) (value : string) (lx : Lexer)
    : option (string * Lexer) :=
  match fuel with
  | O => None
  | S fuel' =>
      if isdigit (peek lx) then
        let (ch, lx1) := advance lx in
        scan_number_loop fuel' (value ++ str1 ch) lx1
      else Some (value, lx)
  end.

Definition scan_number (fuel : nat) (lx : Lexer)
    : option (string * Lexer) :=
  scan_number_loop fuel "" lx.

Fixpoint scan_identifier_loop (fuel : nat) (value : string) (lx : Lexer)
    : option (string * Lexer) :=
  match fuel with
  | O => None
  | S fuel' =>
      if isalnum (peek lx) || Ascii.eqb (peek lx) "_" then
        let (ch, lx1) := advance lx in
        scan_identifier_loop fuel' (value ++ str1 ch) lx1
      else Some (value, lx)
  end.

Definition scan_identifier (fuel : nat) (lx : Lexer)
    : option (string * Lexer) :=
  scan_identifier_loop fuel "" lx.

(** The inner [while] of the comment case of [tokenize]. *)
Fixpoint skip_comment_loop (fuel : nat) (lx : Lexer) : option Lexer :=
  match fuel with
  | O => None
  | S fuel' =>
      if negb (Ascii.eqb (peek lx) "}") && negb (is_at_end lx) then
        skip_comment_loop fuel' (snd (advance lx))
      else Some lx
  end.

(** One test of the main [while] of [tokenize] followed, while the source
    is not exhausted, by one iteration; [continue] stands for the rest of
    the loop and [fuel] bounds the inner loops.  When the source is
    exhausted the EOF token is added and [self.tokens] is returned. *)
Definition tokenize_iteration (fuel : nat)
    (continue : Lexer -> outcome LexicalError Lexer (list Token))
    (lx : Lexer) : outcome LexicalError Lexer (list Token) :=
  if negb (is_at_end lx) then
    let ch := peek lx in
    if existsb (Ascii.eqb ch) [" "%char; TAB; CR] then
      continue (snd (advance lx))
    else if Ascii.eqb ch LF then
      (* the value is the two characters backslash and n *)
      let lx1 := add_token NEWLINE "\n" lx in
      continue (snd (advance lx1))
    else if Ascii.eqb ch "{" then
      let lx1 := snd (advance lx) in
      match skip_comment_loop fuel lx1 with
      | None => OutOfFuel
      | Some lx2 =>
          if is_at_end lx2 then
            Raise (LexicalError.init
                     ("Coment" ++ a_acute ++ "rio n" ++ a_tilde
                      ++ "o terminado")
                     (line lx2) (column lx2)) lx2
          else continue (snd (advance lx2))
      end
    else if Ascii.eqb ch QUOTE then
      let lx1 := snd (advance lx) in
      match scan_string fuel lx1 with
      | OutOfFuel => OutOfFuel
      | Raise e lx2 => Raise e lx2
      | Ok string_value lx2 =>
          continue (add_token STRING string_value lx2)
      end
    else if isdigit ch then
      match scan_number fuel lx with
      | None => OutOfFuel
      | Some (num_value, lx1) =>
          continue (add_token NUMBER num_value lx1)
      end
    else if isalpha ch || Ascii.eqb ch "_" then
      match scan_identifier fuel lx with
      | None => OutOfFuel
      | Some (ident, lx1) =>
          let lower_ident := lower ident in
          let token_type :=
            match dict_get keywords lower_ident with
            | Some k => k
            | None => IDENTIFIER
            end in
          continue (add_token token_type ident lx1)
      end
    else
      let two := str1 ch ++ str1 (peek_next lx) in
      match dict_get double_char_tokens two with
      | Some k =>
          let lx1 := snd (advance lx) in
          let lx2 := snd (advance lx1) in
          continue (add_token k two lx2)
      | None =>
          match dict_get single_char_tokens (str1 ch) with
          | Some k =>
              let lx1 := snd (advance lx) in
              continue (add_token k (str1 ch) lx1)
          | None =>
              let (unknown, lx1) := advance lx in
              Raise (LexicalError.init
                       ("Caractere desconhecido: '" ++ str1 unknown
                        ++ "'")
                       (line lx1) (column lx1 - 1)) lx1
          end
      end
  else
    let lx1 := add_token EOF "" lx in
    Ok (tokens lx1) lx1.

(** The main loop, one iteration per unit of fuel. *)
Fixpoint tokenize_loop (fuel : nat) (lx : Lexer)
    : outcome LexicalError Lexer (list Token) :=
  match fuel with
  | O => OutOfFuel
  | S fuel' => tokenize_iteration fuel' (tokenize_loop fuel') lx
  end.

(** [tokenize] with an explicit amount of fuel: the state is reset
    first. *)
Definition tokenize_fuel (fuel : nat) (lx : Lexer)
    : outcome LexicalError Lexer (list Token) :=
  tokenize_loop fuel (mk (source lx) [] 0 1 1).

(** [lexer.tokenize()] *)
Definition tokenize (lx : Lexer) : outcome LexicalError Lexer (list Token) :=
  tokenize_fuel (String.length (source lx) + 2) lx.

End Lexer.
Notation Lexer := Lexer.Lexer.

(* ===================================================================== *)
(** ** Reasoning about the lexer *)
(* ===================================================================== *)

Module LexerLogic.
Import Lexer.

(** Characters left to read. *)
Definition remaining (lx : Lexer) : nat :=
  String.length (source lx) - current lx.

Lemma is_at_end_true lx : is_at_end lx = true <-> remaining lx = 0.
Proof.
  unfold is_at_end, remaining. rewrite Nat.leb_le. lia.
Qed.

Lemma is_at_end_false lx : is_at_end lx = false <-> 0 < remaining lx.
Proof.
  unfold is_at_end, remaining. rewrite Nat.leb_gt. lia.
Qed.

Lemma advance_source lx : source (snd (advance lx)) = source lx.
Proof.
  unfold advance. destruct (is_at_end lx); simpl; [reflexivity|].
  now destruct (Ascii.eqb _ LF).
Qed.

Lemma advance_tokens lx : tokens (snd (advance lx)) = tokens lx.
Proof.
  unfold advance. destruct (is_at_end lx); simpl; [reflexivity|].
  now destruct (Ascii.eqb _ LF).
Qed.

Lemma advance_current lx :
  current (snd (advance lx))
  = if is_at_end lx then current lx else current lx + 1.
Proof.
  unfold advance. destruct (is_at_end lx); simpl; [reflexivity|].
  now destruct (Ascii.eqb _ LF).
Qed.

Lemma advance_remaining lx :
  remaining (snd (advance lx)) = remaining lx - 1.
Proof.
  unfold remaining. rewrite advance_source, advance_current.
  destruct (is_at_end lx) eqn:E; [|lia].
  apply is_at_end_true in E. unfold remaining in E. lia.
Qed.

Lemma peek_at_end lx : is_at_end lx = true -> peek lx = NUL.
Proof. unfold peek. now intros ->. Qed.

(** What an inner loop leaves behind: same source and tokens, cursor
    moved forward by the characters it read. *)
Definition scanned (lx lx' : Lexer) : Prop :=
  source lx' = source lx /\ tokens lx' = tokens lx
  /\ remaining lx' <= remaining lx.

Lemma scanned_refl lx : scanned lx lx.
Proof. unfold scanned. auto. Qed.

Lemma scanned_advance lx : scanned lx (snd (advance lx)).
Proof.
  unfold scanned.
  rewrite advance_source, advance_tokens, advance_remaining.
  repeat split. lia.
Qed.

Lemma scanned_trans a b c : scanned a b -> scanned b c -> scanned a c.
Proof.
  unfold scanned. intros (H1 & H2 & H3) (H4 & H5 & H6).
  repeat split; try congruence. lia.
Qed.

Lemma scan_number_loop_total fuel : forall value lx,
  remaining lx < fuel ->
  exists v lx', scan_number_loop fuel value lx = Some (v, lx')
                /\ scanned lx lx'
                /\ (isdigit (peek lx) = true -> remaining lx' < remaining lx).
Proof.
  induction fuel as [|f IH]; intros value lx Hf; [lia|].
  cbn [scan_number_loop].
  destruct (isdigit (peek lx)) eqn:E.
  - assert (Hne : is_at_end lx = false).
    { destruct (is_at_end lx) eqn:E'; [|reflexivity].
      rewrite (peek_at_end lx E') in E. discriminate E. }
    apply is_at_end_false in Hne.
    destruct (advance lx) as [ch lx1] eqn:Ea.
    assert (E1 : lx1 = snd (advance lx)) by now rewrite Ea.
    pose proof (scanned_advance lx) as Hs. rewrite <- E1 in Hs.
    pose proof (advance_remaining lx) as Hr. rewrite <- E1 in Hr.
    destruct (IH (value ++ str1 ch) lx1) as (v & lx' & Hl & Hsc & _);
      [lia|].
    exists v, lx'. split; [assumption|].
    split; [eapply scanned_trans; eauto|].
    intros _. destruct Hsc as (_ & _ & Hsc). lia.
  - exists value, lx. split; [reflexivity|].
    split; [apply scanned_refl | discriminate].
Qed.

Lemma scan_identifier_loop_total fuel : forall value lx,
  remaining lx < fuel ->
  exists v lx', scan_identifier_loop fuel value lx = Some (v, lx')
                /\ scanned lx lx'
                /\ (isalnum (peek lx) || Ascii.eqb (peek lx) "_" = true ->
                    remaining lx' < remaining lx).
Proof.
  induction fuel as [|f IH]; intros value lx Hf; [lia|].
  cbn [scan_identifier_loop].
  destruct (isalnum (peek lx) || Ascii.eqb (peek lx) "_") eqn:E.
  - assert (Hne : is_at_end lx = false).
    { destruct (is_at_end lx) eqn:E'; [|reflexivity].
      rewrite (peek_at_end lx E') in E. discriminate E. }
    apply is_at_end_false in Hne.
    destruct (advance lx) as [ch lx1] eqn:Ea.
    assert (E1 : lx1 = snd (advance lx)) by now rewrite Ea.
    pose proof (scanned_advance lx) as Hs. rewrite <- E1 in Hs.
    pose proof (advance_remaining lx) as Hr. rewrite <- E1 in Hr.
    destruct (IH (value ++ str1 ch) lx1) as (v & lx' & Hl & Hsc & _);
      [lia|].
    exists v, lx'. split; [assumption|].
    split; [eapply scanned_trans; eauto|].
    intros _. destruct Hsc as (_ & _ & Hsc). lia.
  - exists value, lx. split; [reflexivity|].
    split; [apply scanned_refl | discriminate].
Qed.

Lemma skip_comment_loop_total fuel : forall lx,
  remaining lx < fuel ->
  exists lx', skip_comment_loop fuel lx = Some lx' /\ scanned lx lx'.
Proof.
  induction fuel as [|f IH]; intros lx Hf; [lia|].
  cbn [skip_comment_loop].
  destruct (negb (Ascii.eqb (peek lx) "}") && negb (is_at_end lx)) eqn:E.
  - apply andb_prop in E. destruct E as [_ E].
    apply negb_true_iff, is_at_end_false in E.
    pose proof (scanned_advance lx) as Hs.
    pose proof (advance_remaining lx) as Hr.
    destruct (IH (snd (advance lx))) as (lx' & Hl & Hsc); [lia|].
    exists lx'. split; [assumption|]. eapply scanned_trans; eauto.
  - exists lx. auto using scanned_refl.
Qed.

(** The line and column updates of [scan_string] leave the source, the
    tokens and the cursor alone. *)
Lemma scan_string_loop_total fuel : forall value lx,
  remaining lx < fuel ->
  exists v lx', scan_string_loop fuel value lx = Some (v, lx')
                /\ scanned lx lx'.
Proof.
  induction fuel as [|f IH]; intros value lx Hf; [lia|].
  cbn [scan_string_loop].
  destruct (negb (Ascii.eqb (peek lx) QUOTE) && negb (is_at_end lx)) eqn:E.
  - apply andb_prop in E. destruct E as [_ E].
    apply negb_true_iff, is_at_end_false in E.
    set (lx1 := if Ascii.eqb (peek lx) LF
                then mk (source lx) (tokens lx) (current lx) (line lx + 1) 1
                else lx).
    assert (H1 : scanned lx lx1).
    { unfold lx1. destruct (Ascii.eqb (peek lx) LF);
        unfold scanned, remaining; simpl; auto. }
    assert (H1' : remaining lx1 = remaining lx).
    { unfold lx1. now destruct (Ascii.eqb (peek lx) LF). }
    destruct (advance lx1) as [ch lx2] eqn:Ea.
    assert (E2 : lx2 = snd (advance lx1)) by now rewrite Ea.
    pose proof (scanned_advance lx1) as Hs. rewrite <- E2 in Hs.
    pose proof (advance_remaining lx1) as Hr. rewrite <- E2 in Hr.
    destruct (IH (value ++ str1 ch) lx2) as (v & lx' & Hl & Hsc); [lia|].
    exists v, lx'. split; [assumption|].
    eapply scanned_trans; [exact H1|]. eapply scanned_trans; eauto.
  - exists value, lx. auto using scanned_refl.
Qed.

Lemma scan_string_total fuel lx :
  remaining lx < fuel ->
  match scan_string fuel lx with
  | Ok _ lx' => scanned lx lx'
  | Raise _ lx' => scanned lx lx'
  | OutOfFuel => False
  end.
Proof.
  intros Hf. unfold scan_string.
  destruct (scan_string_loop_total fuel "" lx Hf) as (v & lx1 & -> & Hs).
  destruct (is_at_end lx1); [assumption|].
  destruct (advance lx1) as [ch lx2] eqn:Ea.
  assert (E2 : lx2 = snd (advance lx1)) by now rewrite Ea.
  subst lx2. eapply scanned_trans; eauto using scanned_advance.
Qed.

Lemma remaining_add_token k v lx :
  remaining (add_token k v lx) = remaining lx.
Proof. reflexivity. Qed.

(** A run of the main loop with enough fuel ends: either with the token
    list, the cursor at the end of the source, or with a lexical error.
    The source is never changed. *)
Definition finished (lx : Lexer)
    (r : outcome LexicalError Lexer (list Token)) : Prop :=
  match r with
  | Ok ts lx' =>
      source lx' = source lx /\ ts = tokens lx' /\ remaining lx' = 0
  | Raise _ lx' => source lx' = source lx
  | OutOfFuel => False
  end.

Lemma finished_scanned lx lx1 r :
  source lx1 = source lx -> finished lx1 r -> finished lx r.
Proof.
  intros Hs. destruct r; simpl; [|congruence|auto].
  intros (H1 & H2 & H3). repeat split; congruence.
Qed.

Lemma tokenize_loop_total fuel : forall lx,
  remaining lx + 2 <= fuel -> finished lx (tokenize_loop fuel lx).
Proof.
  induction fuel as [|f IH]; intros lx Hf; [lia|].
  cbn [tokenize_loop]. unfold tokenize_iteration.
  destruct (is_at_end lx) eqn:Eend; cbn [negb].
  { simpl. repeat split. now apply is_at_end_true. }
  apply is_at_end_false in Eend.
  pose proof (advance_remaining lx) as Hadv.
  pose proof (advance_source lx) as Hsrc.
  assert (Hnext : forall k v,
             finished lx (tokenize_loop f (add_token k v (snd (advance lx))))).
  { intros k v. eapply finished_scanned; [| apply IH].
    - simpl. exact Hsrc.
    - rewrite remaining_add_token. lia. }
  destruct (existsb (Ascii.eqb (peek lx)) [" "%char; TAB; CR]).
  { eapply finished_scanned; [exact Hsrc | apply IH; lia]. }
  destruct (Ascii.eqb (peek lx) LF).
  { eapply finished_scanned; [| apply IH].
    - now rewrite advance_source.
    - rewrite advance_remaining, remaining_add_token. lia. }
  destruct (Ascii.eqb (peek lx) "{").
  { destruct (skip_comment_loop_total f (snd (advance lx)))
      as (lx2 & -> & (Hs2 & _ & Hr2)); [lia|].
    destruct (is_at_end lx2); [simpl; congruence|].
    eapply finished_scanned; [| apply IH].
    - rewrite advance_source. congruence.
    - rewrite advance_remaining. lia. }
  destruct (Ascii.eqb (peek lx) QUOTE).
  { pose proof (scan_string_total f (snd (advance lx))) as Hss.
    destruct (scan_string f (snd (advance lx))) as [v lx2|e lx2|].
    - destruct Hss as (Hs2 & _ & Hr2); [lia|].
      eapply finished_scanned; [| apply IH].
      + simpl. congruence.
      + rewrite remaining_add_token. lia.
    - destruct Hss as (Hs2 & _ & Hr2); [lia|]. simpl. congruence.
    - apply Hss. lia. }
  destruct (isdigit (peek lx)) eqn:Edig.
  { unfold scan_number.
    destruct (scan_number_loop_total f "" lx)
      as (v & lx1 & -> & (Hs1 & _ & _) & Hr1); [lia|].
    specialize (Hr1 Edig).
    eapply finished_scanned; [| apply IH].
    + simpl. congruence.
    + rewrite remaining_add_token. lia. }
  destruct (isalpha (peek lx) || Ascii.eqb (peek lx) "_") eqn:Eid.
  { unfold scan_identifier.
    destruct (scan_identifier_loop_total f "" lx)
      as (v & lx1 & -> & (Hs1 & _ & _) & Hr1); [lia|].
    assert (Hr : remaining lx1 < remaining lx).
    { apply Hr1. unfold isalnum.
      destruct (isalpha (peek lx)); [reflexivity|].
      simpl in Eid. rewrite Eid. now rewrite orb_true_r. }
    eapply finished_scanned; [| apply IH].
    + simpl. congruence.
    + rewrite remaining_add_token. lia. }
  destruct (dict_get double_char_tokens _).
  { eapply finished_scanned; [| apply IH].
    - simpl. now rewrite !advance_source.
    - rewrite remaining_add_token, !advance_remaining. lia. }
  destruct (dict_get single_char_tokens _).
  { apply Hnext. }
  destruct (advance lx) as [unknown lx1] eqn:Ea. simpl.
  assert (E1 : lx1 = snd (advance lx)) by now rewrite Ea.
  now subst lx1.
Qed.

Lemma tokenize_finished lx : finished lx (tokenize lx).
Proof.
  unfold tokenize, tokenize_fuel.
  apply (finished_scanned lx (mk (source lx) [] 0 1 1)); [reflexivity|].
  apply tokenize_loop_total. unfold remaining. simpl. lia.
Qed.

(** *** String literals *)

(** The part of the source that has not been read yet is [t]. *)
Definition unread (lx : Lexer) (t : string) : Prop :=
  exists pre, source lx = pre ++ t /\ String.length pre = current lx.

Lemma length_app s1 s2 :
  String.length (s1 ++ s2) = String.length s1 + String.length s2.
Proof. induction s1; simpl; auto. Qed.

Lemma get_app_here s1 c s2 :
  String.get (String.length s1) (s1 ++ String c s2) = Some c.
Proof. induction s1; simpl; auto. Qed.

Lemma app_cons_assoc s1 c s2 :
  (s1 ++ str1 c) ++ s2 = s1 ++ String c s2.
Proof. induction s1; simpl; congruence. Qed.

Lemma unread_init src : unread (init src) src.
Proof. now exists "". Qed.

Lemma unread_nil lx : unread lx "" -> is_at_end lx = true.
Proof.
  intros (pre & Hs & Hl). apply is_at_end_true. unfold remaining.
  rewrite Hs, length_app. simpl. lia.
Qed.

Lemma unread_cons lx c t :
  unread lx (String c t) ->
  is_at_end lx = false /\ char_at (source lx) (current lx) = c.
Proof.
  intros (pre & Hs & Hl). split.
  - apply is_at_end_false. unfold remaining.
    rewrite Hs, length_app. simpl. lia.
  - unfold char_at. now rewrite Hs, <- Hl, get_app_here.
Qed.

Lemma unread_peek lx c t : unread lx (String c t) -> peek lx = c.
Proof.
  intros H. destruct (unread_cons lx c t H) as [E1 E2].
  unfold peek. now rewrite E1.
Qed.

(** The state after reading the character [c]. *)
Definition stepped (c : ascii) (lx : Lexer) : Lexer :=
  if Ascii.eqb c LF
  then mk (source lx) (tokens lx) (current lx + 1) (line lx + 1) 1
  else mk (source lx) (tokens lx) (current lx + 1) (line lx)
          (column lx + 1).

Lemma unread_advance lx c t :
  unread lx (String c t) ->
  advance lx = (c, stepped c lx) /\ unread (stepped c lx) t.
Proof.
  intros H. destruct (unread_cons lx c t H) as [E1 E2]. split.
  - unfold advance, stepped. rewrite E1, E2. simpl.
    now destruct (Ascii.eqb c LF).
  - destruct H as (pre & Hs & Hl). exists (pre ++ str1 c). split.
    + rewrite app_cons_assoc.
      unfold stepped. now destruct (Ascii.eqb c LF).
    + rewrite length_app. simpl.
      unfold stepped. destruct (Ascii.eqb c LF); simpl; lia.
Qed.

Fixpoint count_LF (s : string) : nat :=
  match s with
  | EmptyString => 0
  | String c s' => (if Ascii.eqb c LF then 1 else 0) + count_LF s'
  end.

Fixpoint no_quote (s : string) : bool :=
  match s with
  | EmptyString => true
  | String c s' => negb (Ascii.eqb c QUOTE) && no_quote s'
  end.

(** The column reached from [col] after the characters of [s]. *)
Fixpoint column_after (s : string) (col : Z) : Z :=
  match s with
  | EmptyString => col
  | String c s' => column_after s' (if Ascii.eqb c LF then 1 else col + 1)
  end.

(** The state in which the loop of [scan_string] leaves the lexer after
    the characters of [body]: every line feed is counted once by the loop
    and once more by [advance]. *)
Definition after_string_body (body : string) (lx : Lexer) : Lexer :=
  mk (source lx) (tokens lx) (current lx + String.length body)
     (line lx + 2 * Z.of_nat (count_LF body))
     (column_after body (column lx)).

Lemma scan_string_loop_body body : forall t value lx fuel,
  unread lx (body ++ t) ->
  no_quote body = true ->
  t = "" \/ (exists r, t = String QUOTE r) ->
  String.length body < fuel ->
  scan_string_loop fuel value lx
  = Some (value ++ body, after_string_body body lx)
    /\ unread (after_string_body body lx) t.
Proof.
  induction body as [|c body IH]; intros t value lx fuel Hun Hnq Ht Hf.
  - destruct fuel as [|f]; [simpl in Hf; lia|]. cbn [scan_string_loop].
    assert (Elx : after_string_body "" lx = lx).
    { destruct lx. unfold after_string_body. simpl.
      f_equal; lia. }
    rewrite Elx. simpl in Hun.
    replace (value ++ "") with value
      by (clear; induction value; simpl; congruence).
    split; [|assumption].
    destruct Ht as [->|(r & ->)].
    + rewrite (unread_nil lx Hun). now rewrite andb_false_r.
    + rewrite (unread_peek lx _ _ Hun). reflexivity.
  - destruct fuel as [|f]; [simpl in Hf; lia|]. cbn [scan_string_loop].
    simpl in Hun, Hnq. apply andb_prop in Hnq. destruct Hnq as [Hc Hnq].
    destruct (unread_cons lx c _ Hun) as [Ee _].
    rewrite (unread_peek lx _ _ Hun), Hc, Ee. cbn [negb andb].
    set (lx1 := if Ascii.eqb c LF
                then mk (source lx) (tokens lx) (current lx) (line lx + 1) 1
                else lx).
    assert (Hun1 : unread lx1 (String c (body ++ t))).
    { unfold lx1. now destruct (Ascii.eqb c LF). }
    destruct (unread_advance lx1 c _ Hun1) as [Ea Hun2]. rewrite Ea.
    destruct (IH t (value ++ str1 c) (stepped c lx1) f Hun2 Hnq Ht)
      as [E Hun3]; [simpl in Hf; lia|].
    assert (Est : after_string_body body (stepped c lx1)
                  = after_string_body (String c body) lx).
    { unfold after_string_body, stepped, lx1.
      cbn [count_LF column_after String.length].
      destruct (Ascii.eqb c LF) eqn:Ec;
        cbn [source tokens current line column]; f_equal; lia. }
    rewrite Est in E, Hun3. rewrite app_cons_assoc in E.
    split; assumption.
Qed.

(** A terminated literal: [scan_string] returns its body and stops after
    the closing quote. *)
Lemma scan_string_terminated body rest lx fuel :
  unread lx (body ++ String QUOTE rest) ->
  no_quote body = true ->
  String.length body < fuel ->
  scan_string fuel lx
  = Ok body (stepped QUOTE (after_string_body body lx))
    /\ unread (stepped QUOTE (after_string_body body lx)) rest.
Proof.
  intros Hun Hnq Hf. unfold scan_string.
  destruct (scan_string_loop_body body (String QUOTE rest) "" lx fuel)
    as [E Hun1]; eauto.
  rewrite E. simpl append.
  destruct (unread_cons _ _ _ Hun1) as [Ee _]. rewrite Ee.
  destruct (unread_advance _ _ _ Hun1) as [Ea Hun2]. rewrite Ea.
  split; [reflexivity | assumption].
Qed.

(** An unterminated literal: [scan_string] raises at the end of the
    source. *)
Lemma scan_string_unterminated body lx fuel :
  unread lx body ->
  no_quote body = true ->
  String.length body < fuel ->
  scan_string fuel lx
  = Raise (LexicalError.init ("String n" ++ a_tilde ++ "o terminada")
             (line (after_string_body body lx))
             (column (after_string_body body lx)))
          (after_string_body body lx)
    /\ is_at_end (after_string_body body lx) = true.
Proof.
  intros Hun Hnq Hf. unfold scan_string.
  destruct (scan_string_loop_body body "" "" lx fuel) as [E Hun1]; eauto.
  { replace (body ++ "") with body; [assumption|].
    clear; induction body; simpl; congruence. }
  rewrite E. simpl append.
  rewrite (unread_nil _ Hun1). split; reflexivity.
Qed.

(** *** More fuel does not change an outcome *)

Lemma scan_number_loop_mono f : forall value lx r,
  scan_number_loop f value lx = Some r ->
  scan_number_loop (S f) value lx = Some r.
Proof.
  induction f as [|f IH]; intros value lx r H; [discriminate H|].
  cbn [scan_number_loop] in H. set (n := S f).
  cbn [scan_number_loop]. destruct (isdigit (peek lx)); [|exact H].
  destruct (advance lx) as [ch lx1]. subst n. now apply IH.
Qed.

Lemma scan_identifier_loop_mono f : forall value lx r,
  scan_identifier_loop f value lx = Some r ->
  scan_identifier_loop (S f) value lx = Some r.
Proof.
  induction f as [|f IH]; intros value lx r H; [discriminate H|].
  cbn [scan_identifier_loop] in H. set (n := S f).
  cbn [scan_identifier_loop].
  destruct (isalnum (peek lx) || Ascii.eqb (peek lx) "_"); [|exact H].
  destruct (advance lx) as [ch lx1]. subst n. now apply IH.
Qed.

Lemma skip_comment_loop_mono f : forall lx r,
  skip_comment_loop f lx = Some r ->
  skip_comment_loop (S f) lx = Some r.
Proof.
  induction f as [|f IH]; intros lx r H; [discriminate H|].
  cbn [skip_comment_loop] in H. set (n := S f).
  cbn [skip_comment_loop].
  destruct (negb (Ascii.eqb (peek lx) "}") && negb (is_at_end lx));
    [|exact H].
  subst n. now apply IH.
Qed.

Lemma scan_string_loop_mono f : forall value lx r,
  scan_string_loop f value lx = Some r ->
  scan_string_loop (S f) value lx = Some r.
Proof.
  induction f as [|f IH]; intros value lx r H; [discriminate H|].
  cbn [scan_string_loop] in H. set (n := S f).
  cbn [scan_string_loop].
  destruct (negb (Ascii.eqb (peek lx) QUOTE) && negb (is_at_end lx));
    [|exact H].
  destruct (advance _) as [ch lx2]. subst n. now apply IH.
Qed.

Lemma scan_string_mono f lx :
  scan_string f lx <> OutOfFuel -> scan_string (S f) lx = scan_string f lx.
Proof.
  unfold scan_string. intros H.
  destruct (scan_string_loop f "" lx) as [r|] eqn:E; [|now elim H].
  now rewrite (scan_string_loop_mono f "" lx r E).
Qed.

(** [g'] agrees with [g] wherever [g] does not run out of fuel. *)
Definition stable (g g' : Lexer -> outcome LexicalError Lexer (list Token))
    : Prop :=
  forall lx, g lx <> OutOfFuel -> g' lx = g lx.

Lemma tokenize_iteration_mono f g g' :
  stable g g' ->
  stable (tokenize_iteration f g) (tokenize_iteration (S f) g').
Proof.
  intros Hg lx H. unfold tokenize_iteration in *.
  destruct (negb (is_at_end lx)); [|reflexivity]. cbv zeta in *.
  destruct (existsb (Ascii.eqb (peek lx)) [" "%char; TAB; CR]);
    [now apply Hg|].
  destruct (Ascii.eqb (peek lx) LF); [now apply Hg|].
  destruct (Ascii.eqb (peek lx) "{").
  { destruct (skip_comment_loop f (snd (advance lx))) as [lx2|] eqn:E;
      [|now elim H].
    rewrite (skip_comment_loop_mono f _ lx2 E).
    destruct (is_at_end lx2); [reflexivity | now apply Hg]. }
  destruct (Ascii.eqb (peek lx) QUOTE).
  { destruct (scan_string f (snd (advance lx))) as [v lx2|e lx2|] eqn:E;
      [| |now elim H].
    - rewrite scan_string_mono, E by (rewrite E; discriminate).
      now apply Hg.
    - rewrite scan_string_mono, E by (rewrite E; discriminate).
      reflexivity. }
  destruct (isdigit (peek lx)).
  { unfold scan_number in *.
    destruct (scan_number_loop f "" lx) as [[v lx1]|] eqn:E; [|now elim H].
    rewrite (scan_number_loop_mono f "" lx _ E). now apply Hg. }
  destruct (isalpha (peek lx) || Ascii.eqb (peek lx) "_").
  { unfold scan_identifier in *.
    destruct (scan_identifier_loop f "" lx) as [[v lx1]|] eqn:E;
      [|now elim H].
    rewrite (scan_identifier_loop_mono f "" lx _ E). now apply Hg. }
  destruct (dict_get double_char_tokens _); [now apply Hg|].
  destruct (dict_get single_char_tokens _); [now apply Hg|].
  reflexivity.
Qed.

Lemma tokenize_loop_mono f : stable (tokenize_loop f) (tokenize_loop (S f)).
Proof.
  induction f as [|f IH].
  - intros lx H. now elim H.
  - exact (tokenize_iteration_mono f _ _ IH).
Qed.

Lemma tokenize_loop_le f f' :
  f <= f' -> stable (tokenize_loop f) (tokenize_loop f').
Proof.
  induction 1 as [|f' Hle IH]; intros lx H; [reflexivity|].
  rewrite <- (IH lx H). apply tokenize_loop_mono. now rewrite (IH lx H).
Qed.

(** Any fuel from the length of the source plus two gives the outcome of
    [tokenize]. *)
Lemma tokenize_fuel_enough lx fuel :
  String.length (source lx) + 2 <= fuel ->
  tokenize_fuel fuel lx = tokenize lx.
Proof.
  intros Hf. unfold tokenize, tokenize_fuel.
  apply tokenize_loop_le; [assumption|].
  pose proof (tokenize_finished lx) as H.
  unfold tokenize, tokenize_fuel in H. intros E. now rewrite E in H.
Qed.

(** *** A source followed by more text

    When the text that follows a source [s] starts with a character [c0]
    that continues neither a number, nor an identifier, nor a
    two-character operator (a double quote or a line feed, for example),
    the lexer reads [s] followed by that text exactly as it reads [s]
    alone, up to the point where [s] ends. *)

Section Extension.

Variable c0 : ascii.
Variable body : string.
Hypothesis c0_digit : isdigit c0 = false.
Hypothesis c0_alnum : isalnum c0 || Ascii.eqb c0 "_" = false.
Hypothesis c0_equal : Ascii.eqb c0 "=" = false.
Hypothesis c0_greater : Ascii.eqb c0 ">" = false.

(** The state [lx], on the source extended by [c0] and [body]. *)
Definition extend (lx : Lexer) : Lexer :=
  mk (source lx ++ String c0 body) (tokens lx) (current lx)
     (line lx) (column lx).

Definition in_source (lx : Lexer) : Prop :=
  current lx <= String.length (source lx).

Lemma in_source_advance lx : in_source lx -> in_source (snd (advance lx)).
Proof.
  unfold in_source. rewrite advance_source, advance_current.
  destruct (is_at_end lx) eqn:E; [auto|].
  apply is_at_end_false in E. unfold remaining in E. lia.
Qed.

Lemma extend_not_at_end lx : in_source lx -> is_at_end (extend lx) = false.
Proof.
  unfold in_source. intros H. apply is_at_end_false.
  unfold remaining, extend. simpl. rewrite length_app. simpl. lia.
Qed.

Lemma not_at_end_in_source lx : is_at_end lx = false -> in_source lx.
Proof.
  intros E. apply is_at_end_false in E. unfold remaining in E.
  unfold in_source. lia.
Qed.

Lemma extend_char lx :
  is_at_end lx = false ->
  char_at (source (extend lx)) (current (extend lx))
  = char_at (source lx) (current lx).
Proof.
  intros E. apply is_at_end_false in E. unfold remaining in E.
  unfold extend, char_at. simpl.
  rewrite <- append_correct1 by lia. reflexivity.
Qed.

Lemma extend_peek lx : is_at_end lx = false -> peek (extend lx) = peek lx.
Proof.
  intros E. unfold peek.
  rewrite (extend_not_at_end lx (not_at_end_in_source lx E)), E.
  now apply extend_char.
Qed.

Lemma extend_peek_end lx :
  in_source lx -> is_at_end lx = true -> peek (extend lx) = c0.
Proof.
  intros Hin E. unfold peek. rewrite (extend_not_at_end lx Hin).
  apply is_at_end_true in E. unfold remaining, in_source in *.
  assert (Hc : current lx = String.length (source lx)) by lia.
  unfold extend, char_at. simpl. now rewrite Hc, get_app_here.
Qed.

Lemma extend_advance lx :
  is_at_end lx = false ->
  advance (extend lx) = (fst (advance lx), extend (snd (advance lx))).
Proof.
  intros E. unfold advance.
  rewrite (extend_not_at_end lx (not_at_end_in_source lx E)), E.
  cbn [negb]. rewrite (extend_char lx E). cbv zeta.
  now destruct (Ascii.eqb (char_at (source lx) (current lx)) LF).
Qed.

Lemma scan_number_loop_extend f : forall value lx r lx',
  in_source lx ->
  scan_number_loop f value lx = Some (r, lx') ->
  in_source lx'
  /\ forall f2, f <= f2 ->
       scan_number_loop f2 value (extend lx) = Some (r, extend lx').
Proof.
  induction f as [|f IH]; intros value lx r lx' Hin H; [discriminate H|].
  cbn [scan_number_loop] in H.
  destruct (isdigit (peek lx)) eqn:Ed.
  - assert (Ee : is_at_end lx = false).
    { destruct (is_at_end lx) eqn:E'; [|reflexivity].
      rewrite (peek_at_end lx E') in Ed. discriminate Ed. }
    destruct (advance lx) as [ch lx1] eqn:Ea.
    assert (E1 : lx1 = snd (advance lx)) by now rewrite Ea.
    destruct (IH (value ++ str1 ch) lx1 r lx') as [Hin' Hext]; [|exact H|].
    { subst lx1. now apply in_source_advance. }
    split; [assumption|]. intros [|f2] Hf; [lia|].
    cbn [scan_number_loop].
    rewrite (extend_peek lx Ee), Ed, (extend_advance lx Ee), Ea.
    cbn [fst snd]. apply Hext. lia.
  - injection H as <- <-. split; [assumption|].
    intros [|f2] Hf; [lia|]. cbn [scan_number_loop].
    destruct (is_at_end lx) eqn:Ee.
    + now rewrite (extend_peek_end lx Hin Ee), c0_digit.
    + now rewrite (extend_peek lx Ee), Ed.
Qed.

Lemma scan_identifier_loop_extend f : forall value lx r lx',
  in_source lx ->
  scan_identifier_loop f value lx = Some (r, lx') ->
  in_source lx'
  /\ forall f2, f <= f2 ->
       scan_identifier_loop f2 value (extend lx) = Some (r, extend lx').
Proof.
  induction f as [|f IH]; intros value lx r lx' Hin H; [discriminate H|].
  cbn [scan_identifier_loop] in H.
  destruct (isalnum (peek lx) || Ascii.eqb (peek lx) "_") eqn:Ed.
  - assert (Ee : is_at_end lx = false).
    { destruct (is_at_end lx) eqn:E'; [|reflexivity].
      rewrite (peek_at_end lx E') in Ed. discriminate Ed. }
    destruct (advance lx) as [ch lx1] eqn:Ea.
    assert (E1 : lx1 = snd (advance lx)) by now rewrite Ea.
    destruct (IH (value ++ str1 ch) lx1 r lx') as [Hin' Hext]; [|exact H|].
    { subst lx1. now apply in_source_advance. }
    split; [assumption|]. intros [|f2] Hf; [lia|].
    cbn [scan_identifier_loop].
    rewrite (extend_peek lx Ee), Ed, (extend_advance lx Ee), Ea.
    cbn [fst snd]. apply Hext. lia.
  - injection H as <- <-. split; [assumption|].
    intros [|f2] Hf; [lia|]. cbn [scan_identifier_loop].
    destruct (is_at_end lx) eqn:Ee.
    + now rewrite (extend_peek_end lx Hin Ee), c0_alnum.
    + now rewrite (extend_peek lx Ee), Ed.
Qed.

Lemma skip_comment_loop_extend f : forall lx lx',
  skip_comment_loop f lx = Some lx' ->
  is_at_end lx' = false ->
  forall f2, f <= f2 -> skip_comment_loop f2 (extend lx) = Some (extend lx').
Proof.
  induction f as [|f IH]; intros lx lx' H Hne; [discriminate H|].
  cbn [skip_comment_loop] in H.
  intros [|f2] Hf; [lia|]. cbn [skip_comment_loop].
  destruct (negb (Ascii.eqb (peek lx) "}") && negb (is_at_end lx)) eqn:Ec.
  - apply andb_prop in Ec. destruct Ec as [Ep Ee].
    apply negb_true_iff in Ee.
    rewrite (extend_peek lx Ee), Ep,
      (extend_not_at_end lx (not_at_end_in_source lx Ee)).
    cbn [negb andb]. rewrite (extend_advance lx Ee). cbn [snd].
    apply (IH _ lx' H Hne). lia.
  - injection H as <-. rewrite Hne in Ec.
    rewrite (extend_peek lx Hne),
      (extend_not_at_end lx (not_at_end_in_source lx Hne)).
    cbn [negb] in *. rewrite andb_true_r in *. now rewrite Ec.
Qed.

Lemma scan_string_loop_extend f : forall value lx r lx',
  scan_string_loop f value lx = Some (r, lx') ->
  is_at_end lx' = false ->
  forall f2, f <= f2 ->
    scan_string_loop f2 value (extend lx) = Some (r, extend lx').
Proof.
  induction f as [|f IH]; intros value lx r lx' H Hne; [discriminate H|].
  cbn [scan_string_loop] in H.
  intros [|f2] Hf; [lia|]. cbn [scan_string_loop].
  destruct (negb (Ascii.eqb (peek lx) QUOTE) && negb (is_at_end lx)) eqn:Ec.
  - apply andb_prop in Ec. destruct Ec as [Ep Ee].
    apply negb_true_iff in Ee.
    rewrite (extend_peek lx Ee), Ep,
      (extend_not_at_end lx (not_at_end_in_source lx Ee)).
    cbn [negb andb].
    destruct (Ascii.eqb (peek lx) LF).
    + change (mk (source (extend lx)) (tokens (extend lx))
                 (current (extend lx)) (line (extend lx) + 1) 1)
        with (extend (mk (source lx) (tokens lx) (current lx)
                         (line lx + 1) 1)).
      set (lx1 := mk (source lx) (tokens lx) (current lx) (line lx + 1) 1)
        in *.
      assert (Ee1 : is_at_end lx1 = false) by exact Ee.
      rewrite (extend_advance lx1 Ee1).
      destruct (advance lx1) as [ch lx2]. cbn [fst snd].
      apply (IH _ lx2 r lx' H Hne). lia.
    + rewrite (extend_advance lx Ee).
      destruct (advance lx) as [ch lx2]. cbn [fst snd].
      apply (IH _ lx2 r lx' H Hne). lia.
  - injection H as <- <-. rewrite Hne in Ec.
    rewrite (extend_peek lx Hne),
      (extend_not_at_end lx (not_at_end_in_source lx Hne)).
    cbn [negb] in *. rewrite andb_true_r in *. now rewrite Ec.
Qed.

Lemma scan_string_extend f lx v lx' :
  scan_string f lx = Ok v lx' ->
  in_source lx'
  /\ forall f2, f <= f2 -> scan_string f2 (extend lx) = Ok v (extend lx').
Proof.
  unfold scan_string. intros H.
  destruct (scan_string_loop f "" lx) as [[r lx1]|] eqn:El;
    [|discriminate H].
  destruct (is_at_end lx1) eqn:Ee; [discriminate H|].
  destruct (advance lx1) as [ch lx2] eqn:Ea.
  injection H as <- <-.
  assert (E2 : lx2 = snd (advance lx1)) by now rewrite Ea.
  split.
  { subst lx2. apply in_source_advance. now apply not_at_end_in_source. }
  intros f2 Hf.
  rewrite (scan_string_loop_extend f "" lx r lx1 El Ee f2 Hf).
  rewrite (extend_not_at_end lx1 (not_at_end_in_source lx1 Ee)).
  now rewrite (extend_advance lx1 Ee), Ea.
Qed.

(** A two-character operator ends with [=] or [>]. *)
Lemma double_char_second ch c2 :
  Ascii.eqb c2 "=" = false -> Ascii.eqb c2 ">" = false ->
  dict_get double_char_tokens (str1 ch ++ str1 c2) = None.
Proof.
  intros H1 H2. unfold double_char_tokens, dict_get, str1. simpl.
  rewrite H1, H2.
  destruct (Ascii.eqb ch ":"), (Ascii.eqb ch "<"), (Ascii.eqb ch ">");
    reflexivity.
Qed.

Lemma extend_double_char lx :
  is_at_end lx = false ->
  dict_get double_char_tokens
           (str1 (peek lx) ++ str1 (peek_next (extend lx)))
  = dict_get double_char_tokens (str1 (peek lx) ++ str1 (peek_next lx)).
Proof.
  intros Ee. pose proof Ee as Hr. apply is_at_end_false in Hr.
  unfold remaining in Hr. unfold peek_next.
  cbn [source current extend]. rewrite length_app. cbn [String.length].
  destruct (Nat.leb_spec (String.length (source lx)) (current lx + 1)).
  - destruct (Nat.leb_spec
                (String.length (source lx) + S (String.length body))
                (current lx + 1)); [lia|].
    assert (Hc : current lx + 1 = String.length (source lx)) by lia.
    unfold char_at. rewrite Hc, get_app_here.
    now rewrite !double_char_second.
  - destruct (Nat.leb_spec
                (String.length (source lx) + S (String.length body))
                (current lx + 1)); [lia|].
    unfold char_at. now rewrite <- append_correct1 by lia.
Qed.

(** A successful run on [s] is repeated on the extended source, up to the
    state in which the end of [s] is reached. *)
Lemma tokenize_loop_extend f : forall lx ts lx',
  in_source lx ->
  tokenize_loop f lx = Ok ts lx' ->
  exists lxq,
    lx' = add_token EOF "" lxq
    /\ is_at_end lxq = true /\ in_source lxq
    /\ forall k, exists f3,
         k < f3
         /\ tokenize_loop (f + k) (extend lx) = tokenize_loop f3 (extend lxq).
Proof.
  induction f as [|f IH]; intros lx ts lx' Hin H; [discriminate H|].
  cbn [tokenize_loop] in H. unfold tokenize_iteration in H.
  destruct (is_at_end lx) eqn:Ee; cbn [negb] in H.
  { injection H as _ <-. exists lx. repeat split; auto.
    intros k. exists (S f + k). split; [lia | reflexivity]. }
  cbv zeta in H.
  assert (Hstep : forall new,
             in_source new ->
             tokenize_loop f new = Ok ts lx' ->
             (forall k,
                tokenize_loop (S f + k) (extend lx)
                = tokenize_loop (f + k) (extend new)) ->
             exists lxq,
               lx' = add_token EOF "" lxq
               /\ is_at_end lxq = true /\ in_source lxq
               /\ forall k, exists f3,
                    k < f3
                    /\ tokenize_loop (S f + k) (extend lx)
                       = tokenize_loop f3 (extend lxq)).
  { intros new Hnew Hrun Heq.
    destruct (IH new ts lx' Hnew Hrun) as (lxq & E1 & E2 & E3 & E4).
    exists lxq. repeat split; auto.
    intros k. destruct (E4 k) as (f3 & Hf3 & E5).
    exists f3. split; [assumption|]. now rewrite Heq. }
  assert (Hunf : forall k,
             tokenize_loop (S f + k) (extend lx)
             = tokenize_iteration (f + k) (tokenize_loop (f + k))
                                  (extend lx)) by reflexivity.
  pose proof (extend_not_at_end lx Hin) as Ee'.
  pose proof (extend_peek lx Ee) as Ep.
  pose proof (extend_advance lx Ee) as Ea.
  pose proof (in_source_advance lx Hin) as Hin1.
  destruct (existsb (Ascii.eqb (peek lx)) [" "%char; TAB; CR]) eqn:C1.
  { apply (Hstep _ Hin1 H). intros k. rewrite Hunf.
    unfold tokenize_iteration. rewrite Ee', Ep, C1. cbn [negb].
    now rewrite Ea. }
  destruct (Ascii.eqb (peek lx) LF) eqn:C2.
  { apply (Hstep (snd (advance (add_token NEWLINE "\n" lx)))).
    - apply in_source_advance. exact Hin.
    - exact H.
    - intros k. rewrite Hunf.
      unfold tokenize_iteration. rewrite Ee', Ep, C1, C2. cbn [negb].
      change (add_token NEWLINE "\n" (extend lx))
        with (extend (add_token NEWLINE "\n" lx)).
      now rewrite (extend_advance (add_token NEWLINE "\n" lx) Ee). }
  destruct (Ascii.eqb (peek lx) "{") eqn:C3.
  { destruct (skip_comment_loop f (snd (advance lx))) as [lx2|] eqn:Es;
      [|discriminate H].
    destruct (is_at_end lx2) eqn:Ee2; [discriminate H|].
    apply (Hstep (snd (advance lx2))).
    - apply in_source_advance. now apply not_at_end_in_source.
    - exact H.
    - intros k. rewrite Hunf.
      unfold tokenize_iteration. rewrite Ee', Ep, C1, C2, C3. cbn [negb].
      rewrite Ea. cbn [snd].
      rewrite (skip_comment_loop_extend f _ lx2 Es Ee2 (f + k)) by lia.
      rewrite (extend_not_at_end lx2 (not_at_end_in_source lx2 Ee2)).
      now rewrite (extend_advance lx2 Ee2). }
  destruct (Ascii.eqb (peek lx) QUOTE) eqn:C4.
  { destruct (scan_string f (snd (advance lx))) as [v lx2|e lx2|] eqn:Es;
      try discriminate H.
    destruct (scan_string_extend f _ v lx2 Es) as [Hin2 Hext].
    apply (Hstep (add_token STRING v lx2)).
    - exact Hin2.
    - exact H.
    - intros k. rewrite Hunf.
      unfold tokenize_iteration. rewrite Ee', Ep, C1, C2, C3, C4.
      cbn [negb]. rewrite Ea. cbn [snd].
      now rewrite (Hext (f + k)) by lia. }
  destruct (isdigit (peek lx)) eqn:C5.
  { unfold scan_number in H.
    destruct (scan_number_loop f "" lx) as [[v lx1]|] eqn:Es;
      [|discriminate H].
    destruct (scan_number_loop_extend f "" lx v lx1 Hin Es) as [Hin2 Hext].
    apply (Hstep (add_token NUMBER v lx1)).
    - exact Hin2.
    - exact H.
    - intros k. rewrite Hunf.
      unfold tokenize_iteration, scan_number.
      rewrite Ee', Ep, C1, C2, C3, C4, C5. cbn [negb].
      now rewrite (Hext (f + k)) by lia. }
  destruct (isalpha (peek lx) || Ascii.eqb (peek lx) "_") eqn:C6.
  { unfold scan_identifier in H.
    destruct (scan_identifier_loop f "" lx) as [[v lx1]|] eqn:Es;
      [|discriminate H].
    destruct (scan_identifier_loop_extend f "" lx v lx1 Hin Es)
      as [Hin2 Hext].
    eapply (Hstep (add_token _ v lx1)).
    - exact Hin2.
    - exact H.
    - intros k. rewrite Hunf.
      unfold tokenize_iteration, scan_identifier.
      rewrite Ee', Ep, C1, C2, C3, C4, C5, C6. cbn [negb].
      now rewrite (Hext (f + k)) by lia. }
  destruct (dict_get double_char_tokens
                     (str1 (peek lx) ++ str1 (peek_next lx))) as [k2|] eqn:C7;
    pose proof (extend_double_char lx Ee) as Ed; rewrite C7 in Ed.
  { assert (Ee1 : is_at_end (snd (advance lx)) = false).
    { destruct (is_at_end (snd (advance lx))) eqn:E1; [|reflexivity].
      exfalso. unfold peek_next in C7.
      apply is_at_end_true in E1. rewrite advance_remaining in E1.
      unfold remaining in E1.
      destruct (Nat.leb_spec (String.length (source lx)) (current lx + 1));
        [|lia].
      unfold NUL in C7. rewrite double_char_second in C7 by reflexivity.
      discriminate C7. }
    apply (Hstep (add_token k2 (str1 (peek lx) ++ str1 (peek_next lx))
                            (snd (advance (snd (advance lx)))))).
    - now apply in_source_advance.
    - exact H.
    - intros k. rewrite Hunf.
      unfold tokenize_iteration.
      rewrite Ee', Ep, C1, C2, C3, C4, C5, C6, Ed. cbn [negb].
      rewrite Ea. cbn [snd].
      rewrite (extend_advance _ Ee1). cbn [snd].
      (* the value of the token is the operator itself *)
      assert (Etwo : forall s, dict_get double_char_tokens s = Some k2 ->
                               forall s', dict_get double_char_tokens s'
                                          = Some k2 -> s = s').
      { intros s Hs s' Hs'. unfold double_char_tokens, dict_get in Hs, Hs'.
        repeat match type of Hs with
               | (if String.eqb ?a ?b then _ else _) = _ =>
                   destruct (String.eqb_spec a b)
               end;
        repeat match type of Hs' with
               | (if String.eqb ?a ?b then _ else _) = _ =>
                   destruct (String.eqb_spec a b)
               end; congruence. }
      now rewrite (Etwo _ Ed _ C7). }
  destruct (dict_get single_char_tokens (str1 (peek lx))) as [k1|] eqn:C8.
  { apply (Hstep (add_token k1 (str1 (peek lx)) (snd (advance lx)))).
    - exact Hin1.
    - exact H.
    - intros k. rewrite Hunf.
      unfold tokenize_iteration.
      rewrite Ee', Ep, C1, C2, C3, C4, C5, C6, Ed, C8. cbn [negb].
      now rewrite Ea. }
  destruct (advance lx). discriminate H.
Qed.

End Extension.

End LexerLogic.

(* ===================================================================== *)
(** ** Parser *)
(* ===================================================================== *)

Module Parser.

Record Parser : Set := mk
  { tokens : list Token;
    current : nat }.

(** The end marker appended by the constructor. *)
Definition end_marker : Token := Token.mk EOF "$" (-1) (-1).

(** [Parser(tokens)] *)
Definition init (toks : list Token) : Parser :=
  mk (filter (fun t => negb (TokenType_eqb (Token.type t) NEWLINE)
                       && negb (TokenType_eqb (Token.type t) EOF)) toks
      ++ [end_marker])%list
     0.

(** Methods of the parser: functions of the parser state that return,
    raise [SyntaxError], or run out of fuel. *)
Definition M (A : Type) : Type := Parser -> outcome SyntaxError Parser A.

Definition ret {A : Type} (a : A) : M A := fun p => Ok a p.

Definition bind {A B : Type} (m : M A) (k : A -> M B) : M B :=
  fun p =>
    match m p with
    | Ok a p' => k a p'
    | Raise e p' => Raise e p'
    | OutOfFuel => OutOfFuel
    end.

Definition raise {A : Type} (e : SyntaxError) : M A := fun p => Raise e p.

Declare Scope parser_scope.
Delimit Scope parser_scope with parser.
Notation "x <- m ;; k" := (bind m (fun x => k))
  (at level 61, m at next level, right associativity) : parser_scope.
Notation "m ;;; k" := (bind m (fun _ => k))
  (at level 61, right associativity) : parser_scope.
Local Open Scope parser_scope.

(** [self.peek()] as a function of the state.  The constructor makes
    [tokens] non-empty; [end_marker] is the value of the model for an
    empty list, where Python would raise [IndexError]. *)
Definition peek_token (p : Parser) : Token :=
  if (current p <? List.length (tokens p))%nat
  then nth (current p) (tokens p) end_marker
  else last (tokens p) end_marker.

Definition peek : M Token := fun p => Ok (peek_token p) p.

(** The state after [self.advance()]: the guard [current < len - 1] is
    written [current + 1 < len] on naturals. *)
Definition advance_state (p : Parser) : Parser :=
  if (current p + 1 <? List.length (tokens p))%nat
  then mk (tokens p) (current p + 1)
  else p.

Definition advance : M Token :=
  fun p => Ok (peek_token p) (advance_state p).

Definition expect (token_type : TokenType) : M Token :=
  token <- peek ;;
  if negb (TokenType_eqb (Token.type token) token_type) then
    raise (SyntaxError.init
             ("Esperado '" ++ TokenType_value token_type
              ++ "', encontrado '" ++ TokenType_value (Token.type token)
              ++ "'")
             (Some token))
  else advance.

(** [TreeNode(symbol, token=tk)] *)
Definition leaf (symbol : string) (tk : Token) : TreeNode :=
  TreeNode.init symbol (Some tk).

(** [TreeNode(symbol)] *)
Definition node (symbol : string) : TreeNode :=
  TreeNode.init symbol None.

Notation add_child := TreeNode.add_child.

(** *** The procedures of the non-terminals

    Each body is written over the procedures it calls; the fixpoint below
    ties them together. *)
Section Bodies.

Variables parse_D parse_V parse_T parse_I parse_L parse_C parse_A
          parse_R parse_W parse_F parse_G parse_M parse_N parse_P
          parse_E parse_B parse_E_expr parse_E_term parse_E_factor
          : M TreeNode.
Variables parse_E_expr_loop parse_E_term_loop : TreeNode -> M TreeNode.

Definition parse_S_body : M TreeNode :=
  let node := node "S" in
  prog_token <- expect PROGRAM ;;
  let node := add_child node (leaf "program" prog_token) in
  id_token <- expect IDENTIFIER ;;
  let node := add_child node (leaf "id" id_token) in
  semi_token <- expect SEMICOLON ;;
  let node := add_child node (leaf ";" semi_token) in
  tk <- peek ;;
  node <- (if TokenType_eqb (Token.type tk) VAR
           then d <- parse_D ;; ret (add_child node d)
           else ret node) ;;
  begin_token <- expect BEGIN ;;
  let node := add_child node (leaf "begin" begin_token) in
  l <- parse_L ;;
  let node := add_child node l in
  end_token <- expect END ;;
  let node := add_child node (leaf "end" end_token) in
  dot_token <- expect DOT ;;
  let node := add_child node (leaf "." dot_token) in
  ret node.

Definition parse_D_body : M TreeNode :=
  let node := node "D" in
  var_token <- expect VAR ;;
  let node := add_child node (leaf "var" var_token) in
  v <- parse_V ;;
  let node := add_child node v in
  ret node.

Definition parse_V_body : M TreeNode :=
  let node := node "V" in
  i <- parse_I ;;
  let node := add_child node i in
  colon_token <- expect COLON ;;
  let node := add_child node (leaf ":" colon_token) in
  t <- parse_T ;;
  let node := add_child node t in
  semi_token <- expect SEMICOLON ;;
  let node := add_child node (leaf ";" semi_token) in
  tk <- peek ;;
  if TokenType_eqb (Token.type tk) IDENTIFIER
  then v <- parse_V ;; ret (add_child node v)
  else ret node.

Definition parse_T_body : M TreeNode :=
  token <- peek ;;
  if TokenType_eqb (Token.type token) INTEGER then
    advance ;;;
    ret (add_child (node "T") (leaf "integer" token))
  else if TokenType_eqb (Token.type token) BOOLEAN then
    advance ;;;
    ret (add_child (node "T") (leaf "boolean" token))
  else
    raise (SyntaxError.init "Esperado tipo (integer ou boolean)"
                            (Some token)).

Definition parse_I_body : M TreeNode :=
  let node := node "I" in
  id_token <- expect IDENTIFIER ;;
  let node := add_child node (leaf "id" id_token) in
  tk <- peek ;;
  if TokenType_eqb (Token.type tk) COMMA then
    comma_token <- advance ;;
    let node := add_child node (leaf "," comma_token) in
    i <- parse_I ;;
    ret (add_child node i)
  else ret node.

Definition parse_L_body : M TreeNode :=
  let node := node "L" in
  c <- parse_C ;;
  let node := add_child node c in
  tk <- peek ;;
  if TokenType_eqb (Token.type tk) SEMICOLON then
    semi_token <- advance ;;
    let node := add_child node (leaf ";" semi_token) in
    tk' <- peek ;;
    if negb (TokenType_in (Token.type tk') [END; EOF])
    then l <- parse_L ;; ret (add_child node l)
    else ret node
  else ret node.

Definition parse_C_body : M TreeNode :=
  let node := node "C" in
  token <- peek ;;
  if TokenType_eqb (Token.type token) IDENTIFIER then
    a <- parse_A ;; ret (add_child node a)
  else if TokenType_in (Token.type token) [READ; READLN] then
    r <- parse_R ;; ret (add_child node r)
  else if TokenType_in (Token.type token) [WRITE; WRITELN] then
    w <- parse_W ;; ret (add_child node w)
  else if TokenType_eqb (Token.type token) BEGIN then
    m <- parse_M ;; ret (add_child node m)
  else if TokenType_eqb (Token.type token) IF then
    n <- parse_N ;; ret (add_child node n)
  else if TokenType_eqb (Token.type token) WHILE then
    w <- parse_P ;; ret (add_child node w)
  else
    raise (SyntaxError.init ("Comando inv" ++ a_acute ++ "lido")
                            (Some token)).

Definition parse_A_body : M TreeNode :=
  let node := node "A" in
  id_token <- expect IDENTIFIER ;;
  let node := add_child node (leaf "id" id_token) in
  assign_token <- expect ASSIGN ;;
  let node := add_child node (leaf ":=" assign_token) in
  e <- parse_E ;;
  let node := add_child node e in
  ret node.

Definition parse_R_body : M TreeNode :=
  let node := node "R" in
  token <- peek ;;
  if TokenType_eqb (Token.type token) READ then
    read_token <- advance ;;
    let node := add_child node (leaf "read" read_token) in
    lparen_token <- expect LEFT_PAREN ;;
    let node := add_child node (leaf "(" lparen_token) in
    i <- parse_I ;;
    let node := add_child node i in
    rparen_token <- expect RIGHT_PAREN ;;
    let node := add_child node (leaf ")" rparen_token) in
    ret node
  else if TokenType_eqb (Token.type token) READLN then
    readln_token <- advance ;;
    let node := add_child node (leaf "readln" readln_token) in
    tk <- peek ;;
    if TokenType_eqb (Token.type tk) LEFT_PAREN then
      lparen_token <- advance ;;
      let node := add_child node (leaf "(" lparen_token) in
      i <- parse_I ;;
      let node := add_child node i in
      rparen_token <- expect RIGHT_PAREN ;;
      let node := add_child node (leaf ")" rparen_token) in
      ret node
    else ret node
  else ret node.

Definition parse_W_body : M TreeNode :=
  let node := node "W" in
  token <- peek ;;
  if TokenType_eqb (Token.type token) WRITE then
    write_token <- advance ;;
    let node := add_child node (leaf "write" write_token) in
    lparen_token <- expect LEFT_PAREN ;;
    let node := add_child node (leaf "(" lparen_token) in
    f <- parse_F ;;
    let node := add_child node f in
    rparen_token <- expect RIGHT_PAREN ;;
    let node := add_child node (leaf ")" rparen_token) in
    ret node
  else if TokenType_eqb (Token.type token) WRITELN then
    writeln_token <- advance ;;
    let node := add_child node (leaf "writeln" writeln_token) in
    tk <- peek ;;
    if TokenType_eqb (Token.type tk) LEFT_PAREN then
      lparen_token <- advance ;;
      let node := add_child node (leaf "(" lparen_token) in
      f <- parse_F ;;
      let node := add_child node f in
      rparen_token <- expect RIGHT_PAREN ;;
      let node := add_child node (leaf ")" rparen_token) in
      ret node
    else ret node
  else ret node.

Definition parse_F_body : M TreeNode :=
  let node := node "F" in
  g <- parse_G ;;
  let node := add_child node g in
  tk <- peek ;;
  if TokenType_eqb (Token.type tk) COMMA then
    comma_token <- advance ;;
    let node := add_child node (leaf "," comma_token) in
    f <- parse_F ;;
    ret (add_child node f)
  else ret node.

Definition parse_G_body : M TreeNode :=
  let node := node "G" in
  tk <- peek ;;
  if TokenType_eqb (Token.type tk) STRING then
    str_token <- advance ;;
    ret (add_child node (leaf "str" str_token))
  else
    e <- parse_E ;;
    ret (add_child node e).

Definition parse_M_body : M TreeNode :=
  let node := node "M" in
  begin_token <- expect BEGIN ;;
  let node := add_child node (leaf "begin" begin_token) in
  l <- parse_L ;;
  let node := add_child node l in
  end_token <- expect END ;;
  let node := add_child node (leaf "end" end_token) in
  ret node.

Definition parse_N_body : M TreeNode :=
  let node := node "N" in
  if_token <- expect IF ;;
  let node := add_child node (leaf "if" if_token) in
  b <- parse_B ;;
  let node := add_child node b in
  then_token <- expect THEN ;;
  let node := add_child node (leaf "then" then_token) in
  c <- parse_C ;;
  let node := add_child node c in
  tk <- peek ;;
  if TokenType_eqb (Token.type tk) ELSE then
    else_token <- advance ;;
    let node := add_child node (leaf "else" else_token) in
    c' <- parse_C ;;
    ret (add_child node c')
  else ret node.

Definition parse_P_body : M TreeNode :=
  let node := node "P" in
  while_token <- expect WHILE ;;
  let node := add_child node (leaf "while" while_token) in
  b <- parse_B ;;
  let node := add_child node b in
  do_token <- expect DO ;;
  let node := add_child node (leaf "do" do_token) in
  c <- parse_C ;;
  let node := add_child node c in
  ret node.

Definition parse_E_body : M TreeNode := parse_E_expr.

(** One test of the [while] of [parse_E_expr], with [left] as it stands. *)
Definition parse_E_expr_loop_body (left : TreeNode) : M TreeNode :=
  tk <- peek ;;
  if TokenType_in (Token.type tk) [PLUS; MINUS] then
    op_token <- advance ;;
    right <- parse_E_term ;;
    let op_node := node "E" in
    let op_node := add_child op_node left in
    let op_node :=
      add_child op_node
                (leaf (TokenType_value (Token.type op_token)) op_token) in
    let op_node := add_child op_node right in
    parse_E_expr_loop op_node
  else ret left.

Definition parse_E_expr_body : M TreeNode :=
  let node := node "E" in
  left <- parse_E_term ;;
  left <- parse_E_expr_loop left ;;
  ret (add_child node left).

(** One test of the [while] of [parse_E_term], with [left] as it stands. *)
Definition parse_E_term_loop_body (left : TreeNode) : M TreeNode :=
  tk <- peek ;;
  if TokenType_in (Token.type tk) [MULTIPLY; DIVIDE] then
    op_token <- advance ;;
    right <- parse_E_factor ;;
    let op_node := node "E" in
    let op_node := add_child op_node left in
    let op_node :=
      add_child op_node
                (leaf (TokenType_value (Token.type op_token)) op_token) in
    let op_node := add_child op_node right in
    parse_E_term_loop op_node
  else ret left.

Definition parse_E_term_body : M TreeNode :=
  left <- parse_E_factor ;;
  parse_E_term_loop left.

Definition parse_E_factor_body : M TreeNode :=
  token <- peek ;;
  if TokenType_eqb (Token.type token) MINUS then
    minus_token <- advance ;;
    let node := node "E" in
    let node := add_child node (leaf "-" minus_token) in
    f <- parse_E_factor ;;
    ret (add_child node f)
  else if TokenType_eqb (Token.type token) LEFT_PAREN then
    advance ;;;
    node <- parse_E_expr ;;
    expect RIGHT_PAREN ;;;
    ret node
  else if TokenType_eqb (Token.type token) IDENTIFIER then
    advance ;;;
    ret (leaf "id" token)
  else if TokenType_eqb (Token.type token) NUMBER then
    advance ;;;
    ret (leaf "num" token)
  else
    raise (SyntaxError.init ("Esperado express" ++ a_tilde ++ "o")
                            (Some token)).

Definition parse_B_body : M TreeNode :=
  let node := node "B" in
  left <- parse_E ;;
  token <- peek ;;
  if TokenType_in (Token.type token)
       [LESS_THAN; LESS_EQUAL; GREATER_THAN; GREATER_EQUAL;
        EQUAL; NOT_EQUAL]
  then
    op_token <- advance ;;
    right <- parse_E ;;
    let node := add_child node left in
    let node :=
      add_child node
                (leaf (TokenType_value (Token.type op_token)) op_token) in
    let node := add_child node right in
    ret node
  else
    ret (add_child node left).

End Bodies.

(** Every call and every loop test takes one unit of fuel. *)
Fixpoint parse_S (fuel : nat) (p : Parser)
    : outcome SyntaxError Parser TreeNode :=
  match fuel with
  | O => OutOfFuel
  | S f => parse_S_body (parse_D f) (parse_L f) p
  end
with parse_D (fuel : nat) (p : Parser)
    : outcome SyntaxError Parser TreeNode :=
  match fuel with
  | O => OutOfFuel
  | S f => parse_D_body (parse_V f) p
  end
with parse_V (fuel : nat) (p : Parser)
    : outcome SyntaxError Parser TreeNode :=
  match fuel with
  | O => OutOfFuel
  | S f => parse_V_body (parse_V f) (parse_T f) (parse_I f) p
  end
with parse_T (fuel : nat) (p : Parser)
    : outcome SyntaxError Parser TreeNode :=
  match fuel with
  | O => OutOfFuel
  | S f => parse_T_body p
  end
with parse_I (fuel : nat) (p : Parser)
    : outcome SyntaxError Parser TreeNode :=
  match fuel with
  | O => OutOfFuel
  | S f => parse_I_body (parse_I f) p
  end
with parse_L (fuel : nat) (p : Parser)
    : outcome SyntaxError Parser TreeNode :=
  match fuel with
  | O => OutOfFuel
  | S f => parse_L_body (parse_L f) (parse_C f) p
  end
with parse_C (fuel : nat) (p : Parser)
    : outcome SyntaxError Parser TreeNode :=
  match fuel with
  | O => OutOfFuel
  | S f =>
      parse_C_body (parse_A f) (parse_R f) (parse_W f) (parse_M f)
                   (parse_N f) (parse_P f) p
  end
with parse_A (fuel : nat) (p : Parser)
    : outcome SyntaxError Parser TreeNode :=
  match fuel with
  | O => OutOfFuel
  | S f => parse_A_body (parse_E f) p
  end
with parse_R (fuel : nat) (p : Parser)
    : outcome SyntaxError Parser TreeNode :=
  match fuel with
  | O => OutOfFuel
  | S f => parse_R_body (parse_I f) p
  end
with parse_W (fuel : nat) (p : Parser)
    : outcome SyntaxError Parser TreeNode :=
  match fuel with
  | O => OutOfFuel
  | S f => parse_W_body (parse_F f) p
  end
with parse_F (fuel : nat) (p : Parser)
    : outcome SyntaxError Parser TreeNode :=
  match fuel with
  | O => OutOfFuel
  | S f => parse_F_body (parse_F f) (parse_G f) p
  end
with parse_G (fuel : nat) (p : Parser)
    : outcome SyntaxError Parser TreeNode :=
  match fuel with
  | O => OutOfFuel
  | S f => parse_G_body (parse_E f) p
  end
with parse_M (fuel : nat) (p : Parser)
    : outcome SyntaxError Parser TreeNode :=
  match fuel with
  | O => OutOfFuel
  | S f => parse_M_body (parse_L f) p
  end
with parse_N (fuel : nat) (p : Parser)
    : outcome SyntaxError Parser TreeNode :=
  match fuel with
  | O => OutOfFuel
  | S f => parse_N_body (parse_C f) (parse_B f) p
  end
with parse_P (fuel : nat) (p : Parser)
    : outcome SyntaxError Parser TreeNode :=
  match fuel with
  | O => OutOfFuel
  | S f => parse_P_body (parse_C f) (parse_B f) p
  end
with parse_E (fuel : nat) (p : Parser)
    : outcome SyntaxError Parser TreeNode :=
  match fuel with
  | O => OutOfFuel
  | S f => parse_E_body (parse_E_expr f) p
  end
with parse_E_expr (fuel : nat) (p : Parser)
    : outcome SyntaxError Parser TreeNode :=
  match fuel with
  | O => OutOfFuel
  | S f => parse_E_expr_body (parse_E_term f) (parse_E_expr_loop f) p
  end
with parse_E_expr_loop (fuel : nat) (left : TreeNode) (p : Parser)
    : outcome SyntaxError Parser TreeNode :=
  match fuel with
  | O => OutOfFuel
  | S f =>
      parse_E_expr_loop_body (parse_E_term f) (parse_E_expr_loop f) left p
  end
with parse_E_term (fuel : nat) (p : Parser)
    : outcome SyntaxError Parser TreeNode :=
  match fuel with
  | O => OutOfFuel
  | S f => parse_E_term_body (parse_E_factor f) (parse_E_term_loop f) p
  end
with parse_E_term_loop (fuel : nat) (left : TreeNode) (p : Parser)
    : outcome SyntaxError Parser TreeNode :=
  match fuel with
  | O => OutOfFuel
  | S f =>
      parse_E_term_loop_body (parse_E_factor f) (parse_E_term_loop f) left p
  end
with parse_E_factor (fuel : nat) (p : Parser)
    : outcome SyntaxError Parser TreeNode :=
  match fuel with
  | O => OutOfFuel
  | S f => parse_E_factor_body (parse_E_expr f) (parse_E_factor f) p
  end
with parse_B (fuel : nat) (p : Parser)
    : outcome SyntaxError Parser TreeNode :=
  match fuel with
  | O => OutOfFuel
  | S f => parse_B_body (parse_E f) p
  end.

(** [parse] with an explicit amount of fuel. *)
Definition parse_fuel (fuel : nat) : M TreeNode :=
  tree <- parse_S fuel ;;
  tk <- peek ;;
  if negb (TokenType_eqb (Token.type tk) EOF) then
    raise (SyntaxError.init "Esperado fim do programa" (Some tk))
  else ret tree.

(** Fuel that covers every run on the tokens of [p]. *)
Definition fuel_for (p : Parser) : nat :=
  8 * S (List.length (tokens p)).

(** [parser.parse()] *)
Definition parse : M TreeNode :=
  fun p => parse_fuel (fuel_for p) p.

End Parser.
Notation Parser := Parser.Parser.

(** The pipeline of the front end, on a lexer instance:
    [tokens = lexer.tokenize(); Parser(tokens).parse()].  The lexer is
    returned in the state the call left it in. *)
Inductive analysis : Set :=
  | Parsed (toks : list Token) (tree : TreeNode)
  | LexFailed (e : LexicalError)
  | SyntaxFailed (toks : list Token) (e : SyntaxError)
  | Unfinished.

Definition run_lexer (lx : Lexer) : analysis * Lexer :=
  match Lexer.tokenize lx with
  | Ok toks lx' =>
      (match Parser.parse (Parser.init toks) with
       | Ok tree _ => Parsed toks tree
       | Raise e _ => SyntaxFailed toks e
       | OutOfFuel => Unfinished
       end, lx')
  | Raise e lx' => (LexFailed e, lx')
  | OutOfFuel => (Unfinished, lx)
  end.

(** [lexer = Lexer(source_code)] followed by the pipeline. *)
Definition analyse (source_code : string) : analysis :=
  fst (run_lexer (Lexer.init source_code)).

(* ===================================================================== *)
(** ** Reasoning about parser procedures *)
(* ===================================================================== *)

Module ParserLogic.
Import Parser.
Local Open Scope parser_scope.

(** [wp m p Q R F]: running [m] from [p] ends in a result satisfying [Q],
    in an exception satisfying [R], or without fuel when [F] holds. *)
Definition wp {A : Type} (m : M A) (p : Parser)
    (Q : A -> Parser -> Prop) (R : SyntaxError -> Parser -> Prop)
    (F : Prop) : Prop :=
  match m p with
  | Ok a p' => Q a p'
  | Raise e p' => R e p'
  | OutOfFuel => F
  end.

Lemma wp_ret {A} (a : A) p Q R F : Q a p -> wp (ret a) p Q R F.
Proof. exact (fun H => H). Qed.

Lemma wp_raise {A} e p (Q : A -> Parser -> Prop) R F :
  R e p -> wp (raise e) p Q R F.
Proof. exact (fun H => H). Qed.

Lemma wp_bind {A B} (m : M A) (k : A -> M B) p Q R F :
  wp m p (fun a p' => wp (k a) p' Q R F) R F -> wp (bind m k) p Q R F.
Proof. unfold wp, bind. destruct (m p); auto. Qed.

Lemma wp_conseq {A} (m : M A) p (Q Q' : A -> Parser -> Prop)
    (R R' : SyntaxError -> Parser -> Prop) (F F' : Prop) :
  wp m p Q' R' F' ->
  (forall a p', Q' a p' -> Q a p') ->
  (forall e p', R' e p' -> R e p') ->
  (F' -> F) ->
  wp m p Q R F.
Proof. unfold wp. destruct (m p); auto. Qed.

Lemma wp_bind_call {A B} (m : M A) (k : A -> M B) p
    (Q' : A -> Parser -> Prop) (R' : SyntaxError -> Parser -> Prop)
    (F' : Prop) Q R F :
  wp m p Q' R' F' ->
  (forall a p', Q' a p' -> wp (k a) p' Q R F) ->
  (forall e p', R' e p' -> R e p') ->
  (F' -> F) ->
  wp (bind m k) p Q R F.
Proof. intros H HQ HR HF. apply wp_bind. eapply wp_conseq; eauto. Qed.

Lemma wp_bind_assoc {A B C} (m : M A) (f : A -> M B) (k : B -> M C)
    p Q R F :
  wp (bind m (fun a => bind (f a) k)) p Q R F ->
  wp (bind (bind m f) k) p Q R F.
Proof. unfold wp, bind. destruct (m p); auto. Qed.

Lemma wp_bind_ret {A B} (a : A) (k : A -> M B) p Q R F :
  wp (k a) p Q R F -> wp (bind (ret a) k) p Q R F.
Proof. exact (fun H => H). Qed.

Lemma TokenType_eqb_eq a b : TokenType_eqb a b = true <-> a = b.
Proof.
  unfold TokenType_eqb. destruct (TokenType_eq_dec a b); split;
    congruence.
Qed.

Lemma TokenType_eqb_neq a b : TokenType_eqb a b = false <-> a <> b.
Proof.
  unfold TokenType_eqb. destruct (TokenType_eq_dec a b); split;
    congruence.
Qed.

Lemma TokenType_in_In t l : TokenType_in t l = true <-> In t l.
Proof.
  unfold TokenType_in. rewrite existsb_exists. split.
  - intros (x & Hx & E). apply TokenType_eqb_eq in E. now subst.
  - intros H. exists t. split; [assumption | now apply TokenType_eqb_eq].
Qed.

Lemma last_nth {A} (l : list A) d : last l d = nth (List.length l - 1) l d.
Proof.
  induction l as [|a [|b l] IH]; try reflexivity.
  change (last (a :: b :: l) d) with (last (b :: l) d). rewrite IH.
  simpl. now rewrite Nat.sub_0_r.
Qed.

(** *** More fuel does not change an outcome *)

(** [m'] agrees with [m] wherever [m] does not run out of fuel. *)
Definition extends {A : Type} (m m' : M A) : Prop :=
  forall p, m p <> OutOfFuel -> m' p = m p.

Lemma extends_refl {A} (m : M A) : extends m m.
Proof. intros p _. reflexivity. Qed.

Lemma extends_bind {A B} (m m' : M A) (k k' : A -> M B) :
  extends m m' -> (forall a, extends (k a) (k' a)) ->
  extends (bind m k) (bind m' k').
Proof.
  intros Hm Hk p H. unfold bind in *.
  destruct (m p) as [a p1|e p1|] eqn:E.
  - rewrite (Hm p), E by (rewrite E; discriminate). now apply Hk.
  - rewrite (Hm p), E by (rewrite E; discriminate). reflexivity.
  - now elim H.
Qed.

Ltac ext_tac :=
  cbv zeta;
  repeat first
    [ assumption
    | apply extends_refl
    | match goal with
      | H : forall l, extends (?m l) (?m' l) |- extends (?m _) (?m' _) =>
          apply H
      | |- extends (if ?b then _ else _) (if ?b then _ else _) => destruct b
      end
    | apply extends_bind; [|intros ?] ].

Lemma parse_S_body_ext pD pD' pL pL' :
  extends pD pD' ->
  extends pL pL' ->
  extends (parse_S_body pD pL) (parse_S_body pD' pL').
Proof. intros. unfold parse_S_body. ext_tac. Qed.

Lemma parse_D_body_ext pV pV' :
  extends pV pV' ->
  extends (parse_D_body pV) (parse_D_body pV').
Proof. intros. unfold parse_D_body. ext_tac. Qed.

Lemma parse_V_body_ext pV pV' pT pT' pI pI' :
  extends pV pV' ->
  extends pT pT' ->
  extends pI pI' ->
  extends (parse_V_body pV pT pI) (parse_V_body pV' pT' pI').
Proof. intros. unfold parse_V_body. ext_tac. Qed.

Lemma parse_T_body_ext :
  extends (parse_T_body) (parse_T_body).
Proof. intros. unfold parse_T_body. ext_tac. Qed.

Lemma parse_I_body_ext pI pI' :
  extends pI pI' ->
  extends (parse_I_body pI) (parse_I_body pI').
Proof. intros. unfold parse_I_body. ext_tac. Qed.

Lemma parse_L_body_ext pL pL' pC pC' :
  extends pL pL' ->
  extends pC pC' ->
  extends (parse_L_body pL pC) (parse_L_body pL' pC').
Proof. intros. unfold parse_L_body. ext_tac. Qed.

Lemma parse_C_body_ext pA pA' pR pR' pW pW' pM pM' pN pN' pP pP' :
  extends pA pA' ->
  extends pR pR' ->
  extends pW pW' ->
  extends pM pM' ->
  extends pN pN' ->
  extends pP pP' ->
  extends (parse_C_body pA pR pW pM pN pP) (parse_C_body pA' pR' pW' pM' pN' pP').
Proof. intros. unfold parse_C_body. ext_tac. Qed.

Lemma parse_A_body_ext pE pE' :
  extends pE pE' ->
  extends (parse_A_body pE) (parse_A_body pE').
Proof. intros. unfold parse_A_body. ext_tac. Qed.

Lemma parse_R_body_ext pI pI' :
  extends pI pI' ->
  extends (parse_R_body pI) (parse_R_body pI').
Proof. intros. unfold parse_R_body. ext_tac. Qed.

Lemma parse_W_body_ext pF pF' :
  extends pF pF' ->
  extends (parse_W_body pF) (parse_W_body pF').
Proof. intros. unfold parse_W_body. ext_tac. Qed.

Lemma parse_F_body_ext pF pF' pG pG' :
  extends pF pF' ->
  extends pG pG' ->
  extends (parse_F_body pF pG) (parse_F_body pF' pG').
Proof. intros. unfold parse_F_body. ext_tac. Qed.

Lemma parse_G_body_ext pE pE' :
  extends pE pE' ->
  extends (parse_G_body pE) (parse_G_body pE').
Proof. intros. unfold parse_G_body. ext_tac. Qed.

Lemma parse_M_body_ext pL pL' :
  extends pL pL' ->
  extends (parse_M_body pL) (parse_M_body pL').
Proof. intros. unfold parse_M_body. ext_tac. Qed.

Lemma parse_N_body_ext pC pC' pB pB' :
  extends pC pC' ->
  extends pB pB' ->
  extends (parse_N_body pC pB) (parse_N_body pC' pB').
Proof. intros. unfold parse_N_body. ext_tac. Qed.

Lemma parse_P_body_ext pC pC' pB pB' :
  extends pC pC' ->
  extends pB pB' ->
  extends (parse_P_body pC pB) (parse_P_body pC' pB').
Proof. intros. unfold parse_P_body. ext_tac. Qed.

Lemma parse_E_body_ext pE_expr pE_expr' :
  extends pE_expr pE_expr' ->
  extends (parse_E_body pE_expr) (parse_E_body pE_expr').
Proof. intros. unfold parse_E_body. ext_tac. Qed.

Lemma parse_E_expr_body_ext pE_term pE_term' pE_expr_loop pE_expr_loop' :
  extends pE_term pE_term' ->
  (forall l, extends (pE_expr_loop l) (pE_expr_loop' l)) ->
  extends (parse_E_expr_body pE_term pE_expr_loop) (parse_E_expr_body pE_term' pE_expr_loop').
Proof. intros. unfold parse_E_expr_body. ext_tac. Qed.

Lemma parse_E_term_body_ext pE_factor pE_factor' pE_term_loop pE_term_loop' :
  extends pE_factor pE_factor' ->
  (forall l, extends (pE_term_loop l) (pE_term_loop' l)) ->
  extends (parse_E_term_body pE_factor pE_term_loop) (parse_E_term_body pE_factor' pE_term_loop').
Proof. intros. unfold parse_E_term_body. ext_tac. Qed.

Lemma parse_E_factor_body_ext pE_expr pE_expr' pE_factor pE_factor' :
  extends pE_expr pE_expr' ->
  extends pE_factor pE_factor' ->
  extends (parse_E_factor_body pE_expr pE_factor) (parse_E_factor_body pE_expr' pE_factor').
Proof. intros. unfold parse_E_factor_body. ext_tac. Qed.

Lemma parse_B_body_ext pE pE' :
  extends pE pE' ->
  extends (parse_B_body pE) (parse_B_body pE').
Proof. intros. unfold parse_B_body. ext_tac. Qed.

Lemma parse_E_expr_loop_body_ext pE_term pE_term' pE_expr_loop pE_expr_loop' :
  extends pE_term pE_term' ->
  (forall l, extends (pE_expr_loop l) (pE_expr_loop' l)) ->
  forall l,
    extends (parse_E_expr_loop_body pE_term pE_expr_loop l)
            (parse_E_expr_loop_body pE_term' pE_expr_loop' l).
Proof. intros. unfold parse_E_expr_loop_body. ext_tac. Qed.

Lemma parse_E_term_loop_body_ext pE_factor pE_factor' pE_term_loop pE_term_loop' :
  extends pE_factor pE_factor' ->
  (forall l, extends (pE_term_loop l) (pE_term_loop' l)) ->
  forall l,
    extends (parse_E_term_loop_body pE_factor pE_term_loop l)
            (parse_E_term_loop_body pE_factor' pE_term_loop' l).
Proof. intros. unfold parse_E_term_loop_body. ext_tac. Qed.

Definition all_extend (f : nat) : Prop :=
  extends (parse_S f) (parse_S (S f))
  /\ extends (parse_D f) (parse_D (S f))
  /\ extends (parse_V f) (parse_V (S f))
  /\ extends (parse_T f) (parse_T (S f))
  /\ extends (parse_I f) (parse_I (S f))
  /\ extends (parse_L f) (parse_L (S f))
  /\ extends (parse_C f) (parse_C (S f))
  /\ extends (parse_A f) (parse_A (S f))
  /\ extends (parse_R f) (parse_R (S f))
  /\ extends (parse_W f) (parse_W (S f))
  /\ extends (parse_F f) (parse_F (S f))
  /\ extends (parse_G f) (parse_G (S f))
  /\ extends (parse_M f) (parse_M (S f))
  /\ extends (parse_N f) (parse_N (S f))
  /\ extends (parse_P f) (parse_P (S f))
  /\ extends (parse_E f) (parse_E (S f))
  /\ extends (parse_E_expr f) (parse_E_expr (S f))
  /\ (forall l, extends (parse_E_expr_loop f l) (parse_E_expr_loop (S f) l))
  /\ extends (parse_E_term f) (parse_E_term (S f))
  /\ (forall l, extends (parse_E_term_loop f l) (parse_E_term_loop (S f) l))
  /\ extends (parse_E_factor f) (parse_E_factor (S f))
  /\ extends (parse_B f) (parse_B (S f)).

Lemma parse_extends : forall f, all_extend f.
Proof.
  induction f as [|f IH].
  - unfold all_extend. repeat apply conj; intros; intros p H; now elim H.
  - destruct IH as
      (HS & HD & HV & HT & HI & HL & HC & HA & HR & HW & HF
       & HG & HM & HN & HP & HE & HE_expr & HE_expr_loop & HE_term & HE_term_loop & HE_factor & HB).
    unfold all_extend. repeat apply conj.
    + exact (parse_S_body_ext _ _ _ _ HD HL).
    + exact (parse_D_body_ext _ _ HV).
    + exact (parse_V_body_ext _ _ _ _ _ _ HV HT HI).
    + exact (parse_T_body_ext).
    + exact (parse_I_body_ext _ _ HI).
    + exact (parse_L_body_ext _ _ _ _ HL HC).
    + exact (parse_C_body_ext _ _ _ _ _ _ _ _ _ _ _ _ HA HR HW HM HN HP).
    + exact (parse_A_body_ext _ _ HE).
    + exact (parse_R_body_ext _ _ HI).
    + exact (parse_W_body_ext _ _ HF).
    + exact (parse_F_body_ext _ _ _ _ HF HG).
    + exact (parse_G_body_ext _ _ HE).
    + exact (parse_M_body_ext _ _ HL).
    + exact (parse_N_body_ext _ _ _ _ HC HB).
    + exact (parse_P_body_ext _ _ _ _ HC HB).
    + exact (parse_E_body_ext _ _ HE_expr).
    + exact (parse_E_expr_body_ext _ _ _ _ HE_term HE_expr_loop).
    + exact (parse_E_expr_loop_body_ext _ _ _ _ HE_term HE_expr_loop).
    + exact (parse_E_term_body_ext _ _ _ _ HE_factor HE_term_loop).
    + exact (parse_E_term_loop_body_ext _ _ _ _ HE_factor HE_term_loop).
    + exact (parse_E_factor_body_ext _ _ _ _ HE_expr HE_factor).
    + exact (parse_B_body_ext _ _ HE).
Qed.

Lemma parse_fuel_extends f : extends (parse_fuel f) (parse_fuel (S f)).
Proof.
  unfold parse_fuel. apply extends_bind; [|intros ?; apply extends_refl].
  apply (parse_extends f).
Qed.

Lemma parse_fuel_le f f' : f <= f' -> extends (parse_fuel f) (parse_fuel f').
Proof.
  induction 1 as [|f' Hle IH]; intros p H; [reflexivity|].
  rewrite <- (IH p H). apply parse_fuel_extends. now rewrite (IH p H).
Qed.

(** *** Runs over a fixed token list that ends with an EOF token *)
Section Runs.

Variable toks : list Token.
Hypothesis toks_eof : Token.type (last toks end_marker) = EOF.

Definition K : nat := 8.

Definition remaining (c : nat) : nat := List.length toks - 1 - c.

Lemma peek_at c :
  c < List.length toks ->
  nth_error toks c = Some (peek_token (mk toks c)).
Proof.
  intros Hc. unfold peek_token. simpl.
  destruct (Nat.ltb_spec c (List.length toks)); [|lia].
  now apply nth_error_nth'.
Qed.

Lemma advance_at c :
  c < List.length toks ->
  Token.type (peek_token (mk toks c)) <> EOF ->
  advance_state (mk toks c) = mk toks (S c) /\ S c < List.length toks.
Proof.
  intros Hc Hty. unfold advance_state. simpl.
  destruct (Nat.ltb_spec (c + 1) (List.length toks)) as [Hlt|Hge].
  - rewrite Nat.add_1_r. split; [reflexivity | lia].
  - exfalso. apply Hty. unfold peek_token. simpl.
    destruct (Nat.ltb_spec c (List.length toks)); [|lia].
    replace c with (List.length toks - 1) by lia.
    now rewrite <- last_nth.
Qed.

(** Every token carried by [t] sits below the cursor [c]. *)
Definition consumed (c : nat) (t : TreeNode) : Prop :=
  Forall (fun tk => exists i, i < c /\ nth_error toks i = Some tk)
         (TreeNode.tokens_of t).

Lemma tokens_of_add_child n ch :
  TreeNode.tokens_of (TreeNode.add_child n ch)
  = (TreeNode.tokens_of n ++ TreeNode.tokens_of ch)%list.
Proof.
  destruct n as [s tk l]. unfold TreeNode.add_child. simpl.
  rewrite <- app_assoc. f_equal.
  induction l as [|a l IH]; simpl.
  - now rewrite app_nil_r.
  - now rewrite IH, app_assoc.
Qed.

Lemma consumed_add_child c n ch :
  consumed c n -> consumed c ch -> consumed c (TreeNode.add_child n ch).
Proof.
  unfold consumed. rewrite tokens_of_add_child. intros.
  apply Forall_app. now split.
Qed.

Lemma consumed_node c s : consumed c (node s).
Proof. constructor. Qed.

Lemma consumed_leaf c i s tk :
  i < c -> nth_error toks i = Some tk -> consumed c (leaf s tk).
Proof.
  intros Hi Hn. unfold consumed, leaf. simpl.
  constructor; [|constructor]. now exists i.
Qed.

Lemma consumed_mono c c' t : c <= c' -> consumed c t -> consumed c' t.
Proof.
  intros Hle. unfold consumed. apply Forall_impl.
  intros tk (i & Hi & Hn). exists i. split; [lia | assumption].
Qed.

(** Result of a procedure started at cursor [c]: the token list is
    untouched, the cursor has moved forward (strictly when [strict]
    holds) and stays on a token, and the tree carries consumed tokens
    only. *)
Definition returned (strict : Prop) (c : nat) (t : TreeNode)
    (p' : Parser) : Prop :=
  exists c', p' = mk toks c' /\ c <= c' /\ (strict -> c < c')
             /\ c' < List.length toks /\ consumed c' t.

(** Exception of a procedure started at cursor [c]: it is built by
    [SyntaxError.init] from the token under the cursor. *)
Definition raised (c : nat) (e : SyntaxError) (p' : Parser) : Prop :=
  exists c' msg, p' = mk toks c' /\ c <= c' /\ c' < List.length toks
                 /\ e = SyntaxError.init msg (Some (peek_token p')).

(** Specification of a procedure that runs with [fuel]: [r] is the
    number of nested calls it may make before a token is consumed. *)
Definition proc_spec (g : Token -> bool) (r fuel : nat)
    (m : M TreeNode) : Prop :=
  forall c, c < List.length toks ->
    wp m (mk toks c)
       (returned (g (peek_token (mk toks c)) = true) c)
       (raised c)
       (fuel < r + K * remaining c).

Definition loop_spec (r fuel : nat) (m : TreeNode -> M TreeNode)
    : Prop :=
  forall left c, c < List.length toks -> consumed c left ->
    wp (m left) (mk toks c)
       (returned False c)
       (raised c)
       (fuel < r + K * remaining c).

Definition always (_ : Token) : bool := true.

Lemma wp_peek_at {B} (k : Token -> M B) c Q R F :
  wp (k (peek_token (mk toks c))) (mk toks c) Q R F ->
  wp (bind peek k) (mk toks c) Q R F.
Proof. exact (fun H => H). Qed.

Lemma wp_advance_at {B} (k : Token -> M B) c Q R F :
  c < List.length toks ->
  Token.type (peek_token (mk toks c)) <> EOF ->
  (S c < List.length toks ->
   nth_error toks c = Some (peek_token (mk toks c)) ->
   wp (k (peek_token (mk toks c))) (mk toks (S c)) Q R F) ->
  wp (bind advance k) (mk toks c) Q R F.
Proof.
  intros Hc Hty H. destruct (advance_at c Hc Hty) as [E Hlt].
  unfold wp, bind, advance. rewrite E. apply H; auto using peek_at.
Qed.

Lemma wp_expect_at {B} kd (k : Token -> M B) c Q R F :
  c < List.length toks ->
  kd <> EOF ->
  (Token.type (peek_token (mk toks c)) = kd ->
   S c < List.length toks ->
   nth_error toks c = Some (peek_token (mk toks c)) ->
   wp (k (peek_token (mk toks c))) (mk toks (S c)) Q R F) ->
  (forall msg,
     R (SyntaxError.init msg (Some (peek_token (mk toks c))))
       (mk toks c)) ->
  wp (bind (expect kd) k) (mk toks c) Q R F.
Proof.
  intros Hc Hkd Hok Herr. unfold expect. apply wp_bind_assoc.
  apply wp_peek_at.
  destruct (TokenType_eqb (Token.type (peek_token (mk toks c))) kd)
    eqn:E; simpl.
  - apply TokenType_eqb_eq in E. apply wp_advance_at; auto.
    congruence.
  - apply Herr.
Qed.

Lemma raised_here c msg :
  c < List.length toks ->
  raised c (SyntaxError.init msg (Some (peek_token (mk toks c))))
         (mk toks c).
Proof. intros. exists c, msg. auto. Qed.

Lemma raised_mono c0 c e p' : c0 <= c -> raised c e p' -> raised c0 e p'.
Proof.
  intros Hle (c' & msg & -> & H1 & H2 & H3). exists c', msg.
  repeat split; auto. lia.
Qed.

Lemma ne_eof_eqb t k :
  TokenType_eqb t k = true -> TokenType_eqb k EOF = false -> t <> EOF.
Proof.
  intros H1 H2 ->. apply TokenType_eqb_eq in H1. subst k.
  discriminate H2.
Qed.

Lemma ne_eof_in t l :
  TokenType_in t l = true -> TokenType_in EOF l = false -> t <> EOF.
Proof. intros H1 H2 ->. congruence. Qed.

Ltac ne_eof :=
  first [ discriminate
        | eapply ne_eof_eqb; [eassumption | reflexivity]
        | eapply ne_eof_in; [eassumption | reflexivity] ].

Ltac arith := unfold remaining, K in *; lia.

Ltac consumed_tac :=
  repeat first
    [ apply consumed_node
    | apply consumed_add_child
    | match goal with
      | H : nth_error toks ?i = Some ?tk |- consumed _ (leaf _ ?tk) =>
          apply (consumed_leaf _ i); [lia | exact H]
      | H : consumed ?c ?t |- consumed _ ?t =>
          apply (consumed_mono c); [lia | exact H]
      end ].

Ltac strict_tac :=
  let H := fresh "Hstrict" in
  intros H;
  first
    [ lia
    | exfalso; cbv beta delta [TokenType_in] in H; cbn [existsb] in H;
      repeat match goal with
             | E : TokenType_eqb _ _ = false |- _ => rewrite E in H
             end;
      discriminate H ].

Ltac returned_tac :=
  eexists; split; [reflexivity|];
  split; [lia|]; split; [strict_tac|];
  split; [lia | consumed_tac].

Ltac use_strict Hs :=
  try (let L := fresh "Hlt" in
       assert (L := Hs ltac:(first [reflexivity | eassumption])));
  clear Hs.

Ltac after_call :=
  [> let t := fresh "t" in
     let p' := fresh "p" in
     let c' := fresh "c" in
     let Hle := fresh "Hle" in
     let Hs := fresh "Hs" in
     let Hlt := fresh "Hlt" in
     let Hco := fresh "Hco" in
     intros t p' (c' & -> & Hle & Hs & Hlt & Hco);
     use_strict Hs; cbv beta zeta
   | let e := fresh "e" in
     let p' := fresh "p" in
     let Hr := fresh "Hr" in
     intros e p' Hr; (eapply raised_mono; [|exact Hr]); lia
   | arith ].

Ltac wp_step :=
  cbv beta zeta;
  lazymatch goal with
  | |- wp (bind peek _) (mk toks _) _ _ _ => apply wp_peek_at
  | |- wp (bind advance _) (mk toks _) _ _ _ =>
      apply wp_advance_at; [lia | ne_eof | intros ? ?]
  | |- wp (bind (expect _) _) (mk toks _) _ _ _ =>
      apply wp_expect_at;
      [ lia | discriminate | intros ? ? ?
      | intros ?; (eapply raised_mono; [|apply raised_here]); lia ]
  | |- wp (bind (bind _ _) _) _ _ _ _ => apply wp_bind_assoc
  | |- wp (bind (ret _) _) _ _ _ _ => apply wp_bind_ret
  | |- wp (bind (if ?b then _ else _) _) _ _ _ _ => destruct b eqn:?
  | |- wp (if negb ?b then _ else _) _ _ _ _ =>
      destruct b eqn:?; cbv beta iota delta [negb]
  | |- wp (if ?b then _ else _) _ _ _ _ => destruct b eqn:?
  | |- wp (ret _) _ _ _ _ => apply wp_ret; returned_tac
  | |- wp (raise _) _ _ _ _ =>
      apply wp_raise; (eapply raised_mono; [|apply raised_here]); lia
  | H : proc_spec _ _ _ ?m |- wp (bind ?m _) (mk toks ?c) _ _ _ =>
      eapply (wp_bind_call m _ _ _ _ _ _ _ _ (H c ltac:(lia)));
      after_call
  | H : loop_spec _ _ ?m |- wp (bind (?m ?l) _) (mk toks ?c) _ _ _ =>
      eapply (wp_bind_call (m l) _ _ _ _ _ _ _ _
                (H l c ltac:(lia) ltac:(consumed_tac)));
      after_call
  | H : proc_spec _ _ _ ?m |- wp ?m (mk toks ?c) _ _ _ =>
      eapply (wp_conseq m _ _ _ _ _ _ _ (H c ltac:(lia)));
      after_call; [returned_tac]
  | H : loop_spec _ _ ?m |- wp (?m ?l) (mk toks ?c) _ _ _ =>
      eapply (wp_conseq (m l) _ _ _ _ _ _ _
                (H l c ltac:(lia) ltac:(consumed_tac)));
      after_call; [returned_tac]
  end.

Ltac wp_run := intros c Hc; repeat wp_step.

Definition is_read (tk : Token) : bool :=
  TokenType_in (Token.type tk) [READ; READLN].

Definition is_write (tk : Token) : bool :=
  TokenType_in (Token.type tk) [WRITE; WRITELN].

Lemma parse_S_body_spec f pD pL :
  proc_spec always 1 f pD ->
  proc_spec always 3 f pL ->
  proc_spec always 1 (S f) (parse_S_body pD pL).
Proof. intros HD HL. unfold parse_S_body. wp_run. Qed.

Lemma parse_D_body_spec f pV :
  proc_spec always 2 f pV ->
  proc_spec always 1 (S f) (parse_D_body pV).
Proof. intros HV. unfold parse_D_body. wp_run. Qed.

Lemma parse_V_body_spec f pV pT pI :
  proc_spec always 2 f pV ->
  proc_spec always 1 f pT ->
  proc_spec always 1 f pI ->
  proc_spec always 2 (S f) (parse_V_body pV pT pI).
Proof. intros HV HT HI. unfold parse_V_body. wp_run. Qed.

Lemma parse_T_body_spec f :
  proc_spec always 1 (S f) parse_T_body.
Proof. unfold parse_T_body. wp_run. Qed.

Lemma parse_I_body_spec f pI :
  proc_spec always 1 f pI ->
  proc_spec always 1 (S f) (parse_I_body pI).
Proof. intros HI. unfold parse_I_body. wp_run. Qed.

Lemma parse_L_body_spec f pL pC :
  proc_spec always 3 f pL ->
  proc_spec always 2 f pC ->
  proc_spec always 3 (S f) (parse_L_body pL pC).
Proof. intros HL HC. unfold parse_L_body. wp_run. Qed.

Lemma parse_C_body_spec f pA pR pW pM pN pP :
  proc_spec always 1 f pA ->
  proc_spec is_read 1 f pR ->
  proc_spec is_write 1 f pW ->
  proc_spec always 1 f pM ->
  proc_spec always 1 f pN ->
  proc_spec always 1 f pP ->
  proc_spec always 2 (S f) (parse_C_body pA pR pW pM pN pP).
Proof.
  intros HA HR HW HM HN HP. unfold parse_C_body, is_read, is_write in *.
  wp_run.
Qed.

Lemma parse_A_body_spec f pE :
  proc_spec always 4 f pE ->
  proc_spec always 1 (S f) (parse_A_body pE).
Proof. intros HE. unfold parse_A_body. wp_run. Qed.

Lemma parse_R_body_spec f pI :
  proc_spec always 1 f pI ->
  proc_spec is_read 1 (S f) (parse_R_body pI).
Proof. intros HI. unfold parse_R_body, is_read. wp_run. Qed.

Lemma parse_W_body_spec f pF :
  proc_spec always 6 f pF ->
  proc_spec is_write 1 (S f) (parse_W_body pF).
Proof. intros HF. unfold parse_W_body, is_write. wp_run. Qed.

Lemma parse_F_body_spec f pF pG :
  proc_spec always 6 f pF ->
  proc_spec always 5 f pG ->
  proc_spec always 6 (S f) (parse_F_body pF pG).
Proof. intros HF HG. unfold parse_F_body. wp_run. Qed.

Lemma parse_G_body_spec f pE :
  proc_spec always 4 f pE ->
  proc_spec always 5 (S f) (parse_G_body pE).
Proof. intros HE. unfold parse_G_body. wp_run. Qed.

Lemma parse_M_body_spec f pL :
  proc_spec always 3 f pL ->
  proc_spec always 1 (S f) (parse_M_body pL).
Proof. intros HL. unfold parse_M_body. wp_run. Qed.

Lemma parse_N_body_spec f pC pB :
  proc_spec always 2 f pC ->
  proc_spec always 5 f pB ->
  proc_spec always 1 (S f) (parse_N_body pC pB).
Proof. intros HC HB. unfold parse_N_body. wp_run. Qed.

Lemma parse_P_body_spec f pC pB :
  proc_spec always 2 f pC ->
  proc_spec always 5 f pB ->
  proc_spec always 1 (S f) (parse_P_body pC pB).
Proof. intros HC HB. unfold parse_P_body. wp_run. Qed.

Lemma parse_E_body_spec f pEe :
  proc_spec always 3 f pEe ->
  proc_spec always 4 (S f) (parse_E_body pEe).
Proof. intros HEe. unfold parse_E_body. wp_run. Qed.

Lemma parse_E_expr_loop_body_spec f pEt pEl left :
  proc_spec always 2 f pEt ->
  loop_spec 1 f pEl ->
  forall c, c < List.length toks -> consumed c left ->
    wp (parse_E_expr_loop_body pEt pEl left) (mk toks c)
       (returned False c) (raised c) (S f < 1 + K * remaining c).
Proof.
  intros HEt HEl c Hc Hleft. unfold parse_E_expr_loop_body.
  repeat wp_step.
Qed.

Lemma parse_E_expr_body_spec f pEt pEl :
  proc_spec always 2 f pEt ->
  loop_spec 1 f pEl ->
  proc_spec always 3 (S f) (parse_E_expr_body pEt pEl).
Proof. intros HEt HEl. unfold parse_E_expr_body. wp_run. Qed.

Lemma parse_E_term_loop_body_spec f pEf pEl left :
  proc_spec always 1 f pEf ->
  loop_spec 1 f pEl ->
  forall c, c < List.length toks -> consumed c left ->
    wp (parse_E_term_loop_body pEf pEl left) (mk toks c)
       (returned False c) (raised c) (S f < 1 + K * remaining c).
Proof.
  intros HEf HEl c Hc Hleft. unfold parse_E_term_loop_body.
  repeat wp_step.
Qed.

Lemma parse_E_term_body_spec f pEf pEl :
  proc_spec always 1 f pEf ->
  loop_spec 1 f pEl ->
  proc_spec always 2 (S f) (parse_E_term_body pEf pEl).
Proof. intros HEf HEl. unfold parse_E_term_body. wp_run. Qed.

Lemma parse_E_factor_body_spec f pEe pEf :
  proc_spec always 3 f pEe ->
  proc_spec always 1 f pEf ->
  proc_spec always 1 (S f) (parse_E_factor_body pEe pEf).
Proof. intros HEe HEf. unfold parse_E_factor_body. wp_run. Qed.

Lemma parse_B_body_spec f pE :
  proc_spec always 4 f pE ->
  proc_spec always 5 (S f) (parse_B_body pE).
Proof. intros HE. unfold parse_B_body. wp_run. Qed.

(** All procedures meet their specification, for every amount of
    fuel. *)
Definition all_specs (fuel : nat) : Prop :=
  (proc_spec always 1 fuel (parse_S fuel)
   /\ proc_spec always 1 fuel (parse_D fuel)
   /\ proc_spec always 2 fuel (parse_V fuel)
   /\ proc_spec always 1 fuel (parse_T fuel)
   /\ proc_spec always 1 fuel (parse_I fuel)
   /\ proc_spec always 3 fuel (parse_L fuel)
   /\ proc_spec always 2 fuel (parse_C fuel))
  /\ (proc_spec always 1 fuel (parse_A fuel)
      /\ proc_spec is_read 1 fuel (parse_R fuel)
      /\ proc_spec is_write 1 fuel (parse_W fuel)
      /\ proc_spec always 6 fuel (parse_F fuel)
      /\ proc_spec always 5 fuel (parse_G fuel)
      /\ proc_spec always 1 fuel (parse_M fuel)
      /\ proc_spec always 1 fuel (parse_N fuel)
      /\ proc_spec always 1 fuel (parse_P fuel))
  /\ (proc_spec always 4 fuel (parse_E fuel)
      /\ proc_spec always 3 fuel (parse_E_expr fuel)
      /\ loop_spec 1 fuel (parse_E_expr_loop fuel)
      /\ proc_spec always 2 fuel (parse_E_term fuel)
      /\ loop_spec 1 fuel (parse_E_term_loop fuel)
      /\ proc_spec always 1 fuel (parse_E_factor fuel)
      /\ proc_spec always 5 fuel (parse_B fuel)).

Lemma parse_specs : forall fuel, all_specs fuel.
Proof.
  induction fuel as [|f IH].
  - unfold all_specs, proc_spec, loop_spec, wp; simpl.
    repeat split; intros; arith.
  - destruct IH as
      ((HS & HD & HV & HT & HI & HL & HC)
       & (HA & HR & HW & HF & HG & HM & HN & HP)
       & (HE & HEe & HEel & HEt & HEtl & HEf & HB)).
    split; [|split].
    + repeat split.
      * exact (parse_S_body_spec f _ _ HD HL).
      * exact (parse_D_body_spec f _ HV).
      * exact (parse_V_body_spec f _ _ _ HV HT HI).
      * exact (parse_T_body_spec f).
      * exact (parse_I_body_spec f _ HI).
      * exact (parse_L_body_spec f _ _ HL HC).
      * exact (parse_C_body_spec f _ _ _ _ _ _ HA HR HW HM HN HP).
    + repeat split.
      * exact (parse_A_body_spec f _ HE).
      * exact (parse_R_body_spec f _ HI).
      * exact (parse_W_body_spec f _ HF).
      * exact (parse_F_body_spec f _ _ HF HG).
      * exact (parse_G_body_spec f _ HE).
      * exact (parse_M_body_spec f _ HL).
      * exact (parse_N_body_spec f _ _ HC HB).
      * exact (parse_P_body_spec f _ _ HC HB).
    + repeat split.
      * exact (parse_E_body_spec f _ HEe).
      * exact (parse_E_expr_body_spec f _ _ HEt HEel).
      * intros left c Hc Hl.
        exact (parse_E_expr_loop_body_spec f _ _ left HEt HEel c Hc Hl).
      * exact (parse_E_term_body_spec f _ _ HEf HEtl).
      * intros left c Hc Hl.
        exact (parse_E_term_loop_body_spec f _ _ left HEf HEtl c Hc Hl).
      * exact (parse_E_factor_body_spec f _ _ HEe HEf).
      * exact (parse_B_body_spec f _ HE).
Qed.

Lemma parse_S_spec fuel : proc_spec always 1 fuel (parse_S fuel).
Proof. apply (parse_specs fuel). Qed.

Lemma parse_E_spec fuel : proc_spec always 4 fuel (parse_E fuel).
Proof. apply (parse_specs fuel). Qed.

(** The entry point: besides the facts of [parse_S], a returned tree
    leaves the cursor on an EOF token. *)
Lemma parse_fuel_spec fuel c :
  c < List.length toks ->
  wp (parse_fuel fuel) (mk toks c)
     (fun t p' => returned True c t p'
                  /\ Token.type (peek_token p') = EOF)
     (raised c)
     (fuel < 1 + K * remaining c).
Proof.
  intros Hc. unfold parse_fuel.
  eapply wp_bind_call; [apply (parse_S_spec fuel c Hc) | | auto | auto].
  intros t p' (c' & -> & Hle & Hs & Hlt & Hco).
  apply wp_peek_at.
  destruct (TokenType_eqb (Token.type (peek_token (mk toks c'))) EOF)
    eqn:E; simpl.
  - apply wp_ret. split.
    + exists c'. repeat split; auto.
    + now apply TokenType_eqb_eq.
  - apply wp_raise. eapply raised_mono; [|now apply raised_here]. lia.
Qed.

End Runs.

End ParserLogic.

(* ===================================================================== *)
(** ** The parser on the tokens handed to its constructor *)
(* ===================================================================== *)

Module ParserFacts.
Import Parser ParserLogic.

(** The tokens the constructor keeps. *)
Definition kept (t : Token) : bool :=
  negb (TokenType_eqb (Token.type t) NEWLINE)
  && negb (TokenType_eqb (Token.type t) EOF).

Lemma init_tokens ts : tokens (init ts) = (filter kept ts ++ [end_marker])%list.
Proof. reflexivity. Qed.

Lemma init_length ts :
  List.length (tokens (init ts)) = S (List.length (filter kept ts)).
Proof. rewrite init_tokens, length_app. simpl. lia. Qed.

Lemma init_last ts : last (tokens (init ts)) end_marker = end_marker.
Proof. rewrite init_tokens. apply last_last. Qed.

Lemma init_eof ts : Token.type (last (tokens (init ts)) end_marker) = EOF.
Proof. now rewrite init_last. Qed.

Lemma init_state ts : init ts = mk (tokens (init ts)) 0.
Proof. reflexivity. Qed.

Lemma kept_spec t :
  kept t = true <-> Token.type t <> NEWLINE /\ Token.type t <> EOF.
Proof.
  unfold kept. rewrite andb_true_iff, !negb_true_iff, !TokenType_eqb_neq.
  tauto.
Qed.

(** Below the end marker, the tokens are kept tokens of the input. *)
Lemma init_nth ts i tk :
  nth_error (tokens (init ts)) i = Some tk ->
  S i < List.length (tokens (init ts)) ->
  In tk ts /\ Token.type tk <> NEWLINE /\ Token.type tk <> EOF.
Proof.
  rewrite init_length, init_tokens. intros Hn Hi.
  rewrite nth_error_app1 in Hn by lia.
  apply nth_error_In, filter_In in Hn. destruct Hn as [Hin Hk].
  split; [assumption | now apply kept_spec].
Qed.

(** The cursor stands on an EOF token only at the end marker. *)
Lemma init_peek_eof ts c :
  c < List.length (tokens (init ts)) ->
  Token.type (peek_token (mk (tokens (init ts)) c)) = EOF ->
  S c = List.length (tokens (init ts)).
Proof.
  intros Hc Hty.
  destruct (Nat.eq_dec (S c) (List.length (tokens (init ts)))) as [|Hne];
    [assumption|].
  pose proof (peek_at (tokens (init ts)) c Hc) as Hn.
  apply init_nth in Hn; [|lia]. tauto.
Qed.

Lemma init_peek_end ts :
  peek_token (mk (tokens (init ts)) (List.length (filter kept ts)))
  = end_marker.
Proof.
  unfold peek_token. cbn [tokens current]. rewrite init_length.
  destruct (Nat.ltb_spec (List.length (filter kept ts))
                         (S (List.length (filter kept ts)))); [|lia].
  rewrite init_tokens, app_nth2 by (unfold ge; lia).
  now rewrite Nat.sub_diag.
Qed.

(** Outcome of [parse_fuel] on a freshly built parser. *)
Lemma parse_fuel_init ts fuel :
  wp (parse_fuel fuel) (init ts)
     (fun t p' =>
        tokens p' = tokens (init ts)
        /\ S (current p') = List.length (tokens p')
        /\ consumed (tokens (init ts)) (current p') t)
     (fun e p' =>
        tokens p' = tokens (init ts)
        /\ current p' < List.length (tokens p')
        /\ exists msg, e = SyntaxError.init msg (Some (peek_token p')))
     (fuel < 1 + K * (List.length (tokens (init ts)) - 1)).
Proof.
  rewrite init_state at 1.
  eapply wp_conseq.
  - apply (parse_fuel_spec (tokens (init ts)) (init_eof ts) fuel 0).
    rewrite init_length. lia.
  - intros t p' ((c' & -> & _ & _ & Hlt & Hco) & Hty). simpl.
    repeat split; auto. now apply init_peek_eof.
  - intros e p' (c' & msg & -> & _ & Hlt & ->). simpl.
    repeat split; auto. now exists msg.
  - unfold remaining. now rewrite Nat.sub_0_r.
Qed.

Lemma parse_init ts :
  wp parse (init ts)
     (fun t p' =>
        tokens p' = tokens (init ts)
        /\ S (current p') = List.length (tokens p')
        /\ consumed (tokens (init ts)) (current p') t)
     (fun e p' =>
        tokens p' = tokens (init ts)
        /\ current p' < List.length (tokens p')
        /\ exists msg, e = SyntaxError.init msg (Some (peek_token p')))
     False.
Proof.
  eapply wp_conseq; [apply (parse_fuel_init ts (fuel_for (init ts)))| | |];
    auto.
  unfold fuel_for, K. lia.
Qed.

(** Any fuel from [fuel_for] gives the outcome of [parse]. *)
Lemma parse_fuel_enough ts fuel :
  fuel_for (init ts) <= fuel ->
  parse_fuel fuel (init ts) = parse (init ts).
Proof.
  intros Hf. unfold parse. apply parse_fuel_le; [assumption|].
  pose proof (parse_init ts) as H. unfold wp, parse in H.
  intros E. now rewrite E in H.
Qed.

End ParserFacts.

(* ===================================================================== *)
(** ** Properties of the front end *)
(* ===================================================================== *)

(** *** Worked examples *)

Definition program_source : string :=
  "program p; var x:integer; begin x:=1 end.".

Definition tok (k : TokenType) (v : string) (l c : Z) : Token :=
  Token.mk k v l c.

Definition inner (s : string) (ch : list TreeNode) : TreeNode :=
  TreeNode.mk s None ch.

(** The declaration part of [program_source]. *)
Definition program_D : TreeNode :=
  inner "D"
    [ Parser.leaf "var" (tok VAR "var" 1 12);
      inner "V"
        [ inner "I" [ Parser.leaf "id" (tok IDENTIFIER "x" 1 16) ];
          Parser.leaf ":" (tok COLON ":" 1 17);
          inner "T" [ Parser.leaf "integer" (tok INTEGER "integer" 1 18) ];
          Parser.leaf ";" (tok SEMICOLON ";" 1 25) ] ].

Definition program_L : TreeNode :=
  inner "L"
    [ inner "C"
        [ inner "A"
            [ Parser.leaf "id" (tok IDENTIFIER "x" 1 33);
              Parser.leaf ":=" (tok ASSIGN ":=" 1 34);
              inner "E" [ Parser.leaf "num" (tok NUMBER "1" 1 36) ] ] ] ].

Definition program_tree : TreeNode :=
  inner "S"
    [ Parser.leaf "program" (tok PROGRAM "program" 1 1);
      Parser.leaf "id" (tok IDENTIFIER "p" 1 9);
      Parser.leaf ";" (tok SEMICOLON ";" 1 10);
      program_D;
      Parser.leaf "begin" (tok BEGIN "begin" 1 27);
      program_L;
      Parser.leaf "end" (tok END "end" 1 38);
      Parser.leaf "." (tok DOT "." 1 41) ].

Definition program_tokens : list Token :=
  [ tok PROGRAM "program" 1 1; tok IDENTIFIER "p" 1 9;
    tok SEMICOLON ";" 1 10; tok VAR "var" 1 12; tok IDENTIFIER "x" 1 16;
    tok COLON ":" 1 17; tok INTEGER "integer" 1 18;
    tok SEMICOLON ";" 1 25; tok BEGIN "begin" 1 27;
    tok IDENTIFIER "x" 1 33; tok ASSIGN ":=" 1 34; tok NUMBER "1" 1 36;
    tok END "end" 1 38; tok DOT "." 1 41; tok EOF "" 1 42 ].

(** C1. The program [program p; var x:integer; begin x:=1 end.] is lexed
    and parsed successfully; the tree is rooted at [S], its children are
    [program, id, ;, D, begin, L, end, .] in this order (terminals as
    leaves carrying their token, [D] and [L] as subtrees), and the [D]
    subtree holds exactly one [V] group, which declares [x]. *)
Theorem program_example_parses :
  analyse program_source = Parsed program_tokens program_tree
  /\ TreeNode.symbol program_tree = "S"
  /\ map (fun n => (TreeNode.symbol n,
                    option_map Token.value (TreeNode.token n),
                    List.length (TreeNode.children n)))
         (TreeNode.children program_tree)
     = [ ("program", Some "program", 0); ("id", Some "p", 0);
         (";", Some ";", 0); ("D", None, 2); ("begin", Some "begin", 0);
         ("L", None, 1); ("end", Some "end", 0); (".", Some ".", 0) ]
  /\ nth_error (TreeNode.children program_tree) 3 = Some program_D
  /\ TreeNode.count_symbol "V" program_D = 1
  /\ map Token.value (TreeNode.tokens_of program_D)
     = ["var"; "x"; ":"; "integer"; ";"].
Proof. repeat split; vm_compute; reflexivity. Qed.

Definition sum_source : string := "2 + 3 * 4".

Definition sum_tokens : list Token :=
  [ tok NUMBER "2" 1 1; tok PLUS "+" 1 3; tok NUMBER "3" 1 5;
    tok MULTIPLY "*" 1 7; tok NUMBER "4" 1 9; tok EOF "" 1 10 ].

(** The product [3 * 4]. *)
Definition sum_product : TreeNode :=
  inner "E"
    [ Parser.leaf "num" (tok NUMBER "3" 1 5);
      Parser.leaf "*" (tok MULTIPLY "*" 1 7);
      Parser.leaf "num" (tok NUMBER "4" 1 9) ].

(** The binary node of [2 + 3 * 4]. *)
Definition sum_top : TreeNode :=
  inner "E"
    [ Parser.leaf "num" (tok NUMBER "2" 1 1);
      Parser.leaf "+" (tok PLUS "+" 1 3);
      sum_product ].

(** C2. Parsing the tokens of [2 + 3 * 4] as an [E] gives the node made by
    [parse_E_expr] around one binary node: its operator is [+], its left
    child is [2] and its right child is the [*] node of [3] and [4]. *)
Theorem sum_example_precedence :
  (exists lx, Lexer.tokenize (Lexer.init sum_source) = Ok sum_tokens lx)
  /\ (exists p',
        Parser.parse_E (Parser.fuel_for (Parser.init sum_tokens))
                       (Parser.init sum_tokens)
        = Ok (inner "E" [sum_top]) p')
  /\ map TreeNode.symbol (TreeNode.children sum_top) = ["num"; "+"; "E"]
  /\ nth_error (TreeNode.children sum_top) 2 = Some sum_product
  /\ map (fun n => option_map Token.value (TreeNode.token n))
         (TreeNode.children sum_product)
     = [Some "3"; Some "*"; Some "4"].
Proof.
  split; [eexists; vm_compute; reflexivity|].
  split; [eexists; vm_compute; reflexivity|].
  repeat split.
Qed.

(** *** String literals and line counting *)

(** A literal that spans two lines, followed by an identifier. *)
Definition two_line_literal : string :=
  str1 QUOTE ++ "a" ++ str1 LF ++ "b" ++ str1 QUOTE ++ " x".

(** C3. On a literal that starts on line 1 and holds one line feed, the
    tokens that follow are given line 3: the loop of [scan_string] counts
    the line feed and [advance] counts it again. *)
Theorem string_line_feed_counted_twice :
  LexerLogic.count_LF ("a" ++ str1 LF ++ "b") = 1
  /\ exists lx,
       Lexer.tokenize (Lexer.init two_line_literal)
       = Ok [ tok STRING ("a" ++ str1 LF ++ "b") 3 0;
              tok IDENTIFIER "x" 3 4;
              tok EOF "" 3 5 ] lx.
Proof. split; [reflexivity|]. eexists. vm_compute. reflexivity. Qed.

(** In general the line counter moves by twice the number of line feeds
    of the literal. *)
Lemma scan_string_line_counter body rest lx fuel :
  LexerLogic.unread lx (body ++ String QUOTE rest) ->
  LexerLogic.no_quote body = true ->
  String.length body < fuel ->
  exists lx',
    Lexer.scan_string fuel lx = Ok body lx'
    /\ Lexer.line lx' = (Lexer.line lx + 2 * Z.of_nat (LexerLogic.count_LF body))%Z
    /\ LexerLogic.unread lx' rest.
Proof.
  intros Hun Hnq Hf.
  destruct (LexerLogic.scan_string_terminated body rest lx fuel Hun Hnq Hf)
    as [E Hun'].
  eexists. split; [exact E|]. split; [reflexivity | exact Hun'].
Qed.

(** When the main loop of [tokenize] stands on a double quote and no
    further double quote follows, the call raises [LexicalError] with the
    message "String não terminada" and the line and column the lexer has
    at the end of the source. *)
Lemma unterminated_string_at :
  forall (body : string) (lx : Lexer) (fuel : nat),
    LexerLogic.unread lx (String QUOTE body) ->
    LexerLogic.no_quote body = true ->
    String.length body + 2 <= fuel ->
    let lx_end :=
      LexerLogic.after_string_body body (LexerLogic.stepped QUOTE lx) in
    Lexer.tokenize_loop fuel lx
    = Raise (LexicalError.init ("String n" ++ a_tilde ++ "o terminada")
               (Lexer.line lx_end) (Lexer.column lx_end))
            lx_end
    /\ Lexer.is_at_end lx_end = true.
Proof.
  intros body lx fuel Hun Hnq Hf lx_end.
  destruct fuel as [|f]; [lia|].
  destruct (LexerLogic.unread_cons _ _ _ Hun) as [Ee _].
  destruct (LexerLogic.unread_advance _ _ _ Hun) as [Ea Hun1].
  destruct (LexerLogic.scan_string_unterminated
              body (LexerLogic.stepped QUOTE lx) f Hun1 Hnq)
    as [Es Hend]; [lia|].
  split; [|exact Hend].
  cbn [Lexer.tokenize_loop]. unfold Lexer.tokenize_iteration.
  rewrite Ee, (LexerLogic.unread_peek _ _ _ Hun). cbn [negb].
  change (existsb (Ascii.eqb QUOTE) [" "%char; TAB; CR]) with false.
  change (Ascii.eqb QUOTE LF) with false.
  change (Ascii.eqb QUOTE "{") with false.
  change (Ascii.eqb QUOTE QUOTE) with true.
  cbv iota. rewrite Ea. cbn [snd]. now rewrite Es.
Qed.

(** The error of an unterminated literal, in general.  Let [pre] be a
    text that [tokenize] accepts, the counters of the lexer standing at
    line [l] and column [c] after it, and let [body] hold no double quote.
    On [pre] followed by a double quote and [body], [tokenize] returns no
    tokens: it raises [LexicalError] with the message
    "String não terminada" and the counters of the lexer at the end of the
    input; the column is that of [body] read from column [c + 1], and the
    line is [l] plus twice the number of line feeds of [body]. *)
Theorem unterminated_string_raises :
  forall (pre body : string) (ts : list Token) (lxp : Lexer),
    Lexer.tokenize (Lexer.init pre) = Ok ts lxp ->
    LexerLogic.no_quote body = true ->
    exists lx_end,
      Lexer.tokenize (Lexer.init (pre ++ String QUOTE body))
      = Raise (LexicalError.init ("String n" ++ a_tilde ++ "o terminada")
                 (Lexer.line lx_end) (Lexer.column lx_end))
              lx_end
      /\ Lexer.is_at_end lx_end = true
      /\ Lexer.source lx_end = pre ++ String QUOTE body
      /\ Lexer.line lx_end
         = (Lexer.line lxp + 2 * Z.of_nat (LexerLogic.count_LF body))%Z
      /\ Lexer.column lx_end
         = LexerLogic.column_after body (Lexer.column lxp + 1).
Proof.
  intros pre body ts lxp Hpre Hnq.
  pose proof (LexerLogic.tokenize_finished (Lexer.init pre)) as Hfin.
  rewrite Hpre in Hfin. destruct Hfin as (Hsrc & _ & _).
  unfold Lexer.tokenize, Lexer.tokenize_fuel in Hpre.
  cbn [Lexer.source Lexer.init] in Hpre, Hsrc.
  assert (Hin0 : LexerLogic.in_source (Lexer.mk pre [] 0 1 1))
    by apply Nat.le_0_l.
  destruct (LexerLogic.tokenize_loop_extend
              QUOTE body eq_refl eq_refl eq_refl eq_refl _ _ ts lxp Hin0 Hpre)
    as (lxq & -> & Hend & Hin & Hext).
  destruct (Hext (S (String.length body))) as (f3 & Hf3 & E).
  assert (Hun : LexerLogic.unread (LexerLogic.extend QUOTE body lxq)
                                  (String QUOTE body)).
  { exists (Lexer.source lxq). split; [reflexivity|].
    apply LexerLogic.is_at_end_true in Hend.
    unfold LexerLogic.remaining, LexerLogic.in_source in *.
    cbn [Lexer.current LexerLogic.extend]. lia. }
  destruct (unterminated_string_at body (LexerLogic.extend QUOTE body lxq) f3
              Hun Hnq) as [Er Hend']; [lia|].
  eexists. split; [|split; [exact Hend'|]].
  - unfold Lexer.tokenize, Lexer.tokenize_fuel.
    cbn [Lexer.source Lexer.init]. rewrite LexerLogic.length_app.
    cbn [String.length].
    replace (String.length pre + S (String.length body) + 2)
      with (String.length pre + 2 + S (String.length body)) by lia.
    change (Lexer.mk (pre ++ String QUOTE body) [] 0 1 1)
      with (LexerLogic.extend QUOTE body (Lexer.mk pre [] 0 1 1)).
    rewrite E. exact Er.
  - cbn [Lexer.source Lexer.add_token] in Hsrc.
    split; [|split; reflexivity].
    unfold LexerLogic.after_string_body, LexerLogic.stepped,
      LexerLogic.extend.
    change (Ascii.eqb QUOTE LF) with false. cbv iota.
    cbn [Lexer.source]. now rewrite Hsrc.
Qed.

(** The text [x :=] followed by an unterminated literal. *)
Lemma unterminated_string_raises_witness :
  exists lx_end,
    Lexer.tokenize (Lexer.init ("x := " ++ String QUOTE "abc"))
    = Raise (LexicalError.init ("String n" ++ a_tilde ++ "o terminada")
               (Lexer.line lx_end) (Lexer.column lx_end))
            lx_end
    /\ Lexer.is_at_end lx_end = true
    /\ Lexer.source lx_end = "x := " ++ String QUOTE "abc"
    /\ Lexer.line lx_end
       = (1 + 2 * Z.of_nat (LexerLogic.count_LF "abc"))%Z
    /\ Lexer.column lx_end = LexerLogic.column_after "abc" (6 + 1).
Proof.
  apply (unterminated_string_raises
           "x := " "abc"
           [tok IDENTIFIER "x" 1 1; tok ASSIGN ":=" 1 3; tok EOF "" 1 6]
           (Lexer.mk "x := "
              [tok IDENTIFIER "x" 1 1; tok ASSIGN ":=" 1 3; tok EOF "" 1 6]
              5 1 6)).
  - vm_compute. reflexivity.
  - reflexivity.
Defined.

(** An unterminated literal that spans two lines, after [x :=]. *)
Definition unterminated_two_lines : string :=
  "x := " ++ str1 QUOTE ++ "ab" ++ str1 LF ++ "c".

(** C5. On the text [unterminated_two_lines], whose last character is on
    line 2, [tokenize] raises "String não terminada" and returns no token
    list, but the error carries line 3: the line feed inside the literal
    has been counted twice, so the position is not the one reached at the
    end of the input.  The column, 2, is the one reached. *)
Theorem unterminated_string_line_inflated :
  (exists lx_end,
      Lexer.tokenize (Lexer.init unterminated_two_lines)
      = Raise (LexicalError.init ("String n" ++ a_tilde ++ "o terminada")
                                 3 2)
              lx_end
      /\ Lexer.is_at_end lx_end = true)
  /\ (1 + Z.of_nat (LexerLogic.count_LF unterminated_two_lines) = 2)%Z
  /\ LexerLogic.column_after unterminated_two_lines 1 = 2%Z.
Proof.
  split; [|split; reflexivity].
  eexists. split; vm_compute; reflexivity.
Qed.

(** The example of the specification: the input made of a double quote
    followed by [abc]. *)
Example unterminated_abc :
  Lexer.tokenize (Lexer.init (String QUOTE "abc"))
  = Raise (LexicalError.init ("String n" ++ a_tilde ++ "o terminada") 1 5)
          (Lexer.mk (String QUOTE "abc") [] 4 1 5).
Proof. vm_compute. reflexivity. Qed.

(** *** Newline tokens *)

(** The value given to newline tokens: a backslash followed by [n]. *)
Definition backslash_n : string := String (chr 92) (String "n" EmptyString).

(** C6, as stated, fails on the source made of one line feed: the newline
    token does not carry the one-character string holding a line feed. *)
Lemma newline_token_value_counterexample :
  ~ (forall ts lx tk,
       Lexer.tokenize (Lexer.init (str1 LF)) = Ok ts lx ->
       In tk ts -> Token.type tk = NEWLINE -> Token.value tk = str1 LF).
Proof.
  intros H.
  specialize (H [tok NEWLINE backslash_n 1 (-1); tok EOF "" 2 1]
                (Lexer.mk (str1 LF)
                   [tok NEWLINE backslash_n 1 (-1); tok EOF "" 2 1] 1 2 1)
                (tok NEWLINE backslash_n 1 (-1))
                eq_refl (or_introl eq_refl) eq_refl).
  discriminate H.
Qed.

(** One iteration of the main loop on a line feed: exactly one token is
    added, of kind [NEWLINE] and value [backslash_n], stamped with the
    current line and with the current column minus two; the line feed is
    then read. *)
Lemma newline_iteration :
  forall (lx : Lexer) (fuel : nat),
    Lexer.is_at_end lx = false ->
    Lexer.peek lx = LF ->
    Lexer.tokenize_loop (S fuel) lx
    = Lexer.tokenize_loop fuel
        (Lexer.mk (Lexer.source lx)
           (Lexer.tokens lx
            ++ [Token.mk NEWLINE backslash_n (Lexer.line lx)
                         (Lexer.column lx - 2)])%list
           (Lexer.current lx + 1)
           (Lexer.line lx + 1) 1).
Proof.
  intros lx fuel Hend Hpeek.
  cbn [Lexer.tokenize_loop]. unfold Lexer.tokenize_iteration.
  rewrite Hend, Hpeek. cbn [negb].
  change (existsb (Ascii.eqb LF) [" "%char; TAB; CR]) with false.
  change (Ascii.eqb LF LF) with true. cbv iota.
  f_equal. unfold Lexer.advance, Lexer.add_token, Lexer.is_at_end in *.
  cbn [Lexer.source Lexer.tokens Lexer.current Lexer.line Lexer.column].
  rewrite Hend. cbn [negb snd].
  unfold Lexer.peek, Lexer.is_at_end in Hpeek. rewrite Hend in Hpeek.
  rewrite Hpeek. reflexivity.
Qed.

(** C6, amended. Let [pre] be a text that [tokenize] accepts, with tokens
    [ts] (the last one being EOF), ending on line [l] and column [c].  On
    [pre] followed by a line feed and any text [rest], the outcome of
    [tokenize] is the outcome of its main loop continued after the line
    feed with, as tokens so far, those of [pre] without the EOF followed
    by exactly one token: of kind [NEWLINE], stamped line [l] and column
    [c - 2], whose value is the two-character string [backslash_n]. *)
Theorem newline_token_emitted :
  forall (pre rest : string) (ts : list Token) (lxp : Lexer),
    Lexer.tokenize (Lexer.init pre) = Ok ts lxp ->
    String.length backslash_n = 2
    /\ exists fuel, forall fuel', fuel <= fuel' ->
         Lexer.tokenize_loop fuel'
           (Lexer.mk (pre ++ String LF rest)
              (removelast ts
               ++ [Token.mk NEWLINE backslash_n (Lexer.line lxp)
                            (Lexer.column lxp - 2)])%list
              (String.length pre + 1)
              (Lexer.line lxp + 1) 1)
         = Lexer.tokenize (Lexer.init (pre ++ String LF rest)).
Proof.
  intros pre rest ts lxp Hpre. split; [reflexivity|].
  pose proof (LexerLogic.tokenize_finished (Lexer.init pre)) as Hfin.
  rewrite Hpre in Hfin. destruct Hfin as (Hsrc & Hts & _).
  unfold Lexer.tokenize, Lexer.tokenize_fuel in Hpre.
  cbn [Lexer.source Lexer.init] in Hpre, Hsrc.
  assert (Hin0 : LexerLogic.in_source (Lexer.mk pre [] 0 1 1))
    by apply Nat.le_0_l.
  destruct (LexerLogic.tokenize_loop_extend
              LF rest eq_refl eq_refl eq_refl eq_refl _ _ ts lxp Hin0 Hpre)
    as (lxq & -> & Hend & Hin & Hext).
  destruct (Hext (S (String.length rest))) as (f3 & Hf3 & E).
  destruct f3 as [|f3]; [lia|].
  rewrite newline_iteration in E.
  2: { now apply LexerLogic.extend_not_at_end. }
  2: { now apply LexerLogic.extend_peek_end. }
  assert (Hfull : Lexer.tokenize (Lexer.init (pre ++ String LF rest))
                  = Lexer.tokenize_loop
                      (String.length pre + 2 + S (String.length rest))
                      (LexerLogic.extend LF rest (Lexer.mk pre [] 0 1 1))).
  { unfold Lexer.tokenize, Lexer.tokenize_fuel.
    cbn [Lexer.source Lexer.init]. rewrite LexerLogic.length_app.
    cbn [String.length]. f_equal. lia. }
  assert (Hcur : Lexer.current lxq = String.length pre).
  { apply LexerLogic.is_at_end_true in Hend.
    cbn [Lexer.source Lexer.add_token] in Hsrc.
    unfold LexerLogic.remaining, LexerLogic.in_source in *.
    rewrite Hsrc in *. lia. }
  cbn [Lexer.source Lexer.tokens Lexer.line Lexer.column
       Lexer.add_token] in Hsrc, Hts |- *.
  rewrite Hts, removelast_last.
  rewrite <- Hfull in E.
  match type of E with
  | _ = Lexer.tokenize_loop _ ?st => set (ST := st) in *
  end.
  assert (Est : Lexer.mk (pre ++ String LF rest)
                  (Lexer.tokens lxq
                   ++ [Token.mk NEWLINE backslash_n (Lexer.line lxq)
                                (Lexer.column lxq - 2)])%list
                  (String.length pre + 1) (Lexer.line lxq + 1) 1
                = ST).
  { unfold ST, LexerLogic.extend.
    cbn [Lexer.source Lexer.tokens Lexer.current Lexer.line Lexer.column].
    now rewrite Hsrc, Hcur. }
  rewrite Est.
  exists f3. intros fuel' Hf. rewrite E.
  apply LexerLogic.tokenize_loop_le; [assumption|].
  rewrite <- E.
  pose proof (LexerLogic.tokenize_finished
                (Lexer.init (pre ++ String LF rest))) as H.
  intros E'. now rewrite E' in H.
Qed.

(** The text [x] followed by a line feed and [y]. *)
Lemma newline_token_emitted_witness :
  String.length backslash_n = 2
  /\ exists fuel, forall fuel', fuel <= fuel' ->
       Lexer.tokenize_loop fuel'
         (Lexer.mk ("x" ++ String LF "y")
            [tok IDENTIFIER "x" 1 1; tok NEWLINE backslash_n 1 0] 2 2 1)
       = Lexer.tokenize (Lexer.init ("x" ++ String LF "y")).
Proof.
  apply (newline_token_emitted
           "x" "y" [tok IDENTIFIER "x" 1 1; tok EOF "" 1 2]
           (Lexer.mk "x" [tok IDENTIFIER "x" 1 1; tok EOF "" 1 2] 1 1 2)).
  vm_compute. reflexivity.
Defined.

(** *** The [expect] primitive *)

(** C4. On the parser built from any token list, at any cursor, [expect]
    either finds the expected kind under the cursor, returns that token and
    advances, or leaves the parser as it is and raises a [SyntaxError]
    whose message names the expected and the found kind and which carries
    the found token, so that its text reports the kind and line of the
    found token (the value travels with the token). *)
Theorem expect_returns_or_raises :
  forall (ts : list Token) (c : nat) (kd : TokenType),
    let p := Parser.mk (Parser.tokens (Parser.init ts)) c in
    let found := Parser.peek_token p in
    (Token.type found = kd
     /\ Parser.expect kd p = Ok found (Parser.advance_state p))
    \/ (Token.type found <> kd
        /\ exists e,
             Parser.expect kd p = Raise e p
             /\ SyntaxError.message e
                = "Esperado '" ++ TokenType_value kd ++ "', encontrado '"
                  ++ TokenType_value (Token.type found) ++ "'"
             /\ SyntaxError.token e = Some found
             /\ SyntaxError.text e
                = "Erro sint" ++ a_acute ++ "tico: " ++ SyntaxError.message e
                  ++ " (Token: " ++ TokenType_value (Token.type found)
                  ++ ", Linha: " ++ str_of_Z (Token.line found) ++ ")").
Proof.
  intros ts c kd p found.
  unfold Parser.expect, Parser.bind, Parser.peek, Parser.advance,
    Parser.raise.
  fold found.
  destruct (TokenType_eqb (Token.type found) kd) eqn:E; cbn [negb].
  - left. apply ParserLogic.TokenType_eqb_eq in E. now split.
  - right. apply ParserLogic.TokenType_eqb_neq in E. split; [assumption|].
    eexists. split; [reflexivity|]. repeat split.
Qed.

(** *** Leaves of the syntax tree *)

(** C7. When [parse] returns a tree, every token carried by a node of the
    tree is a token of the list given to the constructor, of a kind other
    than NEWLINE and EOF, and stands in the parser's token list at a
    position the cursor has passed. *)
Theorem parse_leaves_are_input_tokens :
  forall (ts : list Token) (tree : TreeNode) (p' : Parser),
    Parser.parse (Parser.init ts) = Ok tree p' ->
    Forall (fun tk =>
              In tk ts
              /\ Token.type tk <> NEWLINE /\ Token.type tk <> EOF
              /\ exists i, i < Parser.current p'
                           /\ nth_error (Parser.tokens p') i = Some tk)
           (TreeNode.tokens_of tree).
Proof.
  intros ts tree p' Hp.
  pose proof (ParserFacts.parse_init ts) as H.
  unfold ParserLogic.wp in H. rewrite Hp in H.
  destruct H as (Htoks & Hcur & Hco).
  eapply Forall_impl; [|exact Hco].
  intros tk (i & Hi & Hn). cbv beta.
  assert (Hin : In tk ts /\ Token.type tk <> NEWLINE
                /\ Token.type tk <> EOF).
  { apply (ParserFacts.init_nth ts i tk Hn). rewrite <- Htoks. lia. }
  destruct Hin as (H1 & H2 & H3). repeat split; auto.
  exists i. split; [assumption | now rewrite Htoks].
Qed.

Lemma parse_leaves_are_input_tokens_witness :
  Forall (fun tk =>
            In tk program_tokens
            /\ Token.type tk <> NEWLINE /\ Token.type tk <> EOF
            /\ exists i, i < 14
                         /\ nth_error
                              (Parser.tokens (Parser.init program_tokens)) i
                            = Some tk)
         (TreeNode.tokens_of program_tree).
Proof.
  apply (parse_leaves_are_input_tokens
           program_tokens program_tree
           (Parser.mk (Parser.tokens (Parser.init program_tokens)) 14)).
  vm_compute. reflexivity.
Defined.

(** *** Determinism *)

(** C8. The outcome of [tokenize] depends on the source of the lexer only,
    not on what an earlier call left in [tokens], [current], [line] and
    [column]: a second call on the same instance returns the same tokens
    (or raises the same error) and leaves the same state, and the whole
    pipeline run again on that instance gives the same tokens and the same
    tree as the pipeline on a fresh lexer for the same source. *)
Theorem analysis_deterministic :
  forall lx : Lexer,
    Lexer.tokenize lx = Lexer.tokenize (Lexer.init (Lexer.source lx))
    /\ match Lexer.tokenize lx with
       | Ok ts lx' => Lexer.tokenize lx' = Ok ts lx'
       | Raise e lx' => Lexer.tokenize lx' = Raise e lx'
       | OutOfFuel => False
       end
    /\ fst (run_lexer (snd (run_lexer lx))) = fst (run_lexer lx)
    /\ fst (run_lexer lx) = analyse (Lexer.source lx).
Proof.
  intros lx.
  assert (Hsrc : forall a b, Lexer.source a = Lexer.source b ->
                             Lexer.tokenize a = Lexer.tokenize b).
  { intros a b E. unfold Lexer.tokenize, Lexer.tokenize_fuel. now rewrite E. }
  pose proof (LexerLogic.tokenize_finished lx) as Hfin.
  split; [apply Hsrc; reflexivity|].
  split.
  - destruct (Lexer.tokenize lx) as [ts lx'|e lx'|] eqn:E; simpl in Hfin.
    + destruct Hfin as (Hs & _). rewrite (Hsrc lx' lx Hs). exact E.
    + rewrite (Hsrc lx' lx Hfin). exact E.
    + exact Hfin.
  - split.
    + unfold run_lexer at 2 3.
      destruct (Lexer.tokenize lx) as [ts lx'|e lx'|] eqn:E; simpl in Hfin.
      * destruct Hfin as (Hs & _). cbn [snd fst]. unfold run_lexer.
        rewrite (Hsrc lx' lx Hs), E. reflexivity.
      * cbn [snd fst]. unfold run_lexer.
        rewrite (Hsrc lx' lx Hfin), E. reflexivity.
      * contradiction.
    + unfold analyse, run_lexer.
      rewrite <- (Hsrc lx (Lexer.init (Lexer.source lx)) eq_refl).
      now destruct (Lexer.tokenize lx).
Qed.

(** *** The end marker in diagnostics *)

(** C10. The constructor keeps the tokens other than NEWLINE and EOF and
    appends the end marker [Token(EOF, "$", -1, -1)].  With the cursor on
    the end marker, [expect] of any kind of terminal raises a [SyntaxError]
    that carries the end marker; and whenever [parse] raises with the
    cursor on the end marker, the error carries the end marker and its text
    ends with [(Token: EOF, Linha: -1)]. *)
Theorem end_marker_reported :
  forall ts : list Token,
    Parser.tokens (Parser.init ts)
    = (filter ParserFacts.kept ts ++ [Token.mk EOF "$" (-1) (-1)])%list
    /\ Parser.current (Parser.init ts) = 0
    /\ (forall kd : TokenType,
          kd <> EOF ->
          let p := Parser.mk (Parser.tokens (Parser.init ts))
                             (List.length (filter ParserFacts.kept ts)) in
          Parser.expect kd p
          = Raise (SyntaxError.init
                     ("Esperado '" ++ TokenType_value kd
                      ++ "', encontrado 'EOF'")
                     (Some (Token.mk EOF "$" (-1) (-1))))
                  p)
    /\ (forall (e : SyntaxError) (p' : Parser),
          Parser.parse (Parser.init ts) = Raise e p' ->
          S (Parser.current p') = List.length (Parser.tokens p') ->
          SyntaxError.token e = Some (Token.mk EOF "$" (-1) (-1))
          /\ SyntaxError.text e
             = "Erro sint" ++ a_acute ++ "tico: " ++ SyntaxError.message e
               ++ " (Token: EOF, Linha: -1)").
Proof.
  intros ts. split; [reflexivity|]. split; [reflexivity|]. split.
  - intros kd Hkd p.
    unfold Parser.expect, Parser.bind, Parser.peek, Parser.raise.
    unfold p. rewrite ParserFacts.init_peek_end.
    destruct (TokenType_eqb (Token.type Parser.end_marker) kd) eqn:E.
    + apply ParserLogic.TokenType_eqb_eq in E. simpl in E. congruence.
    + reflexivity.
  - intros e p' Hp Hcur.
    pose proof (ParserFacts.parse_init ts) as H.
    unfold ParserLogic.wp in H. rewrite Hp in H.
    destruct H as (Htoks & _ & msg & ->).
    destruct p' as [toks c].
    cbn [Parser.tokens Parser.current] in Htoks, Hcur. subst toks.
    rewrite ParserFacts.init_length in Hcur. injection Hcur as ->.
    rewrite ParserFacts.init_peek_end. split; reflexivity.
Qed.

(** The tokens of [program p]: the semicolon is missing. *)
Definition truncated_tokens : list Token :=
  [ tok PROGRAM "program" 1 1; tok IDENTIFIER "p" 1 9; tok EOF "" 1 10 ].

Lemma end_marker_reported_witness :
  let e := SyntaxError.init "Esperado ';', encontrado 'EOF'"
                            (Some Parser.end_marker) in
  SyntaxError.token e = Some (Token.mk EOF "$" (-1) (-1))
  /\ SyntaxError.text e
     = "Erro sint" ++ a_acute ++ "tico: " ++ SyntaxError.message e
       ++ " (Token: EOF, Linha: -1)".
Proof.
  intros e.
  apply (proj2 (proj2 (proj2 (end_marker_reported truncated_tokens))) e
           (Parser.mk (Parser.tokens (Parser.init truncated_tokens)) 2)).
  - vm_compute. reflexivity.
  - reflexivity.
Defined.

(** *** Termination *)

(** A procedure run with [fuel] from a cursor on a token: a returned tree
    comes with a cursor that has moved forward and still stands on a token;
    an exception leaves the cursor on a token, not behind its start; the
    fuel can only run out when it is below [r] plus eight units for each
    token that is left before the end marker. *)
Definition advances (toks : list Token) (r fuel : nat)
    (m : Parser.M TreeNode) : Prop :=
  forall c, c < List.length toks ->
    match m (Parser.mk toks c) with
    | Ok _ p' =>
        Parser.tokens p' = toks
        /\ c < Parser.current p' < List.length toks
    | Raise _ p' =>
        Parser.tokens p' = toks
        /\ c <= Parser.current p' < List.length toks
    | OutOfFuel => fuel < r + 8 * (List.length toks - 1 - c)
    end.

Lemma proc_spec_advances toks r fuel m :
  ParserLogic.proc_spec toks ParserLogic.always r fuel m ->
  advances toks r fuel m.
Proof.
  intros H c Hc. specialize (H c Hc). unfold ParserLogic.wp in H.
  destruct (m (Parser.mk toks c)) as [t p'|e p'|].
  - destruct H as (c' & -> & _ & Hs & Hlt & _). simpl.
    specialize (Hs eq_refl). repeat split; auto.
  - destruct H as (c' & msg & -> & Hle & Hlt & _). simpl.
    repeat split; auto.
  - exact H.
Qed.

(** C9. [tokenize] always ends, with the cursor at the end of the source
    when it returns, and any fuel from the length of the source plus two
    gives its outcome.  [parse] always ends: a returned tree leaves the
    cursor on the end marker, all tokens before it consumed; an exception
    leaves it on a token; any fuel from eight times the number of tokens
    plus eight gives its outcome.  [advance] moves the cursor by at most
    one and never past the last token, and every procedure of the descent
    that returns has moved the cursor forward. *)
Theorem analysis_terminates :
  (forall lx : Lexer,
     match Lexer.tokenize lx with
     | Ok ts lx' =>
         Lexer.source lx' = Lexer.source lx /\ Lexer.is_at_end lx' = true
     | Raise _ lx' => Lexer.source lx' = Lexer.source lx
     | OutOfFuel => False
     end)
  /\ (forall (lx : Lexer) (fuel : nat),
        String.length (Lexer.source lx) + 2 <= fuel ->
        Lexer.tokenize_fuel fuel lx = Lexer.tokenize lx)
  /\ (forall ts : list Token,
        match Parser.parse (Parser.init ts) with
        | Ok _ p' =>
            Parser.tokens p' = Parser.tokens (Parser.init ts)
            /\ S (Parser.current p') = List.length (Parser.tokens p')
        | Raise _ p' =>
            Parser.tokens p' = Parser.tokens (Parser.init ts)
            /\ Parser.current p' < List.length (Parser.tokens p')
        | OutOfFuel => False
        end)
  /\ (forall (ts : list Token) (fuel : nat),
        8 * List.length (Parser.tokens (Parser.init ts)) + 8 <= fuel ->
        Parser.parse_fuel fuel (Parser.init ts)
        = Parser.parse (Parser.init ts))
  /\ (forall p : Parser,
        Parser.current p < List.length (Parser.tokens p) ->
        Parser.current p <= Parser.current (Parser.advance_state p)
        /\ Parser.current (Parser.advance_state p) <= Parser.current p + 1
        /\ Parser.current (Parser.advance_state p)
           < List.length (Parser.tokens p))
  /\ (forall (ts : list Token) (fuel : nat),
        let toks := Parser.tokens (Parser.init ts) in
        advances toks 1 fuel (Parser.parse_S fuel)
        /\ advances toks 1 fuel (Parser.parse_D fuel)
        /\ advances toks 2 fuel (Parser.parse_V fuel)
        /\ advances toks 1 fuel (Parser.parse_T fuel)
        /\ advances toks 1 fuel (Parser.parse_I fuel)
        /\ advances toks 3 fuel (Parser.parse_L fuel)
        /\ advances toks 2 fuel (Parser.parse_C fuel)
        /\ advances toks 1 fuel (Parser.parse_A fuel)
        /\ advances toks 6 fuel (Parser.parse_F fuel)
        /\ advances toks 5 fuel (Parser.parse_G fuel)
        /\ advances toks 1 fuel (Parser.parse_M fuel)
        /\ advances toks 1 fuel (Parser.parse_N fuel)
        /\ advances toks 1 fuel (Parser.parse_P fuel)
        /\ advances toks 4 fuel (Parser.parse_E fuel)
        /\ advances toks 3 fuel (Parser.parse_E_expr fuel)
        /\ advances toks 2 fuel (Parser.parse_E_term fuel)
        /\ advances toks 1 fuel (Parser.parse_E_factor fuel)
        /\ advances toks 5 fuel (Parser.parse_B fuel)).
Proof.
  split.
  { intros lx. pose proof (LexerLogic.tokenize_finished lx) as H.
    destruct (Lexer.tokenize lx); simpl in H; auto.
    destruct H as (H1 & _ & H3). split; [assumption|].
    now apply LexerLogic.is_at_end_true. }
  split.
  { intros lx fuel Hf. now apply LexerLogic.tokenize_fuel_enough. }
  split.
  { intros ts. pose proof (ParserFacts.parse_init ts) as H.
    unfold ParserLogic.wp in H.
    destruct (Parser.parse (Parser.init ts)); [| |exact H].
    - destruct H as (H1 & H2 & _). now split.
    - destruct H as (H1 & H2 & _). now split. }
  split.
  { intros ts fuel Hf. apply ParserFacts.parse_fuel_enough.
    unfold Parser.fuel_for. lia. }
  split.
  { intros p Hp. unfold Parser.advance_state.
    destruct (Nat.ltb_spec (Parser.current p + 1)
                           (List.length (Parser.tokens p))); simpl; lia. }
  intros ts fuel toks.
  pose proof (ParserLogic.parse_specs toks (ParserFacts.init_eof ts) fuel)
    as ((HS & HD & HV & HT & HI & HL & HC)
        & (HA & HR & HW & HF & HG & HM & HN & HP)
        & (HE & HEe & HEel & HEt & HEtl & HEf & HB)).
  repeat split; apply proc_spec_advances; assumption.
Qed.

Lemma analysis_terminates_witness :
  Lexer.tokenize_fuel 50 (Lexer.init program_source)
  = Lexer.tokenize (Lexer.init program_source)
  /\ Parser.parse_fuel 200 (Parser.init program_tokens)
     = Parser.parse (Parser.init program_tokens).
Proof.
  split.
  - apply (proj1 (proj2 analysis_terminates) (Lexer.init program_source) 50).
    vm_compute. lia.
  - apply (proj1 (proj2 (proj2 (proj2 analysis_terminates)))
             program_tokens 200).
    vm_compute. lia.
Defined.

(* ===================================================================== *)
(** ** The tree as a derivation of the grammar *)
(* ===================================================================== *)

Module Derivation.
Import Parser ParserLogic.
Local Open Scope parser_scope.

(** All sequences that take one symbol from each list of alternatives. *)
Fixpoint product (alts : list (list string)) : list (list string) :=
  match alts with
  | [] => [[]]
  | a :: rest => flat_map (fun x => map (cons x) (product rest)) a
  end.

(** Roots of the trees that stand for an expression: an [E] node, or the
    leaf of an identifier or of a number. *)
Definition operand : list string := ["E"; "id"; "num"].

(** The right-hand sides the procedures build, as sequences of child
    symbols, for each non-terminal. *)
Definition grammar : list (string * list (list string)) :=
  [ ("S", [ ["program"; "id"; ";"; "D"; "begin"; "L"; "end"; "."];
            ["program"; "id"; ";"; "begin"; "L"; "end"; "."] ]);
    ("D", [ ["var"; "V"] ]);
    ("V", [ ["I"; ":"; "T"; ";"]; ["I"; ":"; "T"; ";"; "V"] ]);
    ("T", [ ["integer"]; ["boolean"] ]);
    ("I", [ ["id"]; ["id"; ","; "I"] ]);
    ("L", [ ["C"]; ["C"; ";"]; ["C"; ";"; "L"] ]);
    ("C", [ ["A"]; ["R"]; ["W"]; ["M"]; ["N"]; ["P"] ]);
    ("A", [ ["id"; ":="; "E"] ]);
    ("R", [ ["read"; "("; "I"; ")"]; ["readln"];
            ["readln"; "("; "I"; ")"] ]);
    ("W", [ ["write"; "("; "F"; ")"]; ["writeln"];
            ["writeln"; "("; "F"; ")"] ]);
    ("F", [ ["G"]; ["G"; ","; "F"] ]);
    ("G", [ ["str"]; ["E"] ]);
    ("M", [ ["begin"; "L"; "end"] ]);
    ("N", [ ["if"; "B"; "then"; "C"];
            ["if"; "B"; "then"; "C"; "else"; "C"] ]);
    ("P", [ ["while"; "B"; "do"; "C"] ]);
    ("E", product [operand]
          ++ product [["-"]; operand]
          ++ product [operand; ["+"; "-"; "*"; "/"]; operand]);
    ("B", [ ["E"] ]
          ++ product [["E"]; ["<"; "<="; ">"; ">="; "="; "<>"]; ["E"]]) ]%list.

Definition same_symbols (p q : list string) : bool :=
  if list_eq_dec string_dec p q then true else false.

(** [allowed s cs]: [cs] is a right-hand side of [s]. *)
Definition allowed (s : string) (cs : list string) : bool :=
  match dict_get grammar s with
  | Some ps => existsb (same_symbols cs) ps
  | None => false
  end.

(** A tree conforms when each leaf carries a token and is labelled with
    the value of the kind of that token, and each inner node carries no
    token and has the children of one right-hand side of its symbol. *)
Inductive conforms : TreeNode -> Prop :=
  | conforms_leaf (s : string) (tk : Token) :
      s = TokenType_value (Token.type tk) ->
      conforms (TreeNode.mk s (Some tk) [])
  | conforms_inner (s : string) (ch : list TreeNode) :
      allowed s (map TreeNode.symbol ch) = true ->
      Forall conforms ch ->
      conforms (TreeNode.mk s None ch).

Definition is_paren (tk : Token) : Prop :=
  Token.type tk = LEFT_PAREN \/ Token.type tk = RIGHT_PAREN.

(** [elide l l']: [l'] is [l] without some of its parentheses. *)
Inductive elide : list Token -> list Token -> Prop :=
  | elide_nil : elide [] []
  | elide_keep tk l l' : elide l l' -> elide (tk :: l) (tk :: l')
  | elide_drop tk l l' : is_paren tk -> elide l l' -> elide (tk :: l) l'.

Lemma elide_app l1 l1' l2 l2' :
  elide l1 l1' -> elide l2 l2' -> elide (l1 ++ l2) (l1' ++ l2').
Proof.
  induction 1; intros H2; simpl; auto using elide_keep, elide_drop.
Qed.

Lemma elide_same l : elide l l.
Proof. induction l; auto using elide_nil, elide_keep. Qed.

(** Without parentheses nothing is dropped. *)
Lemma elide_no_paren l l' :
  elide l l' -> Forall (fun tk => ~ is_paren tk) l -> l' = l.
Proof.
  induction 1; intros Hf; [reflexivity| |].
  - inversion Hf; subst. f_equal. auto.
  - inversion Hf; subst. contradiction.
Qed.

(** The tokens from position [c] up to, not including, [c']. *)
Definition slice (toks : list Token) (c c' : nat) : list Token :=
  firstn (c' - c) (skipn c toks).

Lemma slice_empty toks c : slice toks c c = [].
Proof. unfold slice. now rewrite Nat.sub_diag. Qed.

Lemma slice_one toks c tk :
  nth_error toks c = Some tk -> slice toks c (S c) = [tk].
Proof.
  unfold slice. replace (S c - c) with 1 by lia.
  revert c. induction toks as [|a l IH]; intros [|c] H; simpl in *;
    try discriminate.
  - injection H as ->. reflexivity.
  - now apply IH.
Qed.

Lemma firstn_add {A} (a b : nat) (l : list A) :
  firstn (a + b) l = (firstn a l ++ firstn b (skipn a l))%list.
Proof.
  revert l. induction a as [|a IH]; intros [|x l]; simpl; auto.
  - now rewrite firstn_nil.
  - now rewrite IH.
Qed.

Lemma skipn_add {A} (a b : nat) (l : list A) :
  skipn (a + b) l = skipn b (skipn a l).
Proof.
  revert l. induction a as [|a IH]; intros [|x l]; simpl; auto.
  now rewrite skipn_nil.
Qed.

Lemma slice_app toks c c1 c2 :
  c <= c1 -> c1 <= c2 ->
  slice toks c c2 = (slice toks c c1 ++ slice toks c1 c2)%list.
Proof.
  intros H1 H2. unfold slice.
  replace (c2 - c) with ((c1 - c) + (c2 - c1)) by lia.
  rewrite firstn_add, <- skipn_add. do 3 f_equal. lia.
Qed.

Lemma in_values t l :
  TokenType_in t l = true ->
  In (TokenType_value t) (map TokenType_value l).
Proof. intros H. apply in_map. now apply TokenType_in_In. Qed.

(** *** Runs over a fixed token list that ends with an EOF token *)
Section Trees.

Variable toks : list Token.
Hypothesis toks_eof : Token.type (last toks end_marker) = EOF.

(** [t] is a conforming tree, rooted at one of [syms], whose tokens are
    those from [c] up to [c'], without some parentheses. *)
Definition derived (syms : list string) (c c' : nat) (t : TreeNode)
    : Prop :=
  c <= c' /\ In (TreeNode.symbol t) syms /\ conforms t
  /\ elide (slice toks c c') (TreeNode.tokens_of t).

(** [n] is a node for [sym] under construction: the children it has so
    far conform and carry the tokens from [c0] up to [c]. *)
Definition building (sym : string) (c0 c : nat) (n : TreeNode) : Prop :=
  c0 <= c /\ TreeNode.symbol n = sym /\ TreeNode.token n = None
  /\ Forall conforms (TreeNode.children n)
  /\ elide (slice toks c0 c) (TreeNode.tokens_of n).

Lemma building_node sym c : building sym c c (node sym).
Proof.
  unfold building. rewrite slice_empty. simpl.
  repeat split; auto using elide_nil.
Qed.

Lemma building_child sym syms c0 c c' n t :
  building sym c0 c n -> derived syms c c' t ->
  building sym c0 c' (TreeNode.add_child n t).
Proof.
  intros (H1 & H2 & H3 & H4 & H5) (D1 & D2 & D3 & D4).
  unfold building. rewrite tokens_of_add_child. simpl.
  split; [lia|]. split; [assumption|]. split; [assumption|]. split.
  - apply Forall_app. split; [assumption | now constructor].
  - rewrite (slice_app toks c0 c c') by assumption. now apply elide_app.
Qed.

Lemma derived_leaf syms c s tk :
  nth_error toks c = Some tk ->
  s = TokenType_value (Token.type tk) ->
  In s syms ->
  derived syms c (S c) (leaf s tk).
Proof.
  intros Hn Hs Hin. unfold derived, leaf, TreeNode.init. simpl.
  split; [lia|]. split; [assumption|]. split; [now constructor|].
  rewrite (slice_one toks c tk Hn). apply elide_same.
Qed.

Lemma building_leaf sym c0 c n s tk :
  building sym c0 c n ->
  nth_error toks c = Some tk ->
  s = TokenType_value (Token.type tk) ->
  building sym c0 (S c) (TreeNode.add_child n (leaf s tk)).
Proof.
  intros Hb Hn Hs. apply (building_child sym [s] c0 c (S c)); [assumption|].
  apply derived_leaf; simpl; auto.
Qed.

Lemma building_done sym syms c0 c n :
  building sym c0 c n ->
  allowed sym (map TreeNode.symbol (TreeNode.children n)) = true ->
  In sym syms ->
  derived syms c0 c n.
Proof.
  intros (H1 & H2 & H3 & H4 & H5) Ha Hin. destruct n as [s tk ch].
  simpl in *. subst s tk. unfold derived. simpl.
  repeat split; auto. now constructor.
Qed.

Lemma derived_weaken syms syms' c c' t :
  derived syms c c' t -> incl syms syms' -> derived syms' c c' t.
Proof. intros (H1 & H2 & H3 & H4) Hi. repeat split; auto. Qed.

Lemma derived_symbol syms c c' t :
  derived syms c c' t -> In (TreeNode.symbol t) syms.
Proof. now intros (_ & H & _). Qed.

Lemma derived_le syms c c' t : derived syms c c' t -> c <= c'.
Proof. now intros (H & _). Qed.

(** An expression between parentheses: the parentheses are consumed and
    left out of the tree. *)
Lemma derived_parens syms syms' c c' t tk1 tk2 :
  derived syms (S c) c' t ->
  incl syms syms' ->
  nth_error toks c = Some tk1 -> Token.type tk1 = LEFT_PAREN ->
  nth_error toks c' = Some tk2 -> Token.type tk2 = RIGHT_PAREN ->
  derived syms' c (S c') t.
Proof.
  intros (H1 & H2 & H3 & H4) Hi Hn1 Ht1 Hn2 Ht2.
  split; [lia|]. split; [auto|]. split; [assumption|].
  rewrite (slice_app toks c (S c) (S c')) by lia.
  rewrite (slice_app toks (S c) c' (S c')) by lia.
  rewrite (slice_one toks c tk1 Hn1), (slice_one toks c' tk2 Hn2).
  simpl. apply elide_drop; [now left|].
  rewrite <- (app_nil_r (TreeNode.tokens_of t)).
  apply elide_app; [assumption|].
  apply elide_drop; [now right | apply elide_nil].
Qed.

(** Specification of a procedure started on a token accepted by [g]. *)
Definition proc_shape (g : Token -> bool) (syms : list string)
    (m : M TreeNode) : Prop :=
  forall c, c < List.length toks ->
    g (peek_token (mk toks c)) = true ->
    wp m (mk toks c)
       (fun t p' => exists c', p' = mk toks c' /\ c' < List.length toks
                               /\ derived syms c c' t)
       (fun _ _ => True) True.

Definition loop_shape (m : TreeNode -> M TreeNode) : Prop :=
  forall left c0 c, c < List.length toks ->
    derived operand c0 c left ->
    wp (m left) (mk toks c)
       (fun t p' => exists c', p' = mk toks c' /\ c' < List.length toks
                               /\ derived operand c0 c' t)
       (fun _ _ => True) True.

Ltac ne_eof :=
  first [ discriminate
        | eapply ne_eof_eqb; [eassumption | reflexivity]
        | eapply ne_eof_in; [eassumption | reflexivity] ].

Ltac type_tac :=
  first [ assumption | apply TokenType_eqb_eq; assumption ].

Ltac sym_tac :=
  first
    [ reflexivity
    | match goal with
      | H : Token.type ?tk = _ |- _ = TokenType_value (Token.type ?tk) =>
          rewrite H; reflexivity
      | H : TokenType_eqb (Token.type ?tk) _ = true
        |- _ = TokenType_value (Token.type ?tk) =>
          rewrite (proj1 (TokenType_eqb_eq _ _) H); reflexivity
      end ].

Ltac in_tac := simpl; tauto.

Ltac incl_tac :=
  let x := fresh in let H := fresh in
  intros x H; simpl in *; tauto.

Ltac build_tac :=
  repeat first
    [ apply building_node
    | eapply building_leaf; [ | eassumption | sym_tac ]
    | eapply building_child; [ | eassumption ] ].

Ltac split_in H :=
  simpl in H;
  repeat match type of H with
         | _ \/ _ => destruct H as [H|H]
         end;
  try contradiction.

Ltac allowed_tac :=
  simpl;
  repeat match goal with
         | H : _ = TreeNode.symbol ?t |- context [TreeNode.symbol ?t] =>
             rewrite <- H
         end;
  repeat match goal with
         | H : TokenType_in (Token.type ?tk) ?l = true
           |- context [TokenType_value (Token.type ?tk)] =>
             let Hv := fresh "Hv" in
             pose proof (in_values _ _ H) as Hv; split_in Hv;
             rewrite <- Hv
         end;
  vm_compute; reflexivity.

Ltac guard_contra :=
  exfalso;
  match goal with
  | Hg : TokenType_in _ _ = true |- _ =>
      cbv beta delta [TokenType_in] in Hg; cbn [existsb] in Hg;
      repeat match goal with
             | E : TokenType_eqb _ _ = false |- _ => rewrite E in Hg
             end;
      discriminate Hg
  end.

Ltac derive_tac :=
  first
    [ eapply derived_leaf; [eassumption | sym_tac | in_tac]
    | eapply building_done; [build_tac | allowed_tac | in_tac]
    | eapply derived_parens;
      [eassumption | incl_tac | eassumption | type_tac
       | eassumption | type_tac]
    | eapply derived_weaken; [eassumption | incl_tac]
    | guard_contra ].

Ltac returned_tac :=
  eexists; split; [reflexivity|]; split; [lia | derive_tac].

Ltac after_call :=
  [> let t := fresh "t" in
     let p' := fresh "p" in
     let c' := fresh "c" in
     let Hlt := fresh "Hlt" in
     let Hd := fresh "Hd" in
     let Hs := fresh "Hs" in
     let Hle := fresh "Hle" in
     intros t p' (c' & -> & Hlt & Hd);
     pose proof (derived_le _ _ _ _ Hd) as Hle;
     pose proof (derived_symbol _ _ _ _ Hd) as Hs; split_in Hs;
     cbv beta zeta
   | intros; exact I
   | intros; exact I ].

Ltac guard_tac := first [ reflexivity | eassumption ].

Ltac sh_step :=
  cbv beta zeta;
  lazymatch goal with
  | |- wp (bind peek _) (mk toks _) _ _ _ => apply wp_peek_at
  | |- wp (bind advance _) (mk toks _) _ _ _ =>
      apply (wp_advance_at toks toks_eof); [lia | ne_eof | intros ? ?]
  | |- wp (bind (expect _) _) (mk toks _) _ _ _ =>
      apply (wp_expect_at toks toks_eof);
      [ lia | discriminate | intros ? ? ? | intros ?; exact I ]
  | |- wp (bind (bind _ _) _) _ _ _ _ => apply wp_bind_assoc
  | |- wp (bind (ret _) _) _ _ _ _ => apply wp_bind_ret
  | |- wp (bind (if ?b then _ else _) _) _ _ _ _ => destruct b eqn:?
  | |- wp (if negb ?b then _ else _) _ _ _ _ =>
      destruct b eqn:?; cbv beta iota delta [negb]
  | |- wp (if ?b then _ else _) _ _ _ _ => destruct b eqn:?
  | |- wp (ret _) _ _ _ _ => apply wp_ret; returned_tac
  | |- wp (raise _) _ _ _ _ => apply wp_raise; exact I
  | H : proc_shape _ _ ?m |- wp (bind ?m _) (mk toks ?c) _ _ _ =>
      eapply (wp_bind_call m _ _ _ _ _ _ _ _
                (H c ltac:(lia) ltac:(guard_tac)));
      after_call
  | H : loop_shape ?m |- wp (bind (?m ?l) _) (mk toks ?c) _ _ _ =>
      eapply (wp_bind_call (m l));
      [ eapply H; [lia | derive_tac] | | | ];
      after_call
  | H : proc_shape _ _ ?m |- wp ?m (mk toks ?c) _ _ _ =>
      eapply (wp_conseq m _ _ _ _ _ _ _
                (H c ltac:(lia) ltac:(guard_tac)));
      after_call; returned_tac
  | H : loop_shape ?m |- wp (?m ?l) (mk toks ?c) _ _ _ =>
      eapply (wp_conseq (m l));
      [ eapply H; [lia | derive_tac] | | | ];
      after_call; returned_tac
  end.

Ltac sh_run := intros c Hc Hg; repeat sh_step.

Lemma parse_S_body_shape pD pL :
  proc_shape always ["D"] pD ->
  proc_shape always ["L"] pL ->
  proc_shape always ["S"] (parse_S_body pD pL).
Proof. intros HD HL. unfold parse_S_body. sh_run. Qed.

Lemma parse_D_body_shape pV :
  proc_shape always ["V"] pV ->
  proc_shape always ["D"] (parse_D_body pV).
Proof. intros HV. unfold parse_D_body. sh_run. Qed.

Lemma parse_V_body_shape pV pT pI :
  proc_shape always ["V"] pV ->
  proc_shape always ["T"] pT ->
  proc_shape always ["I"] pI ->
  proc_shape always ["V"] (parse_V_body pV pT pI).
Proof. intros HV HT HI. unfold parse_V_body. sh_run. Qed.

Lemma parse_T_body_shape : proc_shape always ["T"] parse_T_body.
Proof. unfold parse_T_body. sh_run. Qed.

Lemma parse_I_body_shape pI :
  proc_shape always ["I"] pI ->
  proc_shape always ["I"] (parse_I_body pI).
Proof. intros HI. unfold parse_I_body. sh_run. Qed.

Lemma parse_L_body_shape pL pC :
  proc_shape always ["L"] pL ->
  proc_shape always ["C"] pC ->
  proc_shape always ["L"] (parse_L_body pL pC).
Proof. intros HL HC. unfold parse_L_body. sh_run. Qed.

Lemma parse_C_body_shape pA pR pW pM pN pP :
  proc_shape always ["A"] pA ->
  proc_shape is_read ["R"] pR ->
  proc_shape is_write ["W"] pW ->
  proc_shape always ["M"] pM ->
  proc_shape always ["N"] pN ->
  proc_shape always ["P"] pP ->
  proc_shape always ["C"] (parse_C_body pA pR pW pM pN pP).
Proof.
  intros HA HR HW HM HN HP. unfold parse_C_body, is_read, is_write in *.
  sh_run.
Qed.

Lemma parse_A_body_shape pE :
  proc_shape always ["E"] pE ->
  proc_shape always ["A"] (parse_A_body pE).
Proof. intros HE. unfold parse_A_body. sh_run. Qed.

Lemma parse_R_body_shape pI :
  proc_shape always ["I"] pI ->
  proc_shape is_read ["R"] (parse_R_body pI).
Proof. intros HI. unfold parse_R_body, is_read. sh_run. Qed.

Lemma parse_W_body_shape pF :
  proc_shape always ["F"] pF ->
  proc_shape is_write ["W"] (parse_W_body pF).
Proof. intros HF. unfold parse_W_body, is_write. sh_run. Qed.

Lemma parse_F_body_shape pF pG :
  proc_shape always ["F"] pF ->
  proc_shape always ["G"] pG ->
  proc_shape always ["F"] (parse_F_body pF pG).
Proof. intros HF HG. unfold parse_F_body. sh_run. Qed.

Lemma parse_G_body_shape pE :
  proc_shape always ["E"] pE ->
  proc_shape always ["G"] (parse_G_body pE).
Proof. intros HE. unfold parse_G_body. sh_run. Qed.

Lemma parse_M_body_shape pL :
  proc_shape always ["L"] pL ->
  proc_shape always ["M"] (parse_M_body pL).
Proof. intros HL. unfold parse_M_body. sh_run. Qed.

Lemma parse_N_body_shape pC pB :
  proc_shape always ["C"] pC ->
  proc_shape always ["B"] pB ->
  proc_shape always ["N"] (parse_N_body pC pB).
Proof. intros HC HB. unfold parse_N_body. sh_run. Qed.

Lemma parse_P_body_shape pC pB :
  proc_shape always ["C"] pC ->
  proc_shape always ["B"] pB ->
  proc_shape always ["P"] (parse_P_body pC pB).
Proof. intros HC HB. unfold parse_P_body. sh_run. Qed.

Lemma parse_E_body_shape pEe :
  proc_shape always ["E"] pEe ->
  proc_shape always ["E"] (parse_E_body pEe).
Proof. intros HEe. unfold parse_E_body. sh_run. Qed.

Lemma parse_E_expr_loop_body_shape pEt pEl :
  proc_shape always operand pEt ->
  loop_shape pEl ->
  loop_shape (parse_E_expr_loop_body pEt pEl).
Proof.
  intros HEt HEl left c0 c Hc Hleft.
  pose proof (derived_le _ _ _ _ Hleft) as Hle0.
  pose proof (derived_symbol _ _ _ _ Hleft) as Hs0. split_in Hs0.
  all: unfold parse_E_expr_loop_body; repeat sh_step.
Qed.

Lemma parse_E_expr_body_shape pEt pEl :
  proc_shape always operand pEt ->
  loop_shape pEl ->
  proc_shape always ["E"] (parse_E_expr_body pEt pEl).
Proof. intros HEt HEl. unfold parse_E_expr_body. sh_run. Qed.

Lemma parse_E_term_loop_body_shape pEf pEl :
  proc_shape always operand pEf ->
  loop_shape pEl ->
  loop_shape (parse_E_term_loop_body pEf pEl).
Proof.
  intros HEf HEl left c0 c Hc Hleft.
  pose proof (derived_le _ _ _ _ Hleft) as Hle0.
  pose proof (derived_symbol _ _ _ _ Hleft) as Hs0. split_in Hs0.
  all: unfold parse_E_term_loop_body; repeat sh_step.
Qed.

Lemma parse_E_term_body_shape pEf pEl :
  proc_shape always operand pEf ->
  loop_shape pEl ->
  proc_shape always operand (parse_E_term_body pEf pEl).
Proof. intros HEf HEl. unfold parse_E_term_body. sh_run. Qed.

Lemma parse_E_factor_body_shape pEe pEf :
  proc_shape always ["E"] pEe ->
  proc_shape always operand pEf ->
  proc_shape always operand (parse_E_factor_body pEe pEf).
Proof. intros HEe HEf. unfold parse_E_factor_body. sh_run. Qed.

Lemma parse_B_body_shape pE :
  proc_shape always ["E"] pE ->
  proc_shape always ["B"] (parse_B_body pE).
Proof. intros HE. unfold parse_B_body. sh_run. Qed.

Definition all_shapes (fuel : nat) : Prop :=
  (proc_shape always ["S"] (parse_S fuel)
   /\ proc_shape always ["D"] (parse_D fuel)
   /\ proc_shape always ["V"] (parse_V fuel)
   /\ proc_shape always ["T"] (parse_T fuel)
   /\ proc_shape always ["I"] (parse_I fuel)
   /\ proc_shape always ["L"] (parse_L fuel)
   /\ proc_shape always ["C"] (parse_C fuel))
  /\ (proc_shape always ["A"] (parse_A fuel)
      /\ proc_shape is_read ["R"] (parse_R fuel)
      /\ proc_shape is_write ["W"] (parse_W fuel)
      /\ proc_shape always ["F"] (parse_F fuel)
      /\ proc_shape always ["G"] (parse_G fuel)
      /\ proc_shape always ["M"] (parse_M fuel)
      /\ proc_shape always ["N"] (parse_N fuel)
      /\ proc_shape always ["P"] (parse_P fuel))
  /\ (proc_shape always ["E"] (parse_E fuel)
      /\ proc_shape always ["E"] (parse_E_expr fuel)
      /\ loop_shape (parse_E_expr_loop fuel)
      /\ proc_shape always operand (parse_E_term fuel)
      /\ loop_shape (parse_E_term_loop fuel)
      /\ proc_shape always operand (parse_E_factor fuel)
      /\ proc_shape always ["B"] (parse_B fuel)).

Lemma parse_shapes : forall fuel, all_shapes fuel.
Proof.
  induction fuel as [|f IH].
  - unfold all_shapes, proc_shape, loop_shape, wp; simpl.
    repeat apply conj; intros; exact I.
  - destruct IH as
      ((HS & HD & HV & HT & HI & HL & HC)
       & (HA & HR & HW & HF & HG & HM & HN & HP)
       & (HE & HEe & HEel & HEt & HEtl & HEf & HB)).
    unfold all_shapes. repeat apply conj.
    + exact (parse_S_body_shape _ _ HD HL).
    + exact (parse_D_body_shape _ HV).
    + exact (parse_V_body_shape _ _ _ HV HT HI).
    + exact parse_T_body_shape.
    + exact (parse_I_body_shape _ HI).
    + exact (parse_L_body_shape _ _ HL HC).
    + exact (parse_C_body_shape _ _ _ _ _ _ HA HR HW HM HN HP).
    + exact (parse_A_body_shape _ HE).
    + exact (parse_R_body_shape _ HI).
    + exact (parse_W_body_shape _ HF).
    + exact (parse_F_body_shape _ _ HF HG).
    + exact (parse_G_body_shape _ HE).
    + exact (parse_M_body_shape _ HL).
    + exact (parse_N_body_shape _ _ HC HB).
    + exact (parse_P_body_shape _ _ HC HB).
    + exact (parse_E_body_shape _ HEe).
    + exact (parse_E_expr_body_shape _ _ HEt HEel).
    + exact (parse_E_expr_loop_body_shape _ _ HEt HEel).
    + exact (parse_E_term_body_shape _ _ HEf HEtl).
    + exact (parse_E_term_loop_body_shape _ _ HEf HEtl).
    + exact (parse_E_factor_body_shape _ _ HEe HEf).
    + exact (parse_B_body_shape _ HE).
Qed.

End Trees.

Lemma slice_init ts :
  slice (tokens (init ts)) 0 (List.length (filter ParserFacts.kept ts))
  = filter ParserFacts.kept ts.
Proof.
  rewrite ParserFacts.init_tokens. unfold slice.
  rewrite Nat.sub_0_r. cbn [skipn].
  rewrite firstn_app, Nat.sub_diag, firstn_all. cbn [firstn].
  apply app_nil_r.
Qed.

(** The facts about a returned tree that the induction gives. *)
Lemma parse_derivation :
  forall (ts : list Token) (tree : TreeNode) (p' : Parser),
    parse (init ts) = Ok tree p' ->
    TreeNode.symbol tree = "S"
    /\ conforms tree
    /\ elide (filter ParserFacts.kept ts) (TreeNode.tokens_of tree).
Proof.
  intros ts tree p' Hp.
  pose proof (ParserFacts.parse_init ts) as Hi.
  unfold wp in Hi. rewrite Hp in Hi. destruct Hi as (Htoks & Hcur & _).
  unfold parse, parse_fuel, bind in Hp.
  destruct (parse_shapes (tokens (init ts)) (ParserFacts.init_eof ts)
              (fuel_for (init ts))) as ((HS & _) & _).
  assert (H0 : 0 < List.length (tokens (init ts)))
    by (rewrite ParserFacts.init_length; lia).
  specialize (HS 0 H0 eq_refl). unfold wp in HS.
  change (mk (tokens (init ts)) 0) with (init ts) in HS.
  destruct (parse_S (fuel_for (init ts)) (init ts)) as [t p1|e p1|];
    try discriminate Hp.
  destruct HS as (c' & -> & Hlt & (_ & Hsym & Hconf & Hel)).
  unfold peek in Hp.
  destruct (negb (TokenType_eqb
                    (Token.type (peek_token (mk (tokens (init ts)) c'))) EOF));
    [discriminate Hp|].
  unfold ret in Hp. injection Hp as -> <-.
  cbn [tokens current] in Hcur. rewrite length_app in Hcur.
  cbn [List.length] in Hcur.
  assert (Hc' : c' = List.length (filter ParserFacts.kept ts))
    by (unfold ParserFacts.kept; lia).
  subst c'.
  rewrite slice_init in Hel.
  simpl in Hsym. destruct Hsym as [Hsym|[]].
  repeat split; auto.
Qed.

(** X1. The tree returned by [parse] is rooted at [S] and is a derivation
    tree of the grammar the procedures implement: every leaf carries a
    token and is labelled with the value of the kind of its token, and
    every inner node carries no token and has, in order, the children of a
    right-hand side of [grammar] for its symbol. *)
Theorem parse_tree_conforms :
  forall (ts : list Token) (tree : TreeNode) (p' : Parser),
    parse (init ts) = Ok tree p' ->
    TreeNode.symbol tree = "S" /\ conforms tree.
Proof.
  intros ts tree p' Hp.
  destruct (parse_derivation ts tree p' Hp) as (H1 & H2 & _). now split.
Qed.

(** X2. The tokens of the tree returned by [parse], read in pre-order, are
    the tokens the constructor kept (all but NEWLINE and EOF), in their
    order, without some parentheses (those around sub-expressions); when
    the input has no parenthesis they are exactly the kept tokens. *)
Theorem parse_tree_yield :
  forall (ts : list Token) (tree : TreeNode) (p' : Parser),
    parse (init ts) = Ok tree p' ->
    elide (filter ParserFacts.kept ts) (TreeNode.tokens_of tree)
    /\ (Forall (fun tk => ~ is_paren tk) ts ->
        TreeNode.tokens_of tree = filter ParserFacts.kept ts).
Proof.
  intros ts tree p' Hp.
  destruct (parse_derivation ts tree p' Hp) as (_ & _ & H3).
  split; [assumption|]. intros Hnp.
  apply (elide_no_paren _ _ H3).
  rewrite Forall_forall in *. intros tk Hin.
  apply filter_In in Hin. now apply Hnp.
Qed.

End Derivation.

(* ===================================================================== *)
(** ** Runs of the parser on two token lists with a common beginning *)
(* ===================================================================== *)

Module Lookahead.
Import Parser ParserLogic.
Local Open Scope parser_scope.

Section TwoLists.

Variables toks1 toks2 : list Token.
Variable n : nat.
Hypothesis eof1 : Token.type (last toks1 end_marker) = EOF.
Hypothesis n_lt1 : n < List.length toks1.
Hypothesis n_lt2 : n < List.length toks2.
Hypothesis agree : forall i, i < n -> nth_error toks1 i = nth_error toks2 i.

Lemma peek_agree c :
  c < n -> peek_token (mk toks1 c) = peek_token (mk toks2 c).
Proof.
  intros Hc. unfold peek_token. cbn [tokens current].
  destruct (Nat.ltb_spec c (List.length toks1)); [|lia].
  destruct (Nat.ltb_spec c (List.length toks2)); [|lia].
  pose proof (agree c Hc) as E.
  rewrite (nth_error_nth' toks1 end_marker) in E by assumption.
  rewrite (nth_error_nth' toks2 end_marker) in E by assumption.
  now injection E.
Qed.

(** The cursor stays on the first list and does not move back. *)
Definition onward (p1 p1' : Parser) : Prop :=
  tokens p1' = toks1 /\ current p1 <= current p1'
  /\ current p1' < List.length toks1.

(** The run on the second list from the same cursor has the outcome [r]
    up to the token list of the final state. *)
Definition mirrored {A : Type} (m : M A) (p1 p2 : Parser)
    (r : Parser -> outcome SyntaxError Parser A) (p1' : Parser) : Prop :=
  current p2 = current p1 ->
  exists p2', m p2 = r p2' /\ tokens p2' = toks2
              /\ current p2' = current p1'.

(** A run of [m] on the first list that ends with the cursor before
    position [n] has looked at positions before [n] only: on the second
    list [m] returns the same value, or raises the same error, at the same
    cursor. *)
Definition look {A : Type} (m : M A) : Prop :=
  forall p1 p2,
    tokens p1 = toks1 -> tokens p2 = toks2 ->
    current p1 < List.length toks1 ->
    match m p1 with
    | Ok a p1' =>
        onward p1 p1'
        /\ (current p1' < n -> mirrored m p1 p2 (Ok a) p1')
    | Raise e p1' =>
        onward p1 p1'
        /\ (current p1' < n -> mirrored m p1 p2 (Raise e) p1')
    | OutOfFuel => True
    end.

(** The same for a run that returns just after consuming a token: it may
    return with the cursor on position [n]. *)
Definition cons {A : Type} (m : M A) : Prop :=
  forall p1 p2,
    tokens p1 = toks1 -> tokens p2 = toks2 ->
    current p1 < List.length toks1 ->
    match m p1 with
    | Ok a p1' =>
        onward p1 p1' /\ current p1 < current p1'
        /\ (current p1' <= n -> mirrored m p1 p2 (Ok a) p1')
    | Raise e p1' =>
        onward p1 p1'
        /\ (current p1' < n -> mirrored m p1 p2 (Raise e) p1')
    | OutOfFuel => True
    end.

Lemma onward_refl p : 
  tokens p = toks1 -> current p < List.length toks1 -> onward p p.
Proof. unfold onward. auto. Qed.

Lemma onward_trans p q r : onward p q -> onward q r -> onward p r.
Proof. unfold onward. intros (?&?&?) (?&?&?). repeat split; auto; lia. Qed.

Lemma look_ret {A} (a : A) : look (ret a).
Proof.
  intros p1 p2 H1 H2 Hc. unfold ret. split; [now apply onward_refl|].
  intros _ E. exists p2. now repeat split.
Qed.

Lemma look_raise {A} e : look (@raise A e).
Proof.
  intros p1 p2 H1 H2 Hc. unfold raise. split; [now apply onward_refl|].
  intros _ E. exists p2. now repeat split.
Qed.

Lemma look_peek : look peek.
Proof.
  intros [t1 c1] [t2 c2] H1 H2 Hc. cbn [tokens current] in *.
  subst t1 t2. unfold peek. split; [now apply onward_refl|].
  cbn [current]. intros Hn E. cbn [current] in E. subst c2.
  exists (mk toks2 c1). now rewrite (peek_agree c1 Hn).
Qed.

Lemma look_advance : look advance.
Proof.
  intros [t1 c1] [t2 c2] H1 H2 Hc. cbn [tokens current] in *.
  subst t1 t2. unfold advance, advance_state, onward, mirrored.
  cbn [tokens current].
  destruct (Nat.ltb_spec (c1 + 1) (List.length toks1));
    cbn [tokens current].
  - repeat split; auto; try lia. intros Hn ->.
    exists (mk toks2 (c1 + 1)). cbn [tokens current].
    destruct (Nat.ltb_spec (c1 + 1) (List.length toks2)); [|lia].
    rewrite (peek_agree c1) by lia. now repeat split.
  - repeat split; auto. intros Hn. lia.
Qed.

Lemma look_bind {A B} (m : M A) (k : A -> M B) :
  look m -> (forall a, look (k a)) -> look (bind m k).
Proof.
  intros Hm Hk p1 p2 H1 H2 Hc. unfold bind.
  specialize (Hm p1 p2 H1 H2 Hc).
  destruct (m p1) as [a pm|e pm|] eqn:Em; [| |exact I].
  - destruct Hm as [Ho Hm]. pose proof Ho as (M1 & M2 & M3).
    pose proof (Hk a pm p2 M1 H2 M3) as Hk0.
    destruct (k a pm) as [b p1'|e p1'|] eqn:Ek; [| |exact I].
    + destruct Hk0 as [Ho' _]. split; [now apply (onward_trans _ pm)|].
      intros Hn E. destruct Ho' as (_ & K2 & _).
      destruct Hm as (pm2 & E1 & T2 & C2); [lia | assumption |].
      pose proof (Hk a pm pm2 M1 T2 M3) as Hk1. rewrite Ek in Hk1.
      destruct Hk1 as [_ Hk1].
      destruct Hk1 as (p2' & E3 & T3 & C3); [assumption | assumption |].
      exists p2'. unfold bind. rewrite E1. now repeat split.
    + destruct Hk0 as [Ho' _]. split; [now apply (onward_trans _ pm)|].
      intros Hn E. destruct Ho' as (_ & K2 & _).
      destruct Hm as (pm2 & E1 & T2 & C2); [lia | assumption |].
      pose proof (Hk a pm pm2 M1 T2 M3) as Hk1. rewrite Ek in Hk1.
      destruct Hk1 as [_ Hk1].
      destruct Hk1 as (p2' & E3 & T3 & C3); [assumption | assumption |].
      exists p2'. unfold bind. rewrite E1. now repeat split.
  - destruct Hm as [Ho Hm]. split; [assumption|]. intros Hn E.
    destruct (Hm Hn E) as (p2' & E1 & T2 & C2).
    exists p2'. unfold bind. rewrite E1. now repeat split.
Qed.

Lemma cons_bind {A B} (m : M A) (k : A -> M B) :
  look m -> (forall a, cons (k a)) -> cons (bind m k).
Proof.
  intros Hm Hk p1 p2 H1 H2 Hc. unfold bind.
  specialize (Hm p1 p2 H1 H2 Hc).
  destruct (m p1) as [a pm|e pm|] eqn:Em; [| |exact I].
  - destruct Hm as [Ho Hm]. pose proof Ho as (M1 & M2 & M3).
    pose proof (Hk a pm p2 M1 H2 M3) as Hk0.
    destruct (k a pm) as [b p1'|e p1'|] eqn:Ek; [| |exact I].
    + destruct Hk0 as (Ho' & Hlt & _).
      split; [now apply (onward_trans _ pm)|]. split; [lia|].
      intros Hn E.
      destruct Hm as (pm2 & E1 & T2 & C2); [lia | assumption |].
      pose proof (Hk a pm pm2 M1 T2 M3) as Hk1. rewrite Ek in Hk1.
      destruct Hk1 as (_ & _ & Hk1).
      destruct Hk1 as (p2' & E3 & T3 & C3); [assumption | assumption |].
      exists p2'. unfold bind. rewrite E1. now repeat split.
    + destruct Hk0 as [Ho' _]. split; [now apply (onward_trans _ pm)|].
      intros Hn E. destruct Ho' as (_ & K2 & _).
      destruct Hm as (pm2 & E1 & T2 & C2); [lia | assumption |].
      pose proof (Hk a pm pm2 M1 T2 M3) as Hk1. rewrite Ek in Hk1.
      destruct Hk1 as [_ Hk1].
      destruct Hk1 as (p2' & E3 & T3 & C3); [assumption | assumption |].
      exists p2'. unfold bind. rewrite E1. now repeat split.
  - destruct Hm as [Ho Hm]. split; [assumption|]. intros Hn E.
    destruct (Hm Hn E) as (p2' & E1 & T2 & C2).
    exists p2'. unfold bind. rewrite E1. now repeat split.
Qed.

Lemma cons_expect_ret {B} kd (f : Token -> B) :
  kd <> EOF -> cons (bind (expect kd) (fun tk => ret (f tk))).
Proof.
  intros Hkd [t1 c1] [t2 c2] H1 H2 Hc. cbn [tokens current] in *.
  subst t1 t2. unfold bind, expect, bind, peek, ret, raise, advance.
  unfold mirrored. cbn [current].
  destruct (TokenType_eqb (Token.type (peek_token (mk toks1 c1))) kd)
    eqn:E; cbn [negb].
  - pose proof E as E'. apply TokenType_eqb_eq in E'.
    destruct (advance_at toks1 eof1 c1 Hc) as [Ea Hlt]; [congruence|].
    rewrite Ea. cbn [current]. unfold onward. cbn [tokens current].
    repeat split; auto; try lia. intros Hn ->.
    exists (mk toks2 (S c1)).
    rewrite <- (peek_agree c1) by lia. rewrite E. cbn [negb].
    unfold advance_state. cbn [tokens current].
    destruct (Nat.ltb_spec (c1 + 1) (List.length toks2)); [|lia].
    rewrite Nat.add_1_r. rewrite <- ?(peek_agree c1) by lia.
    now repeat split.
  - split; [now apply onward_refl|]. cbn [current]. intros Hn ->.
    exists (mk toks2 c1). rewrite <- (peek_agree c1) by lia.
    rewrite E. cbn [negb]. now repeat split.
Qed.

Ltac look_tac :=
  cbv zeta;
  repeat first
    [ assumption
    | apply look_ret
    | apply look_raise
    | apply look_peek
    | apply look_advance
    | match goal with
      | H : forall l, look (?m l) |- look (?m _) => apply H
      | |- look (if ?b then _ else _) => destruct b
      end
    | apply look_bind; [|intros ?] ].

Lemma parse_S_body_look pD pL :
  look pD ->
  look pL ->
  look (parse_S_body pD pL).
Proof. intros. unfold parse_S_body. look_tac. Qed.

Lemma parse_D_body_look pV :
  look pV ->
  look (parse_D_body pV).
Proof. intros. unfold parse_D_body. look_tac. Qed.

Lemma parse_V_body_look pV pT pI :
  look pV ->
  look pT ->
  look pI ->
  look (parse_V_body pV pT pI).
Proof. intros. unfold parse_V_body. look_tac. Qed.

Lemma parse_T_body_look :
  look (parse_T_body).
Proof. intros. unfold parse_T_body. look_tac. Qed.

Lemma parse_I_body_look pI :
  look pI ->
  look (parse_I_body pI).
Proof. intros. unfold parse_I_body. look_tac. Qed.

Lemma parse_L_body_look pL pC :
  look pL ->
  look pC ->
  look (parse_L_body pL pC).
Proof. intros. unfold parse_L_body. look_tac. Qed.

Lemma parse_C_body_look pA pR pW pM pN pP :
  look pA ->
  look pR ->
  look pW ->
  look pM ->
  look pN ->
  look pP ->
  look (parse_C_body pA pR pW pM pN pP).
Proof. intros. unfold parse_C_body. look_tac. Qed.

Lemma parse_A_body_look pE :
  look pE ->
  look (parse_A_body pE).
Proof. intros. unfold parse_A_body. look_tac. Qed.

Lemma parse_R_body_look pI :
  look pI ->
  look (parse_R_body pI).
Proof. intros. unfold parse_R_body. look_tac. Qed.

Lemma parse_W_body_look pF :
  look pF ->
  look (parse_W_body pF).
Proof. intros. unfold parse_W_body. look_tac. Qed.

Lemma parse_F_body_look pF pG :
  look pF ->
  look pG ->
  look (parse_F_body pF pG).
Proof. intros. unfold parse_F_body. look_tac. Qed.

Lemma parse_G_body_look pE :
  look pE ->
  look (parse_G_body pE).
Proof. intros. unfold parse_G_body. look_tac. Qed.

Lemma parse_M_body_look pL :
  look pL ->
  look (parse_M_body pL).
Proof. intros. unfold parse_M_body. look_tac. Qed.

Lemma parse_N_body_look pC pB :
  look pC ->
  look pB ->
  look (parse_N_body pC pB).
Proof. intros. unfold parse_N_body. look_tac. Qed.

Lemma parse_P_body_look pC pB :
  look pC ->
  look pB ->
  look (parse_P_body pC pB).
Proof. intros. unfold parse_P_body. look_tac. Qed.

Lemma parse_E_body_look pE_expr :
  look pE_expr ->
  look (parse_E_body pE_expr).
Proof. intros. unfold parse_E_body. look_tac. Qed.

Lemma parse_E_expr_body_look pE_term pE_expr_loop :
  look pE_term ->
  (forall l, look (pE_expr_loop l)) ->
  look (parse_E_expr_body pE_term pE_expr_loop).
Proof. intros. unfold parse_E_expr_body. look_tac. Qed.

Lemma parse_E_term_body_look pE_factor pE_term_loop :
  look pE_factor ->
  (forall l, look (pE_term_loop l)) ->
  look (parse_E_term_body pE_factor pE_term_loop).
Proof. intros. unfold parse_E_term_body. look_tac. Qed.

Lemma parse_E_factor_body_look pE_expr pE_factor :
  look pE_expr ->
  look pE_factor ->
  look (parse_E_factor_body pE_expr pE_factor).
Proof. intros. unfold parse_E_factor_body. look_tac. Qed.

Lemma parse_B_body_look pE :
  look pE ->
  look (parse_B_body pE).
Proof. intros. unfold parse_B_body. look_tac. Qed.

Lemma parse_E_expr_loop_body_look pE_term pE_expr_loop :
  look pE_term ->
  (forall l, look (pE_expr_loop l)) ->
  forall l, look (parse_E_expr_loop_body pE_term pE_expr_loop l).
Proof. intros. unfold parse_E_expr_loop_body. look_tac. Qed.

Lemma parse_E_term_loop_body_look pE_factor pE_term_loop :
  look pE_factor ->
  (forall l, look (pE_term_loop l)) ->
  forall l, look (parse_E_term_loop_body pE_factor pE_term_loop l).
Proof. intros. unfold parse_E_term_loop_body. look_tac. Qed.

Definition all_look (f : nat) : Prop :=
  look (parse_S f)
  /\ look (parse_D f)
  /\ look (parse_V f)
  /\ look (parse_T f)
  /\ look (parse_I f)
  /\ look (parse_L f)
  /\ look (parse_C f)
  /\ look (parse_A f)
  /\ look (parse_R f)
  /\ look (parse_W f)
  /\ look (parse_F f)
  /\ look (parse_G f)
  /\ look (parse_M f)
  /\ look (parse_N f)
  /\ look (parse_P f)
  /\ look (parse_E f)
  /\ look (parse_E_expr f)
  /\ (forall l, look (parse_E_expr_loop f l))
  /\ look (parse_E_term f)
  /\ (forall l, look (parse_E_term_loop f l))
  /\ look (parse_E_factor f)
  /\ look (parse_B f).

Lemma parse_look : forall f, all_look f.
Proof.
  induction f as [|f IH].
  - unfold all_look. repeat apply conj; intros; intros p1 p2 _ _ _; exact I.
  - destruct IH as
      (HS & HD & HV & HT & HI & HL & HC & HA & HR & HW & HF
       & HG & HM & HN & HP & HE & HE_expr & HE_expr_loop & HE_term & HE_term_loop & HE_factor & HB).
    unfold all_look. repeat apply conj.
    + exact (parse_S_body_look _ _ HD HL).
    + exact (parse_D_body_look _ HV).
    + exact (parse_V_body_look _ _ _ HV HT HI).
    + exact (parse_T_body_look).
    + exact (parse_I_body_look _ HI).
    + exact (parse_L_body_look _ _ HL HC).
    + exact (parse_C_body_look _ _ _ _ _ _ HA HR HW HM HN HP).
    + exact (parse_A_body_look _ HE).
    + exact (parse_R_body_look _ HI).
    + exact (parse_W_body_look _ HF).
    + exact (parse_F_body_look _ _ HF HG).
    + exact (parse_G_body_look _ HE).
    + exact (parse_M_body_look _ HL).
    + exact (parse_N_body_look _ _ HC HB).
    + exact (parse_P_body_look _ _ HC HB).
    + exact (parse_E_body_look _ HE_expr).
    + exact (parse_E_expr_body_look _ _ HE_term HE_expr_loop).
    + exact (parse_E_expr_loop_body_look _ _ HE_term HE_expr_loop).
    + exact (parse_E_term_body_look _ _ HE_factor HE_term_loop).
    + exact (parse_E_term_loop_body_look _ _ HE_factor HE_term_loop).
    + exact (parse_E_factor_body_look _ _ HE_expr HE_factor).
    + exact (parse_B_body_look _ HE).
Qed.

(** [parse_S] ends by consuming the final dot. *)
Lemma parse_S_cons f : cons (parse_S f).
Proof.
  destruct f as [|f]; [intros p1 p2 _ _ _; exact I|].
  destruct (parse_look f)
    as (_ & HD & _ & _ & _ & HL & _).
  change (cons (parse_S_body (parse_D f) (parse_L f))).
  unfold parse_S_body. cbv zeta.
  repeat first
    [ apply cons_expect_ret; discriminate
    | apply cons_bind; [look_tac | intros ?] ].
Qed.

Lemma parse_fuel_look f : look (parse_fuel f).
Proof.
  unfold parse_fuel. destruct (parse_look f) as (HS & _). look_tac.
Qed.

End TwoLists.

Lemma parse_S_le f f' : f <= f' -> extends (parse_S f) (parse_S f').
Proof.
  induction 1 as [|f' Hle IH]; intros p H; [reflexivity|].
  rewrite <- (IH p H). apply (parse_extends f'). now rewrite (IH p H).
Qed.

(** X3. When [parse] accepts a token list, the same list followed by more
    tokens, of which [extra] is the first that the constructor keeps, is
    rejected: [parse] raises [SyntaxError] with the message
    "Esperado fim do programa", carrying [extra], the cursor standing on
    it. *)
Theorem trailing_tokens_rejected :
  forall (ts rest : list Token) (extra : Token) (more : list Token)
         (tree : TreeNode) (p1 : Parser),
    parse (init ts) = Ok tree p1 ->
    filter ParserFacts.kept rest = extra :: more ->
    exists p2,
      parse (init (ts ++ rest))
      = Raise (SyntaxError.init "Esperado fim do programa" (Some extra)) p2
      /\ current p2 = List.length (filter ParserFacts.kept ts)
      /\ peek_token p2 = extra.
Proof.
  intros ts rest extra more tree p1 Hp Hrest.
  pose proof (ParserFacts.parse_init ts) as Hi.
  unfold wp in Hi. rewrite Hp in Hi. destruct Hi as (Htoks & Hcur & _).
  set (kept1 := filter ParserFacts.kept ts) in *.
  assert (T1 : tokens (init ts) = (kept1 ++ [end_marker])%list)
    by reflexivity.
  assert (T2 : tokens (init (ts ++ rest))
               = (kept1 ++ extra :: more ++ [end_marker])%list).
  { rewrite ParserFacts.init_tokens, filter_app, Hrest.
    now rewrite <- app_assoc. }
  assert (Hn : current p1 = List.length kept1).
  { rewrite Htoks, T1, length_app in Hcur. cbn [List.length] in Hcur. lia. }
  unfold parse, parse_fuel, bind in Hp.
  destruct (parse_S (fuel_for (init ts)) (init ts)) as [t pm|e pm|] eqn:ES;
    try discriminate Hp.
  assert (Ept : pm = p1 /\ t = tree).
  { unfold peek in Hp.
    destruct (negb (TokenType_eqb (Token.type (peek_token pm)) EOF));
      [discriminate Hp|].
    unfold ret in Hp. now injection Hp as -> ->. }
  destruct Ept as [-> ->]. clear Hp.
  set (fuel2 := fuel_for (init (ts ++ rest))).
  assert (Hfuel : fuel_for (init ts) <= fuel2).
  { unfold fuel2, fuel_for. rewrite T1, T2, !length_app.
    cbn [List.length]. rewrite length_app. lia. }
  assert (ES2 : parse_S fuel2 (init ts) = Ok tree p1).
  { rewrite <- ES. apply (parse_S_le _ _ Hfuel). rewrite ES. discriminate. }
  assert (Hcons : cons (tokens (init ts)) (tokens (init (ts ++ rest)))
                       (List.length kept1) (parse_S fuel2)).
  { apply parse_S_cons.
    - apply ParserFacts.init_eof.
    - rewrite T1, length_app. cbn [List.length]. lia.
    - rewrite T2, length_app. cbn [List.length]. lia.
    - intros i Hi. rewrite T1, T2, !nth_error_app1 by assumption.
      reflexivity. }
  specialize (Hcons (init ts) (init (ts ++ rest)) eq_refl eq_refl).
  rewrite ES2 in Hcons.
  destruct Hcons as (_ & _ & H2).
  { rewrite T1, length_app. cbn [List.length current init]. lia. }
  destruct H2 as (p2 & E2 & Tp2 & Cp2); [lia | reflexivity |].
  assert (Hpeek : peek_token p2 = extra).
  { destruct p2 as [t2 c2]. cbn [tokens current] in Tp2, Cp2. subst t2 c2.
    unfold peek_token. cbn [tokens current]. rewrite Hn, T2.
    rewrite length_app. cbn [List.length].
    destruct (Nat.ltb_spec (List.length kept1)
                (List.length kept1 + S (List.length (more ++ [end_marker]))));
      [|lia].
    rewrite app_nth2 by (unfold ge; lia). now rewrite Nat.sub_diag. }
  exists p2. split; [|split; [congruence | assumption]].
  unfold parse, parse_fuel, bind. fold fuel2. rewrite E2.
  unfold peek. rewrite Hpeek.
  assert (Hk : ParserFacts.kept extra = true).
  { assert (Hin : In extra (filter ParserFacts.kept rest))
      by (rewrite Hrest; now left).
    now apply filter_In in Hin. }
  apply ParserFacts.kept_spec in Hk. destruct Hk as [_ Hk].
  apply TokenType_eqb_neq in Hk. rewrite Hk. reflexivity.
Qed.

(** X4. A diagnostic depends on the tokens up to the offending one only:
    when [parse] raises on [pre ++ rest1] with the cursor on a token of
    [pre], it raises the same [SyntaxError], with the cursor at the same
    place, on [pre ++ rest2] for any [rest2]. *)
Theorem diagnostic_depends_on_prefix :
  forall (pre rest1 rest2 : list Token) (e : SyntaxError) (p1 : Parser),
    parse (init (pre ++ rest1)) = Raise e p1 ->
    current p1 < List.length (filter ParserFacts.kept pre) ->
    exists p2,
      parse (init (pre ++ rest2)) = Raise e p2
      /\ current p2 = current p1.
Proof.
  intros pre rest1 rest2 e p1 Hp Hcur.
  set (kept0 := filter ParserFacts.kept pre) in *.
  assert (T : forall rest,
             tokens (init (pre ++ rest))
             = (kept0 ++ filter ParserFacts.kept rest ++ [end_marker])%list).
  { intros rest. rewrite ParserFacts.init_tokens, filter_app.
    now rewrite <- app_assoc. }
  set (fuel := Nat.max (fuel_for (init (pre ++ rest1)))
                       (fuel_for (init (pre ++ rest2)))).
  rewrite <- (ParserFacts.parse_fuel_enough _ fuel) in Hp
    by apply Nat.le_max_l.
  rewrite <- (ParserFacts.parse_fuel_enough _ fuel) by apply Nat.le_max_r.
  assert (Hlook : look (tokens (init (pre ++ rest1)))
                       (tokens (init (pre ++ rest2)))
                       (List.length kept0) (parse_fuel fuel)).
  { apply parse_fuel_look.
    - rewrite T, !length_app. cbn [List.length]. lia.
    - rewrite T, !length_app. cbn [List.length]. lia.
    - intros i Hi. rewrite !T, !nth_error_app1 by assumption.
      reflexivity. }
  specialize (Hlook (init (pre ++ rest1)) (init (pre ++ rest2))
                    eq_refl eq_refl).
  rewrite Hp in Hlook. destruct Hlook as [_ H2].
  { rewrite T, !length_app. cbn [List.length current init]. lia. }
  destruct (H2 Hcur eq_refl) as (p2 & E2 & _ & C2).
  now exists p2.
Qed.

End Lookahead.

(* ===================================================================== *)
(** ** Further properties of the parser *)
(* ===================================================================== *)

(** X5. Whenever [parse] raises, the [SyntaxError] carries the token the
    cursor stands on: a token of the input other than NEWLINE and EOF, or
    the end marker.  The token list is unchanged, and the text of the error
    names the kind and the line of that token. *)
Theorem syntax_error_at_cursor :
  forall (ts : list Token) (e : SyntaxError) (p' : Parser),
    Parser.parse (Parser.init ts) = Raise e p' ->
    let tk := Parser.peek_token p' in
    Parser.tokens p' = Parser.tokens (Parser.init ts)
    /\ SyntaxError.token e = Some tk
    /\ (In tk ts /\ Token.type tk <> NEWLINE /\ Token.type tk <> EOF
        \/ tk = Parser.end_marker)
    /\ SyntaxError.text e
       = "Erro sint" ++ a_acute ++ "tico: " ++ SyntaxError.message e
         ++ " (Token: " ++ TokenType_value (Token.type tk)
         ++ ", Linha: " ++ str_of_Z (Token.line tk) ++ ")".
Proof.
  intros ts e p' Hp tk.
  pose proof (ParserFacts.parse_init ts) as H.
  unfold ParserLogic.wp in H. rewrite Hp in H.
  destruct H as (Htoks & Hcur & msg & ->).
  fold tk. split; [assumption|]. split; [reflexivity|].
  split; [|reflexivity].
  destruct p' as [toks c]. cbn [Parser.tokens Parser.current] in *.
  subst toks.
  destruct (Nat.eq_dec (S c) (List.length (Parser.tokens (Parser.init ts))))
    as [Hend|Hin].
  - right. unfold tk. rewrite ParserFacts.init_length in Hend.
    injection Hend as ->. apply ParserFacts.init_peek_end.
  - left. apply ParserFacts.init_nth with (i := c); [|lia].
    unfold tk. now apply ParserLogic.peek_at.
Qed.

(** X6. A token list whose first token other than NEWLINE and EOF is not
    [program], or that has no such token, is rejected at once:
    [parse] raises "Esperado 'program', encontrado '...'" with that token
    (the end marker when there is none), the cursor at position 0. *)
Theorem program_keyword_required :
  forall ts : list Token,
    let first := hd Parser.end_marker (filter ParserFacts.kept ts) in
    Token.type first <> PROGRAM ->
    Parser.parse (Parser.init ts)
    = Raise (SyntaxError.init
               ("Esperado 'program', encontrado '"
                ++ TokenType_value (Token.type first) ++ "'")
               (Some first))
            (Parser.init ts).
Proof.
  intros ts first Hty.
  assert (Hpeek : Parser.peek_token (Parser.init ts) = first).
  { unfold Parser.peek_token, first.
    cbn [Parser.current Parser.init Parser.tokens].
    fold (ParserFacts.kept).
    change (filter _ ts) with (filter ParserFacts.kept ts).
    destruct (filter ParserFacts.kept ts); reflexivity. }
  unfold Parser.parse, Parser.fuel_for.
  cbn [Nat.mul Nat.add Parser.parse_fuel].
  unfold Parser.parse_fuel, Parser.bind at 1.
  cbn [Parser.parse_S]. unfold Parser.parse_S_body.
  cbv zeta. unfold Parser.bind at 1. unfold Parser.expect at 1.
  unfold Parser.bind at 1, Parser.peek at 1. rewrite Hpeek.
  apply ParserLogic.TokenType_eqb_neq in Hty. rewrite Hty. reflexivity.
Qed.


Lemma parse_tree_conforms_witness :
  TreeNode.symbol program_tree = "S" /\ Derivation.conforms program_tree.
Proof.
  apply (Derivation.parse_tree_conforms
           program_tokens program_tree
           (Parser.mk (Parser.tokens (Parser.init program_tokens)) 14)).
  vm_compute. reflexivity.
Defined.

Lemma parse_tree_yield_witness :
  Derivation.elide (filter ParserFacts.kept program_tokens)
                   (TreeNode.tokens_of program_tree)
  /\ (Forall (fun tk => ~ Derivation.is_paren tk) program_tokens ->
      TreeNode.tokens_of program_tree
      = filter ParserFacts.kept program_tokens).
Proof.
  apply (Derivation.parse_tree_yield
           program_tokens program_tree
           (Parser.mk (Parser.tokens (Parser.init program_tokens)) 14)).
  vm_compute. reflexivity.
Defined.

(** The program of C1 followed by one more identifier. *)
Lemma trailing_tokens_rejected_witness :
  exists p2,
    Parser.parse
      (Parser.init
         (program_tokens
          ++ [tok IDENTIFIER "x" 2 1; tok EOF "" 2 2]))
    = Raise (SyntaxError.init "Esperado fim do programa"
                              (Some (tok IDENTIFIER "x" 2 1))) p2
    /\ Parser.current p2
       = List.length (filter ParserFacts.kept program_tokens)
    /\ Parser.peek_token p2 = tok IDENTIFIER "x" 2 1.
Proof.
  apply (Lookahead.trailing_tokens_rejected
           program_tokens [tok IDENTIFIER "x" 2 1; tok EOF "" 2 2]
           (tok IDENTIFIER "x" 2 1) [] program_tree
           (Parser.mk (Parser.tokens (Parser.init program_tokens)) 14)).
  - vm_compute. reflexivity.
  - reflexivity.
Defined.

(** [program ;] with and without further tokens. *)
Lemma diagnostic_depends_on_prefix_witness :
  exists p2,
    Parser.parse
      (Parser.init
         ([tok PROGRAM "program" 1 1; tok SEMICOLON ";" 1 9]
          ++ [tok IDENTIFIER "x" 1 11]))
    = Raise (SyntaxError.init "Esperado 'id', encontrado ';'"
                              (Some (tok SEMICOLON ";" 1 9))) p2
    /\ Parser.current p2 = 1.
Proof.
  apply (Lookahead.diagnostic_depends_on_prefix
           [tok PROGRAM "program" 1 1; tok SEMICOLON ";" 1 9]
           [] [tok IDENTIFIER "x" 1 11]
           (SyntaxError.init "Esperado 'id', encontrado ';'"
                             (Some (tok SEMICOLON ";" 1 9)))
           (Parser.mk
              [tok PROGRAM "program" 1 1; tok SEMICOLON ";" 1 9;
               Parser.end_marker] 1)).
  - vm_compute. reflexivity.
  - vm_compute. lia.
Defined.

(** [program begin]: the identifier is missing. *)
Lemma syntax_error_at_cursor_witness :
  let ts := [tok PROGRAM "program" 1 1; tok BEGIN "begin" 1 9] in
  let e := SyntaxError.init "Esperado 'id', encontrado 'begin'"
                            (Some (tok BEGIN "begin" 1 9)) in
  let p' := Parser.mk (Parser.tokens (Parser.init ts)) 1 in
  let tk := Parser.peek_token p' in
  Parser.tokens p' = Parser.tokens (Parser.init ts)
  /\ SyntaxError.token e = Some tk
  /\ (In tk ts /\ Token.type tk <> NEWLINE /\ Token.type tk <> EOF
      \/ tk = Parser.end_marker)
  /\ SyntaxError.text e
     = "Erro sint" ++ a_acute ++ "tico: " ++ SyntaxError.message e
       ++ " (Token: " ++ TokenType_value (Token.type tk)
       ++ ", Linha: " ++ str_of_Z (Token.line tk) ++ ")".
Proof.
  apply (syntax_error_at_cursor
           [tok PROGRAM "program" 1 1; tok BEGIN "begin" 1 9]
           (SyntaxError.init "Esperado 'id', encontrado 'begin'"
                             (Some (tok BEGIN "begin" 1 9)))
           (Parser.mk
              (Parser.tokens
                 (Parser.init
                    [tok PROGRAM "program" 1 1; tok BEGIN "begin" 1 9]))
              1)).
  vm_compute. reflexivity.
Defined.

(** The empty token list. *)
Lemma program_keyword_required_witness :
  Parser.parse (Parser.init [])
  = Raise (SyntaxError.init "Esperado 'program', encontrado 'EOF'"
                            (Some Parser.end_marker))
          (Parser.init []).
Proof.
  apply (program_keyword_required []). vm_compute. discriminate.
Defined.

(* ===================================================================== *)
(** ** The token list of the lexer *)
(* ===================================================================== *)

Module LexerFacts.
Import Lexer LexerLogic.

Fixpoint all_chars (f : ascii -> bool) (s : string) : bool :=
  match s with
  | EmptyString => true
  | String c s' => f c && all_chars f s'
  end.

(** The characters [scan_identifier] goes on with, and those [tokenize]
    starts an identifier with. *)
Definition word_char (c : ascii) : bool := isalnum c || Ascii.eqb c "_".
Definition word_start (c : ascii) : bool := isalpha c || Ascii.eqb c "_".

Definition is_word (s : string) : bool :=
  match s with
  | EmptyString => false
  | String c s' => word_start c && all_chars word_char s'
  end.

Definition is_number (s : string) : bool :=
  match s with
  | EmptyString => false
  | String c s' => isdigit c && all_chars isdigit s'
  end.

(** [self.keywords.get(ident.lower(), TokenType.IDENTIFIER)] *)
Definition word_kind (w : string) : TokenType :=
  match dict_get keywords (lower w) with
  | Some k => k
  | None => IDENTIFIER
  end.

(** The tokens [tokenize] emits before the end of the source: kind and
    text agree. *)
Inductive well_formed : Token -> Prop :=
  | wf_newline l c : well_formed (Token.mk NEWLINE "\n" l c)
  | wf_string v l c :
      no_quote v = true -> well_formed (Token.mk STRING v l c)
  | wf_number v l c :
      is_number v = true -> well_formed (Token.mk NUMBER v l c)
  | wf_word v l c :
      is_word v = true -> well_formed (Token.mk (word_kind v) v l c)
  | wf_double v k l c :
      dict_get double_char_tokens v = Some k ->
      well_formed (Token.mk k v l c)
  | wf_single v k l c :
      dict_get single_char_tokens v = Some k ->
      well_formed (Token.mk k v l c).

Lemma dict_get_In {V} (d : list (string * V)) k v :
  dict_get d k = Some v -> In v (map snd d).
Proof.
  induction d as [|[k' v'] d IH]; simpl; [discriminate|].
  destruct (String.eqb k k'); [|auto].
  intros E. injection E as ->. now left.
Qed.

Lemma word_kind_cases w :
  word_kind w = IDENTIFIER \/ In (word_kind w) (map snd keywords).
Proof.
  unfold word_kind. destruct (dict_get keywords (lower w)) eqn:E.
  - right. eapply dict_get_In; eauto.
  - now left.
Qed.

Lemma well_formed_not_EOF tk : well_formed tk -> Token.type tk <> EOF.
Proof.
  intros H. destruct H as [| | |v l c Hw|v k l c Hd|v k l c Hd];
    cbn [Token.type]; try discriminate.
  - destruct (word_kind_cases v) as [->|Hin]; [discriminate|].
    intros E. rewrite E in Hin. simpl in Hin.
    repeat (destruct Hin as [Hin|Hin]; [discriminate Hin|]). exact Hin.
  - apply dict_get_In in Hd. intros ->. simpl in Hd.
    repeat (destruct Hd as [Hd|Hd]; [discriminate Hd|]). exact Hd.
  - apply dict_get_In in Hd. intros ->. simpl in Hd.
    repeat (destruct Hd as [Hd|Hd]; [discriminate Hd|]). exact Hd.
Qed.

Lemma all_chars_app f s1 s2 :
  all_chars f (s1 ++ s2) = all_chars f s1 && all_chars f s2.
Proof.
  induction s1 as [|c s1 IH]; simpl; [reflexivity|].
  now rewrite IH, andb_assoc.
Qed.

Lemma no_quote_app s1 s2 :
  no_quote (s1 ++ s2) = no_quote s1 && no_quote s2.
Proof.
  induction s1 as [|c s1 IH]; simpl; [reflexivity|].
  now rewrite IH, andb_assoc.
Qed.

Lemma append_nil_r s : s ++ "" = s.
Proof. induction s; simpl; congruence. Qed.

Lemma append_assoc s1 s2 s3 : (s1 ++ s2) ++ s3 = s1 ++ s2 ++ s3.
Proof. induction s1; simpl; congruence. Qed.

Lemma fst_advance lx : fst (advance lx) = peek lx.
Proof. unfold advance, peek. now destruct (is_at_end lx). Qed.

(** *** What the inner loops return *)

Lemma scan_number_loop_value f : forall value lx v lx',
  scan_number_loop f value lx = Some (v, lx') ->
  exists suffix,
    v = value ++ suffix /\ all_chars isdigit suffix = true
    /\ tokens lx' = tokens lx
    /\ (isdigit (peek lx) = true -> exists r, suffix = String (peek lx) r).
Proof.
  induction f as [|f IH]; intros value lx v lx' H; [discriminate H|].
  cbn [scan_number_loop] in H.
  destruct (isdigit (peek lx)) eqn:E.
  - pose proof (fst_advance lx) as Hch.
    pose proof (advance_tokens lx) as Htk.
    destruct (advance lx) as [ch lx1]. cbn [fst snd] in Hch, Htk.
    subst ch.
    destruct (IH _ _ _ _ H) as (s & -> & Hs & Ht & _).
    exists (String (peek lx) s). rewrite app_cons_assoc.
    split; [reflexivity|]. split; [simpl; now rewrite E|].
    split; [congruence|]. intros _. now exists s.
  - injection H as <- <-. exists "". rewrite append_nil_r.
    repeat split; auto. discriminate.
Qed.

Lemma scan_identifier_loop_value f : forall value lx v lx',
  scan_identifier_loop f value lx = Some (v, lx') ->
  exists suffix,
    v = value ++ suffix /\ all_chars word_char suffix = true
    /\ tokens lx' = tokens lx
    /\ (word_char (peek lx) = true -> exists r, suffix = String (peek lx) r).
Proof.
  induction f as [|f IH]; intros value lx v lx' H; [discriminate H|].
  cbn [scan_identifier_loop] in H. fold (word_char (peek lx)) in H.
  destruct (word_char (peek lx)) eqn:E.
  - pose proof (fst_advance lx) as Hch.
    pose proof (advance_tokens lx) as Htk.
    destruct (advance lx) as [ch lx1]. cbn [fst snd] in Hch, Htk.
    subst ch.
    destruct (IH _ _ _ _ H) as (s & -> & Hs & Ht & _).
    exists (String (peek lx) s). rewrite app_cons_assoc.
    split; [reflexivity|]. split; [simpl; now rewrite E|].
    split; [congruence|]. intros _. now exists s.
  - injection H as <- <-. exists "". rewrite append_nil_r.
    repeat split; auto. discriminate.
Qed.

Lemma scan_string_loop_value f : forall value lx v lx',
  scan_string_loop f value lx = Some (v, lx') ->
  exists suffix,
    v = value ++ suffix /\ no_quote suffix = true
    /\ tokens lx' = tokens lx.
Proof.
  induction f as [|f IH]; intros value lx v lx' H; [discriminate H|].
  cbn [scan_string_loop] in H.
  destruct (Ascii.eqb (peek lx) QUOTE) eqn:Eq; cbn [negb andb] in H.
  { injection H as <- <-. exists "". now rewrite append_nil_r. }
  destruct (is_at_end lx) eqn:Ee; cbn [negb] in H.
  { injection H as <- <-. exists "". now rewrite append_nil_r. }
  set (lx1 := if Ascii.eqb (peek lx) LF
              then mk (source lx) (tokens lx) (current lx) (line lx + 1) 1
              else lx) in H.
  assert (Hp : peek lx1 = peek lx)
    by (unfold lx1; now destruct (Ascii.eqb (peek lx) LF)).
  assert (Ht1 : tokens lx1 = tokens lx)
    by (unfold lx1; now destruct (Ascii.eqb (peek lx) LF)).
  pose proof (fst_advance lx1) as Hch.
  pose proof (advance_tokens lx1) as Htk.
  destruct (advance lx1) as [ch lx2]. cbn [fst snd] in Hch, Htk.
  subst ch. rewrite Hp in H.
  destruct (IH _ _ _ _ H) as (s & -> & Hs & Ht).
  exists (String (peek lx) s). rewrite app_cons_assoc.
  split; [reflexivity|]. split; [simpl; now rewrite Eq|congruence].
Qed.

Lemma scan_string_value f lx v lx' :
  scan_string f lx = Ok v lx' ->
  no_quote v = true /\ tokens lx' = tokens lx.
Proof.
  unfold scan_string.
  destruct (scan_string_loop f "" lx) as [[v1 lx1]|] eqn:E; [|discriminate].
  destruct (scan_string_loop_value _ _ _ _ _ E) as (s & -> & Hs & Ht).
  destruct (is_at_end lx1); [discriminate|].
  pose proof (advance_tokens lx1) as Htk.
  destruct (advance lx1) as [ch lx2]. cbn [snd] in Htk.
  intros H. injection H as <- <-. split; [assumption | congruence].
Qed.

Lemma skip_comment_loop_tokens f : forall lx lx',
  skip_comment_loop f lx = Some lx' -> tokens lx' = tokens lx.
Proof.
  induction f as [|f IH]; intros lx lx' H; [discriminate H|].
  cbn [skip_comment_loop] in H.
  destruct (negb (Ascii.eqb (peek lx) "}") && negb (is_at_end lx)).
  - rewrite (IH _ _ H). apply advance_tokens.
  - now injection H as <-.
Qed.

(** *** The list returned by the main loop *)

(** The tokens the lexer already holds stay at the front of the list; the
    tokens added are well formed, up to the final EOF token. *)
Lemma tokenize_loop_tokens f : forall lx ts lx',
  tokenize_loop f lx = Ok ts lx' ->
  ts = tokens lx'
  /\ exists body,
       ts = (tokens lx ++ body
             ++ [Token.mk EOF "" (line lx') (column lx')])%list
       /\ Forall well_formed body.
Proof.
  induction f as [|f IH]; intros lx ts lx' H; [discriminate H|].
  cbn [tokenize_loop] in H. unfold tokenize_iteration in H.
  destruct (is_at_end lx) eqn:Eend; cbn [negb] in H.
  { injection H as <- <-. split; [reflexivity|]. exists [].
    split; [|constructor].
    cbn [add_token tokens line column String.length app].
    now rewrite Z.sub_0_r. }
  cbv zeta in H.
  assert (Hsame : forall lx1,
             tokens lx1 = tokens lx ->
             tokenize_loop f lx1 = Ok ts lx' ->
             ts = tokens lx'
             /\ exists body,
                  ts = (tokens lx ++ body
                        ++ [Token.mk EOF "" (line lx') (column lx')])%list
                  /\ Forall well_formed body).
  { intros lx1 Ht H1. destruct (IH _ _ _ H1) as (E & body & Eb & Hb).
    split; [assumption|]. exists body. now rewrite <- Ht. }
  assert (Hadd : forall k v lx1,
             tokens lx1 = tokens lx ->
             (forall l c, well_formed (Token.mk k v l c)) ->
             tokenize_loop f (add_token k v lx1) = Ok ts lx' ->
             ts = tokens lx'
             /\ exists body,
                  ts = (tokens lx ++ body
                        ++ [Token.mk EOF "" (line lx') (column lx')])%list
                  /\ Forall well_formed body).
  { intros k v lx1 Ht Hwf H1.
    destruct (IH _ _ _ H1) as (E & body & Eb & Hb).
    split; [assumption|].
    exists (Token.mk k v (line lx1)
                     (column lx1 - Z.of_nat (String.length v)) :: body).
    split; [|constructor; auto].
    rewrite Eb. cbn [add_token tokens]. rewrite Ht.
    now rewrite <- app_assoc. }
  destruct (existsb (Ascii.eqb (peek lx)) [" "%char; TAB; CR]).
  { apply (Hsame _ (advance_tokens lx) H). }
  destruct (Ascii.eqb (peek lx) LF).
  { destruct (IH _ _ _ H) as (E & body & Eb & Hb).
    split; [assumption|].
    rewrite advance_tokens in Eb. cbn [add_token tokens] in Eb.
    eexists (_ :: body). split.
    - rewrite Eb, <- app_assoc. reflexivity.
    - constructor; [apply wf_newline | assumption]. }
  destruct (Ascii.eqb (peek lx) "{").
  { destruct (skip_comment_loop f (snd (advance lx))) as [lx2|] eqn:Es;
      [|discriminate H].
    destruct (is_at_end lx2); [discriminate H|].
    apply (Hsame _ (eq_trans (advance_tokens lx2)
                      (eq_trans (skip_comment_loop_tokens _ _ _ Es)
                                (advance_tokens lx))) H). }
  destruct (Ascii.eqb (peek lx) QUOTE).
  { destruct (scan_string f (snd (advance lx))) as [v lx2|e lx2|] eqn:Es;
      try discriminate H.
    destruct (scan_string_value _ _ _ _ Es) as [Hq Ht].
    apply (Hadd STRING v lx2); auto.
    - rewrite Ht. apply advance_tokens.
    - intros l c. now apply wf_string. }
  destruct (isdigit (peek lx)) eqn:Edig.
  { unfold scan_number in H.
    destruct (scan_number_loop f "" lx) as [[v lx1]|] eqn:Es;
      [|discriminate H].
    destruct (scan_number_loop_value _ _ _ _ _ Es)
      as (s & -> & Hs & Ht & Hne).
    destruct (Hne Edig) as (r & ->).
    cbn [append] in H.
    apply (Hadd NUMBER (String (peek lx) r) lx1); auto.
    intros l c. apply wf_number. exact Hs. }
  destruct (isalpha (peek lx) || Ascii.eqb (peek lx) "_") eqn:Eid.
  { unfold scan_identifier in H.
    destruct (scan_identifier_loop f "" lx) as [[v lx1]|] eqn:Es;
      [|discriminate H].
    destruct (scan_identifier_loop_value _ _ _ _ _ Es)
      as (s & -> & Hs & Ht & Hne).
    assert (Hwc : word_char (peek lx) = true).
    { unfold word_char, isalnum.
      destruct (isalpha (peek lx)); [reflexivity|].
      simpl in Eid. rewrite Eid. now rewrite orb_true_r. }
    destruct (Hne Hwc) as (r & ->).
    cbv zeta in H. cbn [append] in H.
    apply (Hadd (word_kind (String (peek lx) r)) (String (peek lx) r) lx1);
      auto.
    intros l c. apply wf_word. cbn [is_word].
    fold (word_start (peek lx)) in Eid. rewrite Eid.
    simpl in Hs. apply andb_prop in Hs. now destruct Hs as [_ ->]. }
  destruct (dict_get double_char_tokens _) as [k|] eqn:Ed.
  { eapply (Hadd k _ (snd (advance (snd (advance lx))))); [| |exact H].
    - now rewrite !advance_tokens.
    - intros l c. now apply wf_double. }
  destruct (dict_get single_char_tokens _) as [k|] eqn:E1.
  { eapply (Hadd k _ (snd (advance lx))); [| |exact H].
    - apply advance_tokens.
    - intros l c. now apply wf_single. }
  destruct (advance lx) as [unknown lx1]. discriminate H.
Qed.

(** *** Going on after an accepted text *)

(** A character that cannot join the token before it: neither a word
    character nor the second character of a two-character operator. *)
Definition boundary (c : ascii) : bool :=
  negb (word_char c) && negb (Ascii.eqb c "=") && negb (Ascii.eqb c ">").

Lemma boundary_spec c :
  boundary c = true ->
  isdigit c = false /\ isalnum c || Ascii.eqb c "_" = false
  /\ Ascii.eqb c "=" = false /\ Ascii.eqb c ">" = false.
Proof.
  unfold boundary, word_char. rewrite !andb_true_iff, !negb_true_iff.
  intros [[H1 H2] H3]. repeat split; auto.
  unfold isalnum in H1.
  destruct (isdigit c); [|reflexivity].
  now rewrite orb_true_r in H1.
Qed.

(** When [tokenize] accepts [pre], its run on [pre] followed by a boundary
    character and any text reaches the end of [pre] in the state in which
    the run on [pre] ended, the EOF token apart. *)
Lemma tokenize_resume pre c rest ts lxp :
  boundary c = true ->
  tokenize (init pre) = Ok ts lxp ->
  exists lxq f0,
    lxq = mk (pre ++ String c rest) (removelast ts) (String.length pre)
             (line lxp) (column lxp)
    /\ ts = (removelast ts
             ++ [Token.mk EOF "" (line lxp) (column lxp)])%list
    /\ unread lxq (String c rest)
    /\ forall f, f0 <= f ->
         tokenize (init (pre ++ String c rest)) = tokenize_loop f lxq.
Proof.
  intros Hb Hpre.
  destruct (boundary_spec c Hb) as (B1 & B2 & B3 & B4).
  pose proof (tokenize_finished (init pre)) as Hfin.
  rewrite Hpre in Hfin. destruct Hfin as (Hsrc & Hts & Hrem).
  unfold tokenize, tokenize_fuel in Hpre.
  cbn [source init] in Hpre, Hsrc.
  assert (Hin0 : in_source (mk pre [] 0 1 1)) by apply Nat.le_0_l.
  destruct (tokenize_loop_extend c rest B1 B2 B3 B4 _ _ ts lxp Hin0 Hpre)
    as (lxe & -> & Hend & Hin & Hext).
  destruct (Hext (S (String.length rest))) as (f3 & Hf3 & E).
  cbn [source add_token tokens line column String.length] in *.
  apply is_at_end_true in Hend. unfold remaining, in_source in *.
  destruct lxe as [src tks cur ln col].
  cbn [source tokens current line column] in *. subst src.
  assert (cur = String.length pre) by lia. subst cur.
  rewrite Z.sub_0_r in Hts. subst ts. rewrite removelast_last.
  exists (mk (pre ++ String c rest) tks (String.length pre) ln col), f3.
  split; [reflexivity|]. split; [reflexivity|]. split.
  { exists pre. split; reflexivity. }
  intros f Hf.
  assert (E0 : tokenize (init (pre ++ String c rest))
               = tokenize_loop f3
                   (mk (pre ++ String c rest) tks (String.length pre)
                       ln col)).
  { unfold tokenize, tokenize_fuel. cbn [source init].
    rewrite length_app. cbn [String.length].
    replace (String.length pre + S (String.length rest) + 2)
      with (String.length pre + 2 + S (String.length rest)) by lia.
    exact E. }
  rewrite E0. symmetry. apply (tokenize_loop_le f3 f Hf).
  rewrite <- E0. intros Hout.
  pose proof (tokenize_finished (init (pre ++ String c rest))) as Hfin.
  now rewrite Hout in Hfin.
Qed.

(** X7. The list [tokenize] returns is the list the lexer holds; it ends
    with an EOF token of empty text at the final line and column, and that
    is its only EOF token.  In every token before it kind and text agree:
    a NEWLINE has the two characters backslash and n, a STRING holds no
    double quote, a NUMBER is a non-empty run of digits, a word (a letter
    or underscore followed by letters, digits and underscores) has the
    kind of the keyword it spells in lower case and is an IDENTIFIER
    otherwise, and an operator or punctuation token has the kind its text
    has in the tables. *)
Theorem tokens_well_formed :
  forall (lx : Lexer) (ts : list Token) (lx' : Lexer),
    tokenize lx = Ok ts lx' ->
    tokens lx' = ts
    /\ exists body,
         ts = (body ++ [Token.mk EOF "" (line lx') (column lx')])%list
         /\ Forall well_formed body
         /\ Forall (fun tk => Token.type tk <> EOF) body.
Proof.
  intros lx ts lx' H. unfold tokenize, tokenize_fuel in H.
  destruct (tokenize_loop_tokens _ _ _ _ H) as (E & body & Eb & Hb).
  split; [now symmetry|]. exists body. split; [exact Eb|].
  split; [assumption|].
  eapply Forall_impl; [|exact Hb]. apply well_formed_not_EOF.
Qed.

(** X8. Tokens once emitted stay: when [tokenize] accepts [pre] and also
    accepts [pre] followed by a boundary character [c] and any text, the
    tokens of [pre] before its EOF token are the first tokens of the
    longer text. *)
Theorem emitted_tokens_stay :
  forall (pre rest : string) (c : ascii) (ts ts' : list Token)
         (lxp lx' : Lexer),
    tokenize (init pre) = Ok ts lxp ->
    boundary c = true ->
    tokenize (init (pre ++ String c rest)) = Ok ts' lx' ->
    exists more,
      ts' = (removelast ts ++ more
             ++ [Token.mk EOF "" (line lx') (column lx')])%list
      /\ Forall well_formed more.
Proof.
  intros pre rest c ts ts' lxp lx' Hpre Hb Hfull.
  destruct (tokenize_resume pre c rest ts lxp Hb Hpre)
    as (lxq & f0 & -> & _ & _ & Hrun).
  rewrite (Hrun f0 (Nat.le_refl _)) in Hfull.
  destruct (tokenize_loop_tokens _ _ _ _ Hfull) as (_ & more & E & Hm).
  exists more. split; assumption.
Qed.

(** *** One iteration of the main loop, by the character under the cursor *)

Definition blank (c : ascii) : bool :=
  existsb (Ascii.eqb c) [" "%char; TAB; CR].

(** The character is left to the operator tables by [tokenize]. *)
Definition plain (c : ascii) : bool :=
  negb (blank c) && negb (Ascii.eqb c LF) && negb (Ascii.eqb c "{")
  && negb (Ascii.eqb c QUOTE) && negb (isdigit c) && negb (word_start c).

(** A character no rule of [tokenize] accepts, and that no identifier can
    hold. *)
Definition unknown (c : ascii) : bool :=
  negb (blank c) && negb (Ascii.eqb c LF) && negb (Ascii.eqb c "{")
  && negb (Ascii.eqb c QUOTE) && negb (word_char c)
  && match dict_get single_char_tokens (str1 c) with
     | Some _ => false
     | None => true
     end.


(** The first unread character as [peek] sees it. *)
Definition head_char (t : string) : ascii :=
  match t with
  | EmptyString => NUL
  | String c _ => c
  end.

(** The state after the text [s] has been read outside a string
    literal. *)
Definition after_text (s : string) (lx : Lexer) : Lexer :=
  mk (source lx) (tokens lx) (current lx + String.length s)
     (line lx + Z.of_nat (count_LF s)) (column_after s (column lx)).

Lemma after_text_nil lx : after_text "" lx = lx.
Proof.
  destruct lx. unfold after_text.
  cbn [count_LF column_after String.length source tokens current line
       column].
  f_equal; lia.
Qed.

Lemma after_text_cons c s lx :
  after_text s (stepped c lx) = after_text (String c s) lx.
Proof.
  unfold after_text, stepped. cbn [count_LF column_after String.length].
  destruct (Ascii.eqb c LF);
    cbn [source tokens current line column]; f_equal; lia.
Qed.

Lemma unread_head lx t : unread lx t -> peek lx = head_char t.
Proof.
  destruct t as [|c t]; intros H.
  - apply peek_at_end. now apply unread_nil.
  - now apply unread_peek in H.
Qed.

Lemma unread_peek_next lx a b t :
  unread lx (String a (String b t)) -> peek_next lx = b.
Proof.
  intros (pre & Hs & Hl). unfold peek_next, char_at. rewrite Hs, <- Hl.
  rewrite length_app. cbn [String.length].
  destruct (Nat.leb_spec (String.length pre + S (S (String.length t)))
                         (String.length pre + 1)); [lia|].
  rewrite <- (app_cons_assoc pre a).
  replace (String.length pre + 1) with (String.length (pre ++ str1 a))
    by (rewrite length_app; reflexivity).
  now rewrite get_app_here.
Qed.

Lemma plain_line_feed c lx :
  Ascii.eqb c LF = false ->
  stepped c lx
  = mk (source lx) (tokens lx) (current lx + 1) (line lx) (column lx + 1).
Proof. unfold stepped. now intros ->. Qed.

Lemma class_no_line_feed (f : ascii -> bool) s col :
  f LF = false -> all_chars f s = true ->
  count_LF s = 0
  /\ column_after s col = (col + Z.of_nat (String.length s))%Z.
Proof.
  intros HLF. revert col.
  induction s as [|c s IH]; intros col H.
  - cbn [count_LF column_after String.length]. split; [reflexivity | lia].
  - cbn [all_chars] in H. apply andb_prop in H. destruct H as [Hc Hs].
    assert (Ec : Ascii.eqb c LF = false).
    { destruct (Ascii.eqb_spec c LF) as [->|]; [congruence | reflexivity]. }
    cbn [count_LF column_after String.length]. rewrite Ec.
    destruct (IH (col + 1)%Z Hs) as [E1 E2]. rewrite E1, E2.
    split; [reflexivity | lia].
Qed.


Lemma scan_identifier_loop_body w : forall t value lx fuel,
  unread lx (w ++ t) ->
  all_chars word_char w = true ->
  word_char (head_char t) = false ->
  String.length w < fuel ->
  scan_identifier_loop fuel value lx = Some (value ++ w, after_text w lx)
  /\ unread (after_text w lx) t.
Proof.
  induction w as [|c w IH]; intros t value lx fuel Hun Hw Ht Hf.
  - destruct fuel as [|f]; [simpl in Hf; lia|].
    cbn [scan_identifier_loop]. rewrite after_text_nil, append_nil_r.
    simpl in Hun. split; [|assumption].
    fold (word_char (peek lx)). now rewrite (unread_head lx t Hun), Ht.
  - destruct fuel as [|f]; [simpl in Hf; lia|].
    cbn [scan_identifier_loop]. simpl in Hun. cbn [all_chars] in Hw.
    apply andb_prop in Hw. destruct Hw as [Hc Hw].
    fold (word_char (peek lx)). rewrite (unread_peek lx _ _ Hun), Hc.
    destruct (unread_advance lx c _ Hun) as [Ea Hun2]. rewrite Ea.
    rewrite <- after_text_cons, <- app_cons_assoc.
    apply IH; auto. simpl in Hf. lia.
Qed.

Lemma scan_number_loop_body w : forall t value lx fuel,
  unread lx (w ++ t) ->
  all_chars isdigit w = true ->
  isdigit (head_char t) = false ->
  String.length w < fuel ->
  scan_number_loop fuel value lx = Some (value ++ w, after_text w lx)
  /\ unread (after_text w lx) t.
Proof.
  induction w as [|c w IH]; intros t value lx fuel Hun Hw Ht Hf.
  - destruct fuel as [|f]; [simpl in Hf; lia|].
    cbn [scan_number_loop]. rewrite after_text_nil, append_nil_r.
    simpl in Hun. split; [|assumption].
    now rewrite (unread_head lx t Hun), Ht.
  - destruct fuel as [|f]; [simpl in Hf; lia|].
    cbn [scan_number_loop]. simpl in Hun. cbn [all_chars] in Hw.
    apply andb_prop in Hw. destruct Hw as [Hc Hw].
    rewrite (unread_peek lx _ _ Hun), Hc.
    destruct (unread_advance lx c _ Hun) as [Ea Hun2]. rewrite Ea.
    rewrite <- after_text_cons, <- app_cons_assoc.
    apply IH; auto. simpl in Hf. lia.
Qed.

(** The tests of [tokenize] that come before the one a character
    passes. *)
Lemma word_start_tests c :
  word_start c = true ->
  existsb (Ascii.eqb c) [" "%char; TAB; CR] = false
  /\ Ascii.eqb c LF = false /\ Ascii.eqb c "{" = false
  /\ Ascii.eqb c QUOTE = false /\ isdigit c = false
  /\ word_char c = true.
Proof.
  destruct c as [[] [] [] [] [] [] [] []]; vm_compute; intros H;
    try discriminate H; repeat split.
Qed.

Lemma isdigit_tests c :
  isdigit c = true ->
  existsb (Ascii.eqb c) [" "%char; TAB; CR] = false
  /\ Ascii.eqb c LF = false /\ Ascii.eqb c "{" = false
  /\ Ascii.eqb c QUOTE = false /\ word_char c = true.
Proof.
  destruct c as [[] [] [] [] [] [] [] []]; vm_compute; intros H;
    try discriminate H; repeat split.
Qed.

Lemma plain_tests c :
  plain c = true ->
  existsb (Ascii.eqb c) [" "%char; TAB; CR] = false
  /\ Ascii.eqb c LF = false /\ Ascii.eqb c "{" = false
  /\ Ascii.eqb c QUOTE = false /\ isdigit c = false
  /\ isalpha c || Ascii.eqb c "_" = false.
Proof.
  unfold plain, blank, word_start.
  rewrite !andb_true_iff, !negb_true_iff. tauto.
Qed.

Lemma unknown_spec c :
  unknown c = true ->
  plain c = true /\ boundary c = true
  /\ dict_get single_char_tokens (str1 c) = None
  /\ forall d, dict_get double_char_tokens (str1 c ++ str1 d) = None.
Proof.
  destruct c as [[] [] [] [] [] [] [] []]; vm_compute; intros H;
    try discriminate H; repeat split;
    intros [[] [] [] [] [] [] [] []]; reflexivity.
Qed.

Ltac open_iteration Hun :=
  cbn [tokenize_loop]; unfold tokenize_iteration;
  rewrite (proj1 (unread_cons _ _ _ Hun)), (unread_peek _ _ _ Hun);
  cbn [negb]; cbv zeta.

Lemma iteration_end lx f :
  is_at_end lx = true ->
  tokenize_loop (S f) lx
  = Ok (tokens lx ++ [Token.mk EOF "" (line lx) (column lx)])%list
       (add_token EOF "" lx).
Proof.
  intros E. cbn [tokenize_loop]. unfold tokenize_iteration.
  rewrite E. cbn [negb]. cbv zeta.
  cbn [add_token tokens String.length]. now rewrite Z.sub_0_r.
Qed.

Lemma iteration_blank lx c t f :
  unread lx (String c t) -> blank c = true ->
  tokenize_loop (S f) lx = tokenize_loop f (stepped c lx).
Proof.
  intros Hun Hb. open_iteration Hun. unfold blank in Hb. rewrite Hb.
  now rewrite (proj1 (unread_advance _ _ _ Hun)).
Qed.



Lemma iteration_string lx body t f :
  unread lx (String QUOTE (body ++ String QUOTE t)) ->
  no_quote body = true ->
  String.length body < f ->
  let lx1 :=
    stepped QUOTE (after_string_body body (stepped QUOTE lx)) in
  tokenize_loop (S f) lx = tokenize_loop f (add_token STRING body lx1)
  /\ unread (add_token STRING body lx1) t.
Proof.
  intros Hun Hnq Hf lx1. open_iteration Hun.
  change (existsb (Ascii.eqb QUOTE) [" "%char; TAB; CR]) with false.
  change (Ascii.eqb QUOTE LF) with false.
  change (Ascii.eqb QUOTE "{") with false.
  change (Ascii.eqb QUOTE QUOTE) with true. cbv iota.
  destruct (unread_advance _ _ _ Hun) as [Ea Hun1]. rewrite Ea. cbn [snd].
  destruct (scan_string_terminated body t (stepped QUOTE lx) f Hun1 Hnq Hf)
    as [E Hun2].
  rewrite E. split; [reflexivity | exact Hun2].
Qed.

Lemma iteration_word lx c r t f :
  unread lx (String c r ++ t) ->
  is_word (String c r) = true ->
  word_char (head_char t) = false ->
  S (String.length r) < f ->
  let lx1 := add_token (word_kind (String c r)) (String c r)
                       (after_text (String c r) lx) in
  tokenize_loop (S f) lx = tokenize_loop f lx1 /\ unread lx1 t.
Proof.
  intros Hun Hw Ht Hf lx1. cbn [is_word] in Hw.
  apply andb_prop in Hw. destruct Hw as [Hc Hr].
  destruct (word_start_tests c Hc) as (T1 & T2 & T3 & T4 & T5 & T6).
  pose proof Hun as Hun'. cbn [append] in Hun'. open_iteration Hun'.
  rewrite T1, T2, T3, T4, T5. fold (word_start c). rewrite Hc.
  unfold scan_identifier.
  destruct (scan_identifier_loop_body (String c r) t "" lx f) as [E Hun1];
    auto.
  { cbn [all_chars]. now rewrite T6, Hr. }
  rewrite E. cbn [append]. split; [reflexivity | exact Hun1].
Qed.

Lemma iteration_number lx c r t f :
  unread lx (String c r ++ t) ->
  is_number (String c r) = true ->
  isdigit (head_char t) = false ->
  S (String.length r) < f ->
  let lx1 := add_token NUMBER (String c r) (after_text (String c r) lx) in
  tokenize_loop (S f) lx = tokenize_loop f lx1 /\ unread lx1 t.
Proof.
  intros Hun Hw Ht Hf lx1. pose proof Hw as Hall. cbn [is_number] in Hw.
  apply andb_prop in Hw. destruct Hw as [Hc Hr].
  destruct (isdigit_tests c Hc) as (T1 & T2 & T3 & T4 & _).
  pose proof Hun as Hun'. cbn [append] in Hun'. open_iteration Hun'.
  rewrite T1, T2, T3, T4, Hc.
  unfold scan_number.
  destruct (scan_number_loop_body (String c r) t "" lx f) as [E Hun1];
    auto.
  rewrite E. cbn [append]. split; [reflexivity | exact Hun1].
Qed.

Lemma iteration_double lx a b t k f :
  unread lx (String a (String b t)) ->
  plain a = true ->
  dict_get double_char_tokens (str1 a ++ str1 b) = Some k ->
  let lx1 := add_token k (str1 a ++ str1 b) (stepped b (stepped a lx)) in
  tokenize_loop (S f) lx = tokenize_loop f lx1 /\ unread lx1 t.
Proof.
  intros Hun Hp Hd lx1.
  destruct (plain_tests a Hp) as (T1 & T2 & T3 & T4 & T5 & T6).
  open_iteration Hun. rewrite T1, T2, T3, T4, T5, T6.
  rewrite (unread_peek_next _ _ _ _ Hun), Hd.
  destruct (unread_advance _ _ _ Hun) as [Ea Hun1]. rewrite Ea. cbn [snd].
  destruct (unread_advance _ _ _ Hun1) as [Eb Hun2]. rewrite Eb. cbn [snd].
  split; [reflexivity | exact Hun2].
Qed.

Lemma iteration_unknown lx c t f :
  unread lx (String c t) ->
  unknown c = true ->
  tokenize_loop (S f) lx
  = Raise (LexicalError.init
             ("Caractere desconhecido: '" ++ str1 c ++ "'")
             (line lx) (column lx))
          (mk (source lx) (tokens lx) (current lx + 1) (line lx)
              (column lx + 1)).
Proof.
  intros Hun Hu.
  destruct (unknown_spec c Hu) as (Hp & _ & H1 & H2).
  destruct (plain_tests c Hp) as (T1 & T2 & T3 & T4 & T5 & T6).
  open_iteration Hun. rewrite T1, T2, T3, T4, T5, T6, H2, H1.
  rewrite (proj1 (unread_advance _ _ _ Hun)).
  rewrite (plain_line_feed c lx T2). cbn [line column].
  now replace (column lx + 1 - 1)%Z with (column lx) by lia.
Qed.

Lemma unread_peek_next_head lx a t :
  unread lx (String a t) -> peek_next lx = head_char t.
Proof.
  destruct t as [|b t]; [|apply unread_peek_next].
  intros (pre & Hs & Hl). unfold peek_next. rewrite Hs, <- Hl.
  rewrite length_app. cbn [String.length head_char].
  destruct (Nat.leb_spec (String.length pre + 1) (String.length pre + 1));
    [reflexivity | lia].
Qed.

(** [tokenize] looks a symbol up in the table of the two-character
    operators first. *)
Definition operator_kind (v : string) : option TokenType :=
  match dict_get double_char_tokens v with
  | Some k => Some k
  | None => dict_get single_char_tokens v
  end.

Lemma iteration_single lx c t k f :
  unread lx (String c t) ->
  plain c = true ->
  dict_get double_char_tokens (str1 c ++ str1 (head_char t)) = None ->
  dict_get single_char_tokens (str1 c) = Some k ->
  let lx1 := add_token k (str1 c) (stepped c lx) in
  tokenize_loop (S f) lx = tokenize_loop f lx1 /\ unread lx1 t.
Proof.
  intros Hun Hp Hd Hs lx1.
  destruct (plain_tests c Hp) as (T1 & T2 & T3 & T4 & T5 & T6).
  open_iteration Hun. rewrite T1, T2, T3, T4, T5, T6.
  rewrite (unread_peek_next_head _ _ _ Hun), Hd, Hs.
  destruct (unread_advance _ _ _ Hun) as [Ea Hun1]. rewrite Ea. cbn [snd].
  split; [reflexivity | exact Hun1].
Qed.

Lemma iteration_blanks bs : forall lx f,
  unread lx bs -> all_chars blank bs = true ->
  tokenize_loop (String.length bs + f) lx
  = tokenize_loop f (after_text bs lx)
  /\ unread (after_text bs lx) "".
Proof.
  induction bs as [|c bs IH]; intros lx f Hun Hb.
  - rewrite after_text_nil. split; [reflexivity | assumption].
  - cbn [all_chars] in Hb. apply andb_prop in Hb. destruct Hb as [Hc Hb].
    cbn [String.length Nat.add].
    rewrite (iteration_blank lx c bs _ Hun Hc).
    rewrite <- after_text_cons. apply IH; [|assumption].
    now apply unread_advance in Hun.
Qed.

Lemma is_word_chars w : is_word w = true -> all_chars word_char w = true.
Proof.
  destruct w as [|c r]; [discriminate|]. cbn [is_word all_chars].
  intros H. apply andb_prop in H. destruct H as [Hc Hr].
  destruct (word_start_tests c Hc) as (_ & _ & _ & _ & _ & ->).
  exact Hr.
Qed.

Lemma is_number_chars w : is_number w = true -> all_chars isdigit w = true.
Proof. destruct w as [|c r]; [discriminate|]. trivial. Qed.

Lemma dict_get_key {V} (d : list (string * V)) k v :
  dict_get d k = Some v -> In (k, v) d.
Proof.
  induction d as [|[k' v'] d IH]; simpl; [discriminate|].
  destruct (String.eqb_spec k k') as [->|]; [|auto].
  intros E. injection E as ->. now left.
Qed.

(** *** The counters of the lexer and the position in the text *)

(** Where a reader of the text stands: in the code, inside a comment or
    inside a string literal. *)
Inductive mode : Set := Code | Comment | Literal.

(** One character of the text; the number counts the line feeds met
    inside string literals. *)
Definition step_mode (st : mode * nat) (c : ascii) : mode * nat :=
  match st with
  | (Code, n) =>
      if Ascii.eqb c "{" then (Comment, n)
      else if Ascii.eqb c QUOTE then (Literal, n)
      else (Code, n)
  | (Comment, n) =>
      if Ascii.eqb c "}" then (Code, n) else (Comment, n)
  | (Literal, n) =>
      if Ascii.eqb c QUOTE then (Code, n)
      else if Ascii.eqb c LF then (Literal, S n)
      else (Literal, n)
  end.

Fixpoint scan_modes (st : mode * nat) (s : string) : mode * nat :=
  match s with
  | EmptyString => st
  | String c s' => scan_modes (step_mode st c) s'
  end.

(** The number of line feeds inside the string literals of a text. *)
Definition literal_LF (s : string) : nat := snd (scan_modes (Code, 0) s).

(** The line and the column, in the text, of the character that follows
    [pre]: lines and columns are counted from 1. *)
Definition text_line (pre : string) : Z := 1 + Z.of_nat (count_LF pre).
Definition text_column (pre : string) : Z := column_after pre 1.

Lemma scan_modes_snoc s : forall st c,
  scan_modes st (s ++ str1 c) = step_mode (scan_modes st s) c.
Proof. induction s as [|a s IH]; intros st c; simpl; auto. Qed.

Lemma count_LF_snoc s c :
  count_LF (s ++ str1 c) = count_LF s + (if Ascii.eqb c LF then 1 else 0).
Proof.
  induction s as [|a s IH]; simpl; [lia|]. rewrite IH. lia.
Qed.

Lemma column_after_snoc s : forall c col,
  column_after (s ++ str1 c) col
  = if Ascii.eqb c LF then 1%Z else (column_after s col + 1)%Z.
Proof.
  induction s as [|a s IH]; intros c col; simpl; [reflexivity|].
  apply IH.
Qed.

(** The lexer has read [pre]: its counters are the position after [pre],
    the line being ahead by [n], the line feeds inside literals. *)
Definition tracked (m : mode) (n : nat) (lx : Lexer) : Prop :=
  exists pre t,
    source lx = pre ++ t /\ String.length pre = current lx
    /\ scan_modes (Code, 0) pre = (m, n)
    /\ line lx = (text_line pre + Z.of_nat n)%Z
    /\ column lx = text_column pre.

Lemma tracked_add_token m n k v lx :
  tracked m n lx -> tracked m n (add_token k v lx).
Proof. intros (pre & t & H). now exists pre, t. Qed.

Lemma tracked_advance_end m n lx :
  tracked m n lx -> is_at_end lx = true -> tracked m n (snd (advance lx)).
Proof. intros H E. unfold advance. now rewrite E. Qed.

Lemma tracked_advance m n m' lx :
  tracked m n lx -> is_at_end lx = false ->
  step_mode (m, n) (peek lx) = (m', n) ->
  tracked m' n (snd (advance lx)).
Proof.
  intros (pre & t & Hs & Hl & Hm & Hline & Hcol) Hend Hstep.
  destruct t as [|c t].
  { assert (Hun : unread lx "") by (exists pre; auto).
    rewrite (unread_nil lx Hun) in Hend. discriminate Hend. }
  assert (Hun : unread lx (String c t)) by (exists pre; auto).
  rewrite (unread_peek _ _ _ Hun) in Hstep.
  rewrite (proj1 (unread_advance _ _ _ Hun)). cbn [snd].
  exists (pre ++ str1 c), t.
  unfold text_line, text_column in *.
  rewrite scan_modes_snoc, Hm, Hstep, count_LF_snoc, column_after_snoc,
    length_app, app_cons_assoc.
  unfold stepped. destruct (Ascii.eqb c LF);
    cbn [source tokens current line column String.length str1];
    repeat split; auto; lia.
Qed.

(** A line feed inside a literal: [scan_string] moves the line itself and
    [advance] moves it again. *)
Lemma tracked_literal_line_feed n lx :
  tracked Literal n lx -> is_at_end lx = false -> peek lx = LF ->
  tracked Literal (S n)
    (snd (advance (mk (source lx) (tokens lx) (current lx)
                      (line lx + 1) 1))).
Proof.
  intros (pre & t & Hs & Hl & Hm & Hline & Hcol) Hend Hp.
  destruct t as [|c t].
  { assert (Hun : unread lx "") by (exists pre; auto).
    rewrite (unread_nil lx Hun) in Hend. discriminate Hend. }
  assert (Hun : unread lx (String c t)) by (exists pre; auto).
  rewrite (unread_peek _ _ _ Hun) in Hp. subst c.
  set (lxb := mk (source lx) (tokens lx) (current lx) (line lx + 1) 1).
  assert (Hunb : unread lxb (String LF t)) by (exists pre; auto).
  rewrite (proj1 (unread_advance _ _ _ Hunb)). cbn [snd].
  exists (pre ++ str1 LF), t.
  unfold text_line, text_column in *.
  rewrite scan_modes_snoc, Hm, count_LF_snoc, column_after_snoc,
    length_app, app_cons_assoc.
  unfold stepped, lxb. change (Ascii.eqb LF LF) with true.
  cbn [source tokens current line column String.length str1 step_mode].
  change (Ascii.eqb LF QUOTE) with false. change (Ascii.eqb LF LF) with true.
  cbv iota. repeat split; auto; lia.
Qed.

Lemma word_char_tests c :
  word_char c = true ->
  Ascii.eqb c "{" = false /\ Ascii.eqb c QUOTE = false
  /\ Ascii.eqb c NUL = false.
Proof.
  destruct c as [[] [] [] [] [] [] [] []]; vm_compute; intros H;
    try discriminate H; repeat split.
Qed.

Lemma blank_tests c :
  existsb (Ascii.eqb c) [" "%char; TAB; CR] = true ->
  Ascii.eqb c "{" = false /\ Ascii.eqb c QUOTE = false.
Proof.
  destruct c as [[] [] [] [] [] [] [] []]; vm_compute; intros H;
    try discriminate H; repeat split.
Qed.

Lemma double_second a b k :
  dict_get double_char_tokens (str1 a ++ str1 b) = Some k ->
  Ascii.eqb b "{" = false /\ Ascii.eqb b QUOTE = false.
Proof.
  intros H. apply dict_get_key in H. simpl in H.
  repeat (destruct H as [H|H];
          [injection H as _ <- _; split; reflexivity|]).
  destruct H.
Qed.

Lemma peek_not_at_end lx (f : ascii -> bool) :
  f NUL = false -> f (peek lx) = true -> is_at_end lx = false.
Proof.
  intros H0 H. destruct (is_at_end lx) eqn:E; [|reflexivity].
  rewrite (peek_at_end lx E), H0 in H. discriminate H.
Qed.

Lemma peek_after_advance lx :
  is_at_end lx = false -> is_at_end (snd (advance lx)) = false ->
  peek (snd (advance lx)) = peek_next lx.
Proof.
  intros H1 H2. unfold peek. rewrite H2. unfold peek_next.
  unfold is_at_end in H2.
  rewrite advance_source, advance_current, H1 in *.
  now rewrite H2.
Qed.

Lemma scan_number_loop_tracked f : forall v lx r lx' n,
  scan_number_loop f v lx = Some (r, lx') ->
  tracked Code n lx -> tracked Code n lx'.
Proof.
  induction f as [|f IH]; intros v lx r lx' n H Ht; [discriminate H|].
  cbn [scan_number_loop] in H.
  destruct (isdigit (peek lx)) eqn:E.
  - destruct (isdigit_tests _ E) as (_ & _ & T3 & T4 & _).
    assert (Hne : is_at_end lx = false)
      by (apply (peek_not_at_end lx isdigit); auto).
    assert (Ht1 : tracked Code n (snd (advance lx))).
    { apply (tracked_advance Code n Code); auto.
      cbn [step_mode]. now rewrite T3, T4. }
    destruct (advance lx) as [ch lx1]. cbn [snd] in Ht1.
    exact (IH _ _ _ _ _ H Ht1).
  - now injection H as _ <-.
Qed.

Lemma scan_identifier_loop_tracked f : forall v lx r lx' n,
  scan_identifier_loop f v lx = Some (r, lx') ->
  tracked Code n lx -> tracked Code n lx'.
Proof.
  induction f as [|f IH]; intros v lx r lx' n H Ht; [discriminate H|].
  cbn [scan_identifier_loop] in H. fold (word_char (peek lx)) in H.
  destruct (word_char (peek lx)) eqn:E.
  - destruct (word_char_tests _ E) as (T3 & T4 & _).
    assert (Hne : is_at_end lx = false)
      by (apply (peek_not_at_end lx word_char); auto).
    assert (Ht1 : tracked Code n (snd (advance lx))).
    { apply (tracked_advance Code n Code); auto.
      cbn [step_mode]. now rewrite T3, T4. }
    destruct (advance lx) as [ch lx1]. cbn [snd] in Ht1.
    exact (IH _ _ _ _ _ H Ht1).
  - now injection H as _ <-.
Qed.

Lemma skip_comment_loop_tracked f : forall lx lx' n,
  skip_comment_loop f lx = Some lx' ->
  tracked Comment n lx ->
  tracked Comment n lx'
  /\ (is_at_end lx' = true \/ Ascii.eqb (peek lx') "}" = true).
Proof.
  induction f as [|f IH]; intros lx lx' n H Ht; [discriminate H|].
  cbn [skip_comment_loop] in H.
  destruct (Ascii.eqb (peek lx) "}") eqn:Eb; cbn [negb andb] in H.
  { injection H as <-. auto. }
  destruct (is_at_end lx) eqn:Ee; cbn [negb] in H.
  { injection H as <-. auto. }
  apply (IH _ _ _ H). apply (tracked_advance Comment n Comment); auto.
  cbn [step_mode]. now rewrite Eb.
Qed.

Lemma scan_string_loop_tracked f : forall v lx r lx' n,
  scan_string_loop f v lx = Some (r, lx') ->
  tracked Literal n lx ->
  exists n',
    tracked Literal n' lx'
    /\ (is_at_end lx' = true \/ Ascii.eqb (peek lx') QUOTE = true).
Proof.
  induction f as [|f IH]; intros v lx r lx' n H Ht; [discriminate H|].
  cbn [scan_string_loop] in H.
  destruct (Ascii.eqb (peek lx) QUOTE) eqn:Eq; cbn [negb andb] in H.
  { injection H as _ <-. eauto. }
  destruct (is_at_end lx) eqn:Ee; cbn [negb] in H.
  { injection H as _ <-. eauto. }
  destruct (Ascii.eqb (peek lx) LF) eqn:El.
  - assert (Ht1 := tracked_literal_line_feed n lx Ht Ee
                     (proj1 (Ascii.eqb_eq _ _) El)).
    destruct (advance _) as [ch lx2]. cbn [snd] in Ht1.
    exact (IH _ _ _ _ _ H Ht1).
  - assert (Ht1 : tracked Literal n (snd (advance lx))).
    { apply (tracked_advance Literal n Literal); auto.
      cbn [step_mode]. now rewrite Eq, El. }
    destruct (advance lx) as [ch lx2]. cbn [snd] in Ht1.
    exact (IH _ _ _ _ _ H Ht1).
Qed.

Lemma scan_string_tracked f lx v lx' n :
  scan_string f lx = Ok v lx' ->
  tracked Literal n lx -> exists n', tracked Code n' lx'.
Proof.
  unfold scan_string. intros H Ht.
  destruct (scan_string_loop f "" lx) as [[v1 lx1]|] eqn:E;
    [|discriminate H].
  destruct (scan_string_loop_tracked _ _ _ _ _ _ E Ht)
    as (n' & Ht1 & Hexit).
  destruct (is_at_end lx1) eqn:Ee; [discriminate H|].
  destruct Hexit as [Hx|Hx]; [discriminate Hx|].
  exists n'.
  assert (Ht2 : tracked Code n' (snd (advance lx1))).
  { apply (tracked_advance Literal n' Code); auto.
    cbn [step_mode]. now rewrite Hx. }
  destruct (advance lx1) as [ch lx2]. cbn [snd] in Ht2.
  now injection H as _ <-.
Qed.

Lemma tokenize_loop_tracked f : forall lx ts lx' n,
  tokenize_loop f lx = Ok ts lx' ->
  tracked Code n lx ->
  exists n', tracked Code n' lx' /\ is_at_end lx' = true.
Proof.
  induction f as [|f IH]; intros lx ts lx' n H Ht; [discriminate H|].
  cbn [tokenize_loop] in H. unfold tokenize_iteration in H.
  destruct (is_at_end lx) eqn:Eend; cbn [negb] in H.
  { injection H as _ <-. exists n.
    split; [now apply tracked_add_token | exact Eend]. }
  cbv zeta in H.
  assert (Hcode : forall c,
             Ascii.eqb c "{" = false -> Ascii.eqb c QUOTE = false ->
             step_mode (Code, n) c = (Code, n)).
  { intros c E1 E2. cbn [step_mode]. now rewrite E1, E2. }
  destruct (existsb (Ascii.eqb (peek lx)) [" "%char; TAB; CR]) eqn:T1.
  { destruct (blank_tests _ T1) as [B1 B2].
    apply (IH _ _ _ n H). apply (tracked_advance Code n Code); auto. }
  destruct (Ascii.eqb (peek lx) LF) eqn:T2.
  { apply (IH _ _ _ n H).
    apply (tracked_advance Code n Code).
    - now apply tracked_add_token.
    - exact Eend.
    - apply Hcode.
      + change (peek (add_token NEWLINE "\n" lx)) with (peek lx).
        apply Ascii.eqb_eq in T2. now rewrite T2.
      + change (peek (add_token NEWLINE "\n" lx)) with (peek lx).
        apply Ascii.eqb_eq in T2. now rewrite T2. }
  destruct (Ascii.eqb (peek lx) "{") eqn:T3.
  { destruct (skip_comment_loop f (snd (advance lx))) as [lx2|] eqn:Es;
      [|discriminate H].
    assert (Ht1 : tracked Comment n (snd (advance lx))).
    { apply (tracked_advance Code n Comment); auto.
      cbn [step_mode]. now rewrite T3. }
    destruct (skip_comment_loop_tracked _ _ _ _ Es Ht1) as [Ht2 Hexit].
    destruct (is_at_end lx2) eqn:E2; [discriminate H|].
    destruct Hexit as [Hx|Hx]; [discriminate Hx|].
    apply (IH _ _ _ n H). apply (tracked_advance Comment n Code); auto.
    cbn [step_mode]. now rewrite Hx. }
  destruct (Ascii.eqb (peek lx) QUOTE) eqn:T4.
  { destruct (scan_string f (snd (advance lx))) as [v lx2|e lx2|] eqn:Es;
      try discriminate H.
    assert (Ht1 : tracked Literal n (snd (advance lx))).
    { apply (tracked_advance Code n Literal); auto.
      cbn [step_mode]. now rewrite T3, T4. }
    destruct (scan_string_tracked _ _ _ _ _ Es Ht1) as (n1 & Ht2).
    apply (IH _ _ _ n1 H). now apply tracked_add_token. }
  destruct (isdigit (peek lx)) eqn:T5.
  { unfold scan_number in H.
    destruct (scan_number_loop f "" lx) as [[v lx1]|] eqn:Es;
      [|discriminate H].
    apply (IH _ _ _ n H). apply tracked_add_token.
    exact (scan_number_loop_tracked _ _ _ _ _ _ Es Ht). }
  destruct (isalpha (peek lx) || Ascii.eqb (peek lx) "_") eqn:T6.
  { unfold scan_identifier in H.
    destruct (scan_identifier_loop f "" lx) as [[v lx1]|] eqn:Es;
      [|discriminate H].
    apply (IH _ _ _ n H). apply tracked_add_token.
    exact (scan_identifier_loop_tracked _ _ _ _ _ _ Es Ht). }
  assert (Ht1 : tracked Code n (snd (advance lx)))
    by (apply (tracked_advance Code n Code); auto).
  destruct (dict_get double_char_tokens _) as [k|] eqn:Ed.
  { apply (IH _ _ _ n H). apply tracked_add_token.
    destruct (is_at_end (snd (advance lx))) eqn:E1.
    - now apply tracked_advance_end.
    - apply (tracked_advance Code n Code); auto.
      rewrite (peek_after_advance lx Eend E1).
      destruct (double_second _ _ _ Ed) as [D1 D2]. now apply Hcode. }
  destruct (dict_get single_char_tokens _) as [k|] eqn:E1.
  { apply (IH _ _ _ n H). now apply tracked_add_token. }
  destruct (advance lx) as [unknown lx1]. discriminate H.
Qed.

(** After a text that [tokenize] accepts, the column of the lexer is the
    column of the next character in the text, and its line is the line of
    that character plus the number of line feeds inside the string
    literals of the text. *)
Lemma accepted_counters pre ts lxp :
  tokenize (init pre) = Ok ts lxp ->
  line lxp = (text_line pre + Z.of_nat (literal_LF pre))%Z
  /\ column lxp = text_column pre.
Proof.
  intros H. unfold tokenize, tokenize_fuel in H. cbn [source init] in H.
  pose proof (tokenize_finished (init pre)) as Hfin.
  unfold tokenize, tokenize_fuel in Hfin. cbn [source init] in Hfin.
  rewrite H in Hfin. destruct Hfin as (Hsrc & _ & _).
  assert (H0 : tracked Code 0 (mk pre [] 0 1 1)).
  { exists "", pre. repeat split. }
  destruct (tokenize_loop_tracked _ _ _ _ 0 H H0)
    as (n & (p & t & Hs & Hl & Hm & Hline & Hcol) & Hend).
  assert (Hun : unread lxp t) by (exists p; auto).
  destruct t as [|c t];
    [|rewrite (proj1 (unread_cons _ _ _ Hun)) in Hend; discriminate Hend].
  rewrite append_nil_r in Hs. rewrite Hsrc in Hs. cbn [source init] in Hs.
  subst p. unfold literal_LF. rewrite Hm. cbn [snd]. auto.
Qed.

(** *** Texts that follow an accepted text *)

(** The run of [tokenize] on an accepted text followed by a character
    that no rule accepts. *)
Lemma unknown_character_raises_run :
  forall (pre rest : string) (c : ascii) (ts : list Token) (lxp : Lexer),
    tokenize (init pre) = Ok ts lxp ->
    unknown c = true ->
    tokenize (init (pre ++ String c rest))
    = Raise (LexicalError.init
               ("Caractere desconhecido: '" ++ str1 c ++ "'")
               (line lxp) (column lxp))
            (mk (pre ++ String c rest) (removelast ts)
                (String.length pre + 1) (line lxp) (column lxp + 1)).
Proof.
  intros pre rest c ts lxp Hpre Hu.
  destruct (unknown_spec c Hu) as (_ & Hb & _).
  destruct (tokenize_resume pre c rest ts lxp Hb Hpre)
    as (lxq & f0 & -> & _ & Hun & Hrun).
  rewrite (Hrun (S f0)) by lia.
  now rewrite (iteration_unknown _ c rest f0 Hun Hu).
Qed.



(** X12. The value of a string literal is the text between the quotes as
    it stands, with nothing escaped or removed.  After a text that
    [tokenize] accepts, a literal at the end of the input adds one STRING
    token with that value; the column of the token is the column after the
    closing quote less the length of the value, and every line feed in the
    value has moved the line by two. *)
Theorem string_literal_verbatim :
  forall (pre body : string) (ts : list Token) (lxp : Lexer),
    tokenize (init pre) = Ok ts lxp ->
    no_quote body = true ->
    let l := (line lxp + 2 * Z.of_nat (count_LF body))%Z in
    let c := (column_after body (column lxp + 1) + 1)%Z in
    exists lx',
      tokenize (init (pre ++ String QUOTE (body ++ String QUOTE "")))
      = Ok (removelast ts
            ++ [Token.mk STRING body l
                         (c - Z.of_nat (String.length body));
                Token.mk EOF "" l c])%list
           lx'.
Proof.
  intros pre body ts lxp Hpre Hnq l c.
  destruct (tokenize_resume pre QUOTE (body ++ String QUOTE "") ts lxp
              eq_refl Hpre)
    as (lxq & f0 & -> & _ & Hun & Hrun).
  rewrite (Hrun (S (S (f0 + S (String.length body))))) by lia.
  destruct (iteration_string _ body "" (S (f0 + S (String.length body)))
              Hun Hnq) as [E Hun1]; [lia|].
  rewrite E. rewrite (iteration_end _ _ (unread_nil _ Hun1)).
  eexists. f_equal.
  cbn [add_token tokens line column stepped after_string_body].
  change (Ascii.eqb QUOTE LF) with false. cbv iota.
  cbn [add_token tokens line column stepped after_string_body].
  now rewrite <- app_assoc.
Qed.

(** The run of [tokenize] on an accepted text followed by a blank and a
    word. *)
Lemma word_token_run :
  forall (pre w : string) (ts : list Token) (lxp : Lexer),
    tokenize (init pre) = Ok ts lxp ->
    is_word w = true ->
    exists lx',
      tokenize (init (pre ++ String " " w))
      = Ok (removelast ts
            ++ [Token.mk (word_kind w) w (line lxp) (column lxp + 1);
                Token.mk EOF "" (line lxp)
                         (column lxp + 1 + Z.of_nat (String.length w))])%list
           lx'.
Proof.
  intros pre w ts lxp Hpre Hw.
  destruct (tokenize_resume pre " " w ts lxp eq_refl Hpre)
    as (lxq & f0 & -> & _ & Hun & Hrun).
  pose proof (is_word_chars w Hw) as Hall.
  destruct (class_no_line_feed word_char w (column lxp + 1) eq_refl Hall)
    as [HLF Hcol].
  destruct w as [|c r]; [discriminate Hw|].
  rewrite (Hrun (S (S (S (f0 + S (S (String.length r))))))) by lia.
  rewrite (iteration_blank _ " " _ _ Hun eq_refl).
  apply unread_advance in Hun. destruct Hun as [_ Hun].
  assert (Hun0 := Hun). rewrite <- (append_nil_r (String c r)) in Hun0 at 2.
  clear Hun. rename Hun0 into Hun.
  destruct (iteration_word _ c r "" (S (f0 + S (S (String.length r))))
              Hun Hw eq_refl) as [E Hun1]; [lia|].
  rewrite E. rewrite (iteration_end _ _ (unread_nil _ Hun1)).
  eexists. f_equal.
  unfold add_token, after_text, stepped.
  change (Ascii.eqb " " LF) with false. cbv iota.
  cbn [tokens line column]. rewrite HLF, Hcol, <- app_assoc.
  change (Z.of_nat 0) with 0%Z. rewrite !Z.add_0_r, Z.add_simpl_r.
  reflexivity.
Qed.

(** The run of [tokenize] on an accepted text followed by a blank and a
    run of digits. *)
Lemma number_token_run :
  forall (pre w : string) (ts : list Token) (lxp : Lexer),
    tokenize (init pre) = Ok ts lxp ->
    is_number w = true ->
    exists lx',
      tokenize (init (pre ++ String " " w))
      = Ok (removelast ts
            ++ [Token.mk NUMBER w (line lxp) (column lxp + 1);
                Token.mk EOF "" (line lxp)
                         (column lxp + 1 + Z.of_nat (String.length w))])%list
           lx'.
Proof.
  intros pre w ts lxp Hpre Hw.
  destruct (tokenize_resume pre " " w ts lxp eq_refl Hpre)
    as (lxq & f0 & -> & _ & Hun & Hrun).
  pose proof (is_number_chars w Hw) as Hall.
  destruct (class_no_line_feed isdigit w (column lxp + 1) eq_refl Hall)
    as [HLF Hcol].
  destruct w as [|c r]; [discriminate Hw|].
  rewrite (Hrun (S (S (S (f0 + S (S (String.length r))))))) by lia.
  rewrite (iteration_blank _ " " _ _ Hun eq_refl).
  apply unread_advance in Hun. destruct Hun as [_ Hun].
  assert (Hun0 := Hun). rewrite <- (append_nil_r (String c r)) in Hun0 at 2.
  clear Hun. rename Hun0 into Hun.
  destruct (iteration_number _ c r "" (S (f0 + S (S (String.length r))))
              Hun Hw eq_refl) as [E Hun1]; [lia|].
  rewrite E. rewrite (iteration_end _ _ (unread_nil _ Hun1)).
  eexists. f_equal.
  unfold add_token, after_text, stepped.
  change (Ascii.eqb " " LF) with false. cbv iota.
  cbn [tokens line column]. rewrite HLF, Hcol, <- app_assoc.
  change (Z.of_nat 0) with 0%Z. rewrite !Z.add_0_r, Z.add_simpl_r.
  reflexivity.
Qed.

Lemma operator_cases v k :
  operator_kind v = Some k ->
  (exists a b,
      v = str1 a ++ str1 b /\ plain a = true
      /\ Ascii.eqb a LF = false /\ Ascii.eqb b LF = false
      /\ dict_get double_char_tokens (str1 a ++ str1 b) = Some k)
  \/ (exists a,
        v = str1 a /\ plain a = true /\ Ascii.eqb a LF = false
        /\ dict_get double_char_tokens (str1 a ++ str1 NUL) = None
        /\ dict_get single_char_tokens (str1 a) = Some k).
Proof.
  unfold operator_kind.
  destruct (dict_get double_char_tokens v) as [k'|] eqn:Ed.
  - intros E. injection E as ->. left.
    apply dict_get_key in Ed. simpl in Ed.
    repeat (destruct Ed as [Ed|Ed];
            [injection Ed as <- <-; do 2 eexists;
             repeat split; reflexivity|]).
    destruct Ed.
  - intros Es. right.
    apply dict_get_key in Es. simpl in Es.
    repeat (destruct Es as [Es|Es];
            [injection Es as <- <-; eexists;
             repeat split; reflexivity|]).
    destruct Es.
Qed.

(** The run of [tokenize] on an accepted text followed by a blank and a
    symbol of the tables. *)
Lemma operator_token_run :
  forall (pre v : string) (k : TokenType) (ts : list Token) (lxp : Lexer),
    tokenize (init pre) = Ok ts lxp ->
    operator_kind v = Some k ->
    exists lx',
      tokenize (init (pre ++ String " " v))
      = Ok (removelast ts
            ++ [Token.mk k v (line lxp) (column lxp + 1);
                Token.mk EOF "" (line lxp)
                         (column lxp + 1 + Z.of_nat (String.length v))])%list
           lx'.
Proof.
  intros pre v k ts lxp Hpre Hk.
  destruct (tokenize_resume pre " " v ts lxp eq_refl Hpre)
    as (lxq & f0 & -> & _ & Hun & Hrun).
  rewrite (Hrun (S (S (S f0)))) by lia.
  rewrite (iteration_blank _ " " _ _ Hun eq_refl).
  apply unread_advance in Hun. destruct Hun as [_ Hun].
  rewrite (plain_line_feed " " _ eq_refl) in *.
  cbn [source tokens current line column] in *.
  destruct (operator_cases v k Hk)
    as [(a & b & -> & Hp & Ha & Hb & Hd)|(a & -> & Hp & Ha & Hd & Hs)].
  - destruct (iteration_double _ a b "" k (S f0) Hun Hp Hd) as [E Hun1].
    rewrite E. rewrite (iteration_end _ _ (unread_nil _ Hun1)).
    eexists. f_equal.
    rewrite (plain_line_feed a _ Ha), (plain_line_feed b _ Hb).
    cbn [add_token tokens line column source current String.length append
         str1].
    rewrite <- app_assoc. cbn [app].
    repeat first [reflexivity | lia | progress f_equal].
  - destruct (iteration_single _ a "" k (S f0) Hun Hp Hd Hs) as [E Hun1].
    rewrite E. rewrite (iteration_end _ _ (unread_nil _ Hun1)).
    eexists. f_equal.
    rewrite (plain_line_feed a _ Ha).
    cbn [add_token tokens line column source current String.length append
         str1].
    rewrite <- app_assoc. cbn [app].
    repeat first [reflexivity | lia | progress f_equal].
Qed.

(** The position, in the text, of what follows an accepted text and a
    blank. *)
Lemma after_blank_position pre ts lxp :
  tokenize (init pre) = Ok ts lxp ->
  line lxp = (text_line (pre ++ " ") + Z.of_nat (literal_LF pre))%Z
  /\ (column lxp + 1)%Z = text_column (pre ++ " ").
Proof.
  intros H. destruct (accepted_counters pre ts lxp H) as [Hl Hc].
  unfold text_line, text_column in *.
  change (pre ++ " ") with (pre ++ str1 " ").
  rewrite count_LF_snoc, column_after_snoc.
  change (Ascii.eqb " " LF) with false. cbv iota.
  split; lia.
Qed.

(** X9. After a text [pre] that [tokenize] accepts, a character that no
    rule accepts (and that is not a word character) makes [tokenize] raise
    "Caractere desconhecido: 'c'", whatever follows it; the lexer stops
    just after it, holding the tokens of [pre].  The error carries the
    counters of the lexer: its column is the column of the character in
    the text, and its line is the line of the character in the text plus
    the number of line feeds inside the string literals of [pre]. *)
Theorem unknown_character_raises :
  forall (pre rest : string) (c : ascii) (ts : list Token) (lxp : Lexer),
    tokenize (init pre) = Ok ts lxp ->
    unknown c = true ->
    tokenize (init (pre ++ String c rest))
    = Raise (LexicalError.init
               ("Caractere desconhecido: '" ++ str1 c ++ "'")
               (line lxp) (column lxp))
            (mk (pre ++ String c rest) (removelast ts)
                (String.length pre + 1) (line lxp) (column lxp + 1))
    /\ line lxp = (text_line pre + Z.of_nat (literal_LF pre))%Z
    /\ column lxp = text_column pre.
Proof.
  intros pre rest c ts lxp Hpre Hu. split.
  - now apply unknown_character_raises_run.
  - now apply (accepted_counters pre ts).
Qed.

(** X13. Keywords are recognised whatever their case, and the text of a
    word is kept as written.  After a text [pre] that [tokenize] accepts
    and a blank, a word at the end of the input adds one token that holds
    the word; its kind is that of the keyword the word spells in lower
    case, IDENTIFIER when there is none.  The column of the token is the
    column where the word starts in the text, and its line is the line of
    the word in the text plus the number of line feeds inside the string
    literals of [pre]. *)
Theorem word_token :
  forall (pre w : string) (ts : list Token) (lxp : Lexer),
    tokenize (init pre) = Ok ts lxp ->
    is_word w = true ->
    (exists lx',
        tokenize (init (pre ++ String " " w))
        = Ok (removelast ts
              ++ [Token.mk (word_kind w) w (line lxp) (column lxp + 1);
                  Token.mk EOF "" (line lxp)
                    (column lxp + 1 + Z.of_nat (String.length w))])%list
             lx')
    /\ line lxp = (text_line (pre ++ " ") + Z.of_nat (literal_LF pre))%Z
    /\ (column lxp + 1)%Z = text_column (pre ++ " ").
Proof.
  intros pre w ts lxp Hpre Hw. split.
  - now apply word_token_run.
  - now apply (after_blank_position pre ts).
Qed.

(** X14. After a text [pre] that [tokenize] accepts and a blank, a run of
    digits at the end of the input adds one NUMBER token that holds the
    digits.  The column of the token is the column where the run starts in
    the text, and its line is the line of the run in the text plus the
    number of line feeds inside the string literals of [pre]. *)
Theorem number_token :
  forall (pre w : string) (ts : list Token) (lxp : Lexer),
    tokenize (init pre) = Ok ts lxp ->
    is_number w = true ->
    (exists lx',
        tokenize (init (pre ++ String " " w))
        = Ok (removelast ts
              ++ [Token.mk NUMBER w (line lxp) (column lxp + 1);
                  Token.mk EOF "" (line lxp)
                    (column lxp + 1 + Z.of_nat (String.length w))])%list
             lx')
    /\ line lxp = (text_line (pre ++ " ") + Z.of_nat (literal_LF pre))%Z
    /\ (column lxp + 1)%Z = text_column (pre ++ " ").
Proof.
  intros pre w ts lxp Hpre Hw. split.
  - now apply number_token_run.
  - now apply (after_blank_position pre ts).
Qed.

(** X15. An operator or punctuation symbol is taken whole: after a text
    [pre] that [tokenize] accepts and a blank, a symbol of the tables at
    the end of the input adds one token with that text; a two-character
    operator gets its own kind and is not split into two tokens.  The
    column of the token is the column where the symbol starts in the text,
    and its line is the line of the symbol in the text plus the number of
    line feeds inside the string literals of [pre]. *)
Theorem operator_token :
  forall (pre v : string) (k : TokenType) (ts : list Token) (lxp : Lexer),
    tokenize (init pre) = Ok ts lxp ->
    operator_kind v = Some k ->
    (exists lx',
        tokenize (init (pre ++ String " " v))
        = Ok (removelast ts
              ++ [Token.mk k v (line lxp) (column lxp + 1);
                  Token.mk EOF "" (line lxp)
                    (column lxp + 1 + Z.of_nat (String.length v))])%list
             lx')
    /\ line lxp = (text_line (pre ++ " ") + Z.of_nat (literal_LF pre))%Z
    /\ (column lxp + 1)%Z = text_column (pre ++ " ").
Proof.
  intros pre v k ts lxp Hpre Hk. split.
  - now apply operator_token_run.
  - now apply (after_blank_position pre ts).
Qed.

(** X16. Blanks, tabs and carriage returns produce no token: after a text
    that [tokenize] accepts, a run of them at the end of the input leaves
    the tokens as they were, the EOF token apart, whose column grows by
    the length of the run. *)
Theorem blanks_skipped :
  forall (pre bs : string) (ts : list Token) (lxp : Lexer),
    tokenize (init pre) = Ok ts lxp ->
    all_chars blank bs = true ->
    exists lx',
      tokenize (init (pre ++ bs))
      = Ok (removelast ts
            ++ [Token.mk EOF "" (line lxp)
                  (column lxp + Z.of_nat (String.length bs))])%list
           lx'.
Proof.
  intros pre bs ts lxp Hpre Hb.
  destruct bs as [|c bs].
  { destruct (tokenize_resume pre " " "" ts lxp eq_refl Hpre)
      as (_ & _ & _ & Hts & _).
    exists lxp. rewrite append_nil_r, Hpre. cbn [String.length Z.of_nat].
    rewrite Z.add_0_r. now rewrite <- Hts. }
  assert (Hbc : boundary c = true).
  { cbn [all_chars] in Hb. apply andb_prop in Hb. destruct Hb as [Hc _].
    revert Hc. clear.
    destruct c as [[] [] [] [] [] [] [] []]; vm_compute; intros H;
      try discriminate H; reflexivity. }
  destruct (tokenize_resume pre c bs ts lxp Hbc Hpre)
    as (lxq & f0 & -> & _ & Hun & Hrun).
  destruct (class_no_line_feed blank (String c bs) (column lxp) eq_refl Hb)
    as [HLF Hcol].
  rewrite (Hrun (String.length (String c bs) + S f0)) by lia.
  destruct (iteration_blanks (String c bs) _ (S f0) Hun Hb) as [E Hun1].
  rewrite E. rewrite (iteration_end _ _ (unread_nil _ Hun1)).
  eexists. f_equal.
  unfold after_text. cbn [tokens line column]. rewrite HLF, Hcol.
  do 3 f_equal. lia.
Qed.

(** *** The errors of the lexer *)

(** The errors [tokenize] raises, by the state [lx'] in which the lexer is
    left. *)
Inductive lexical_error (lx' : Lexer) : LexicalError -> Prop :=
  | open_string :
      is_at_end lx' = true ->
      lexical_error lx'
        (LexicalError.init ("String n" ++ a_tilde ++ "o terminada")
                           (line lx') (column lx'))
  | open_comment :
      is_at_end lx' = true ->
      lexical_error lx'
        (LexicalError.init
           ("Coment" ++ a_acute ++ "rio n" ++ a_tilde ++ "o terminado")
           (line lx') (column lx'))
  | unknown_char c :
      plain c = true ->
      dict_get single_char_tokens (str1 c) = None ->
      0 < current lx' ->
      c = char_at (source lx') (current lx' - 1) ->
      lexical_error lx'
        (LexicalError.init ("Caractere desconhecido: '" ++ str1 c ++ "'")
                           (line lx') (column lx' - 1)).

Lemma scan_string_error f lx e lx' :
  scan_string f lx = Raise e lx' ->
  is_at_end lx' = true
  /\ e = LexicalError.init ("String n" ++ a_tilde ++ "o terminada")
                           (line lx') (column lx').
Proof.
  unfold scan_string.
  destruct (scan_string_loop f "" lx) as [[v lx1]|]; [|discriminate].
  destruct (is_at_end lx1) eqn:E.
  - intros H. injection H as <- <-. auto.
  - destruct (advance lx1). discriminate.
Qed.

Lemma tokenize_loop_error f : forall lx e lx',
  tokenize_loop f lx = Raise e lx' -> lexical_error lx' e.
Proof.
  induction f as [|f IH]; intros lx e lx' H; [discriminate H|].
  cbn [tokenize_loop] in H. unfold tokenize_iteration in H.
  destruct (is_at_end lx) eqn:Eend; cbn [negb] in H; [discriminate H|].
  cbv zeta in H.
  destruct (existsb (Ascii.eqb (peek lx)) [" "%char; TAB; CR]) eqn:T1;
    [exact (IH _ _ _ H)|].
  destruct (Ascii.eqb (peek lx) LF) eqn:T2; [exact (IH _ _ _ H)|].
  destruct (Ascii.eqb (peek lx) "{") eqn:T3.
  { destruct (skip_comment_loop f (snd (advance lx))) as [lx2|];
      [|discriminate H].
    destruct (is_at_end lx2) eqn:E2; [|exact (IH _ _ _ H)].
    injection H as <- <-. now apply open_comment. }
  destruct (Ascii.eqb (peek lx) QUOTE) eqn:T4.
  { destruct (scan_string f (snd (advance lx))) as [v lx2|e2 lx2|] eqn:Es;
      [exact (IH _ _ _ H)| |discriminate H].
    injection H as <- <-.
    destruct (scan_string_error _ _ _ _ Es) as [E ->].
    now apply open_string. }
  destruct (isdigit (peek lx)) eqn:T5.
  { unfold scan_number in H.
    destruct (scan_number_loop f "" lx) as [[v lx1]|];
      [exact (IH _ _ _ H) | discriminate H]. }
  destruct (isalpha (peek lx) || Ascii.eqb (peek lx) "_") eqn:T6.
  { unfold scan_identifier in H.
    destruct (scan_identifier_loop f "" lx) as [[v lx1]|];
      [exact (IH _ _ _ H) | discriminate H]. }
  destruct (dict_get double_char_tokens _) eqn:Ed; [exact (IH _ _ _ H)|].
  destruct (dict_get single_char_tokens _) eqn:E1; [exact (IH _ _ _ H)|].
  assert (Hp : peek lx = char_at (source lx) (current lx))
    by (unfold peek; now rewrite Eend).
  unfold advance in H. rewrite Eend in H. cbn [negb] in H. cbv zeta in H.
  rewrite <- Hp, T2 in H. cbn [source tokens current line column] in H.
  injection H as <- <-.
  match goal with
  | |- lexical_error ?l _ =>
      change (lexical_error l
                (LexicalError.init
                   ("Caractere desconhecido: '" ++ str1 (peek lx) ++ "'")
                   (line l) (column l - 1)))
  end.
  apply unknown_char; cbn [source current]; auto.
  - unfold plain, blank, word_start. now rewrite T1, T2, T3, T4, T5, T6.
  - lia.
  - now rewrite Nat.add_sub.
Qed.

(** X18. [tokenize] raises three errors only, and the source is unchanged
    when it does: "String não terminada" and "Comentário não terminado",
    raised at the end of the source with the line and column the lexer
    has there, and "Caractere desconhecido: 'c'" for the character [c]
    just before the cursor, which none of the rules accepts, with the line
    of the lexer and its column less one. *)
Theorem lexical_error_cases :
  forall (lx : Lexer) (e : LexicalError) (lx' : Lexer),
    tokenize lx = Raise e lx' ->
    source lx' = source lx /\ lexical_error lx' e.
Proof.
  intros lx e lx' H. split.
  - pose proof (tokenize_finished lx) as Hfin. now rewrite H in Hfin.
  - unfold tokenize, tokenize_fuel in H. exact (tokenize_loop_error _ _ _ _ H).
Qed.

End LexerFacts.

(** *** Instances *)

(** The text [x := ], its tokens, and the lexer after [tokenize]. *)
Definition assign_source : string := "x := ".

Definition assign_tokens : list Token :=
  [tok IDENTIFIER "x" 1 1; tok ASSIGN ":=" 1 3; tok EOF "" 1 6].

Definition assign_lexer : Lexer := Lexer.mk assign_source assign_tokens 5 1 6.

Lemma tokens_well_formed_witness :
  Lexer.tokens assign_lexer = assign_tokens
  /\ exists body,
       assign_tokens
       = (body ++ [Token.mk EOF "" (Lexer.line assign_lexer)
                            (Lexer.column assign_lexer)])%list
       /\ Forall LexerFacts.well_formed body
       /\ Forall (fun tk => Token.type tk <> EOF) body.
Proof.
  apply (LexerFacts.tokens_well_formed
           (Lexer.init assign_source) assign_tokens assign_lexer).
  vm_compute. reflexivity.
Defined.

Lemma emitted_tokens_stay_witness :
  exists more,
    [tok IDENTIFIER "x" 1 1; tok ASSIGN ":=" 1 3; tok NUMBER "1" 1 7;
     tok EOF "" 1 8]
    = (removelast assign_tokens ++ more
       ++ [Token.mk EOF "" 1 8])%list
    /\ Forall LexerFacts.well_formed more.
Proof.
  apply (LexerFacts.emitted_tokens_stay
           assign_source "1" " " assign_tokens
           [tok IDENTIFIER "x" 1 1; tok ASSIGN ":=" 1 3;
            tok NUMBER "1" 1 7; tok EOF "" 1 8]
           assign_lexer
           (Lexer.mk "x :=  1"
              [tok IDENTIFIER "x" 1 1; tok ASSIGN ":=" 1 3;
               tok NUMBER "1" 1 7; tok EOF "" 1 8]
              7 1 8)).
  - vm_compute. reflexivity.
  - reflexivity.
  - vm_compute. reflexivity.
Defined.

(** A string literal that spans two lines: the text after it is on line
    2, and the lexer counts line 3. *)
Definition literal_source : string :=
  str1 QUOTE ++ "a" ++ str1 LF ++ "b" ++ str1 QUOTE.

Definition literal_tokens : list Token :=
  [tok STRING ("a" ++ str1 LF ++ "b") 3 0; tok EOF "" 3 3].

Definition literal_lexer : Lexer :=
  Lexer.mk literal_source literal_tokens 5 3 3.

Lemma unknown_character_raises_witness :
  Lexer.tokenize (Lexer.init (literal_source ++ "@y"))
  = Raise (LexicalError.init "Caractere desconhecido: '@'" 3 3)
          (Lexer.mk (literal_source ++ "@y") (removelast literal_tokens)
                    6 3 4)
  /\ 3%Z = (LexerFacts.text_line literal_source
            + Z.of_nat (LexerFacts.literal_LF literal_source))%Z
  /\ 3%Z = LexerFacts.text_column literal_source.
Proof.
  apply (LexerFacts.unknown_character_raises
           literal_source "y" "@" literal_tokens literal_lexer).
  - vm_compute. reflexivity.
  - reflexivity.
Defined.



Lemma string_literal_verbatim_witness :
  exists lx',
    Lexer.tokenize
      (Lexer.init
         (assign_source ++ String QUOTE ("a\b" ++ String QUOTE "")))
    = Ok (removelast assign_tokens
          ++ [Token.mk STRING "a\b" 1 8; Token.mk EOF "" 1 11])%list
         lx'.
Proof.
  apply (LexerFacts.string_literal_verbatim
           assign_source "a\b" assign_tokens assign_lexer).
  - vm_compute. reflexivity.
  - reflexivity.
Defined.

Lemma word_token_witness :
  (exists lx',
      Lexer.tokenize (Lexer.init (literal_source ++ " Begin"))
      = Ok (removelast literal_tokens
            ++ [Token.mk BEGIN "Begin" 3 4; Token.mk EOF "" 3 9])%list
           lx')
  /\ 3%Z = (LexerFacts.text_line (literal_source ++ " ")
            + Z.of_nat (LexerFacts.literal_LF literal_source))%Z
  /\ (3 + 1)%Z = LexerFacts.text_column (literal_source ++ " ").
Proof.
  apply (LexerFacts.word_token
           literal_source "Begin" literal_tokens literal_lexer).
  - vm_compute. reflexivity.
  - reflexivity.
Defined.

Lemma number_token_witness :
  (exists lx',
      Lexer.tokenize (Lexer.init (literal_source ++ " 42"))
      = Ok (removelast literal_tokens
            ++ [Token.mk NUMBER "42" 3 4; Token.mk EOF "" 3 6])%list
           lx')
  /\ 3%Z = (LexerFacts.text_line (literal_source ++ " ")
            + Z.of_nat (LexerFacts.literal_LF literal_source))%Z
  /\ (3 + 1)%Z = LexerFacts.text_column (literal_source ++ " ").
Proof.
  apply (LexerFacts.number_token
           literal_source "42" literal_tokens literal_lexer).
  - vm_compute. reflexivity.
  - reflexivity.
Defined.

Lemma operator_token_witness :
  (exists lx',
      Lexer.tokenize (Lexer.init (literal_source ++ " <="))
      = Ok (removelast literal_tokens
            ++ [Token.mk LESS_EQUAL "<=" 3 4; Token.mk EOF "" 3 6])%list
           lx')
  /\ 3%Z = (LexerFacts.text_line (literal_source ++ " ")
            + Z.of_nat (LexerFacts.literal_LF literal_source))%Z
  /\ (3 + 1)%Z = LexerFacts.text_column (literal_source ++ " ").
Proof.
  apply (LexerFacts.operator_token
           literal_source "<=" LESS_EQUAL literal_tokens literal_lexer).
  - vm_compute. reflexivity.
  - reflexivity.
Defined.

Lemma blanks_skipped_witness :
  exists lx',
    Lexer.tokenize (Lexer.init (assign_source ++ "  "))
    = Ok (removelast assign_tokens ++ [Token.mk EOF "" 1 8])%list lx'.
Proof.
  apply (LexerFacts.blanks_skipped
           assign_source "  " assign_tokens assign_lexer).
  - vm_compute. reflexivity.
  - reflexivity.
Defined.

(* ===================================================================== *)
(** ** Precedence and associativity in the trees of expressions *)
(* ===================================================================== *)

Module Precedence.
Import Parser ParserLogic.
Local Open Scope parser_scope.

Notation slice := Derivation.slice.

(** The trees of the three levels of [parse_E_factor], [parse_E_term] and
    [parse_E_expr], each with the tokens it is read from.  A factor is an
    operand, a minus sign and a factor, or a sum between parentheses (the
    node [parse_E_expr] makes for it; the parentheses are read and not
    kept).  A term is a factor, or a term, [*] or [/], and a factor.  A
    sum is a term, or a sum, [+] or [-], and a term. *)
Inductive factor_of : list Token -> TreeNode -> Prop :=
  | factor_id tk :
      Token.type tk = IDENTIFIER -> factor_of [tk] (leaf "id" tk)
  | factor_num tk :
      Token.type tk = NUMBER -> factor_of [tk] (leaf "num" tk)
  | factor_neg tk ts f :
      Token.type tk = MINUS -> factor_of ts f ->
      factor_of (tk :: ts) (TreeNode.mk "E" None [leaf "-" tk; f])
  | factor_paren l r ts s :
      Token.type l = LEFT_PAREN -> Token.type r = RIGHT_PAREN ->
      sum_of ts s ->
      factor_of (l :: ts ++ [r]) (TreeNode.mk "E" None [s])
with term_of : list Token -> TreeNode -> Prop :=
  | term_factor ts f : factor_of ts f -> term_of ts f
  | term_mul ts1 tk ts2 l r :
      term_of ts1 l ->
      TokenType_in (Token.type tk) [MULTIPLY; DIVIDE] = true ->
      factor_of ts2 r ->
      term_of (ts1 ++ tk :: ts2)
              (TreeNode.mk "E" None
                 [l; leaf (TokenType_value (Token.type tk)) tk; r])
with sum_of : list Token -> TreeNode -> Prop :=
  | sum_term ts t : term_of ts t -> sum_of ts t
  | sum_add ts1 tk ts2 l r :
      sum_of ts1 l ->
      TokenType_in (Token.type tk) [PLUS; MINUS] = true ->
      term_of ts2 r ->
      sum_of (ts1 ++ tk :: ts2)
             (TreeNode.mk "E" None
                [l; leaf (TokenType_value (Token.type tk)) tk; r]).

(** The node [parse_E_expr] returns for the tokens [ts]: an [E] node
    around the sum read from [ts]. *)
Definition expression_of (ts : list Token) (t : TreeNode) : Prop :=
  exists s, t = TreeNode.mk "E" None [s] /\ sum_of ts s.

Lemma slice_cons toks c c' tk :
  nth_error toks c = Some tk -> c < c' ->
  slice toks c c' = tk :: slice toks (S c) c'.
Proof.
  intros Hn Hlt. rewrite (Derivation.slice_app toks c (S c) c') by lia.
  now rewrite (Derivation.slice_one toks c tk Hn).
Qed.

Lemma slice_snoc toks c c' tk :
  nth_error toks c' = Some tk -> c <= c' ->
  slice toks c (S c') = (slice toks c c' ++ [tk])%list.
Proof.
  intros Hn Hle. rewrite (Derivation.slice_app toks c c' (S c')) by lia.
  now rewrite (Derivation.slice_one toks c' tk Hn).
Qed.

Section Expressions.

Variable toks : list Token.
Hypothesis toks_eof : Token.type (last toks end_marker) = EOF.

(** A procedure started at [c] returns at a later cursor [c'] a tree that
    [P] relates to the tokens from [c] up to [c']. *)
Definition reads (P : list Token -> TreeNode -> Prop) (m : M TreeNode)
    : Prop :=
  forall c, c < List.length toks ->
    wp m (mk toks c)
       (fun t p' => exists c', p' = mk toks c' /\ c < c'
                               /\ c' < List.length toks
                               /\ P (slice toks c c') t)
       (fun _ _ => True) True.

(** A loop entered at [c] with the tree of the tokens from [c0] up to [c]
    returns the tree of the tokens from [c0] up to the final cursor. *)
Definition extends_left (P : list Token -> TreeNode -> Prop)
    (m : TreeNode -> M TreeNode) : Prop :=
  forall left c0 c, c0 < c -> c < List.length toks ->
    P (slice toks c0 c) left ->
    wp (m left) (mk toks c)
       (fun t p' => exists c', p' = mk toks c' /\ c <= c'
                               /\ c' < List.length toks
                               /\ P (slice toks c0 c') t)
       (fun _ _ => True) True.

Ltac call H :=
  eapply wp_bind_call;
  [ apply H; lia
  | cbv beta; intros ?t ?p (?c & -> & ?Hlt & ?Hlen & ?Hd)
  | intros; exact I
  | intros; exact I ].

Lemma parse_E_factor_body_reads pEe pEf :
  reads expression_of pEe -> reads factor_of pEf ->
  reads factor_of (parse_E_factor_body pEe pEf).
Proof.
  intros HEe HEf c Hc. unfold parse_E_factor_body. apply wp_peek_at.
  set (tk := peek_token (mk toks c)).
  destruct (TokenType_eqb (Token.type tk) MINUS) eqn:E1.
  { apply TokenType_eqb_eq in E1.
    apply (wp_advance_at toks toks_eof); [lia | fold tk; congruence|].
    fold tk. intros Hlt Hn. cbv zeta. call HEf.
    apply wp_ret. exists c0. split; [reflexivity|]. split; [lia|].
    split; [assumption|].
    rewrite (slice_cons toks c c0 tk Hn) by lia.
    now apply factor_neg. }
  destruct (TokenType_eqb (Token.type tk) LEFT_PAREN) eqn:E2.
  { apply TokenType_eqb_eq in E2.
    apply (wp_advance_at toks toks_eof); [lia | fold tk; congruence|].
    fold tk. intros Hlt Hn. call HEe.
    apply (wp_expect_at toks toks_eof);
      [lia | discriminate | | intros; exact I].
    intros Hty Hlt2 Hn2. apply wp_ret.
    exists (S c0). split; [reflexivity|]. split; [lia|].
    split; [assumption|].
    destruct Hd as (s & -> & Hs).
    rewrite (slice_cons toks c (S c0) tk Hn) by lia.
    rewrite (slice_snoc toks (S c) c0 _ Hn2) by lia.
    now apply factor_paren. }
  destruct (TokenType_eqb (Token.type tk) IDENTIFIER) eqn:E3.
  { apply TokenType_eqb_eq in E3.
    apply (wp_advance_at toks toks_eof); [lia | fold tk; congruence|].
    fold tk. intros Hlt Hn. apply wp_ret.
    exists (S c). split; [reflexivity|]. split; [lia|].
    split; [assumption|].
    rewrite (Derivation.slice_one toks c tk Hn). now apply factor_id. }
  destruct (TokenType_eqb (Token.type tk) NUMBER) eqn:E4.
  { apply TokenType_eqb_eq in E4.
    apply (wp_advance_at toks toks_eof); [lia | fold tk; congruence|].
    fold tk. intros Hlt Hn. apply wp_ret.
    exists (S c). split; [reflexivity|]. split; [lia|].
    split; [assumption|].
    rewrite (Derivation.slice_one toks c tk Hn). now apply factor_num. }
  apply wp_raise. exact I.
Qed.

Lemma parse_E_term_loop_body_reads pEf pEtl :
  reads factor_of pEf -> extends_left term_of pEtl ->
  extends_left term_of (parse_E_term_loop_body pEf pEtl).
Proof.
  intros HEf HEtl left c0 c H0 Hc Hleft.
  unfold parse_E_term_loop_body. apply wp_peek_at.
  set (tk := peek_token (mk toks c)).
  destruct (TokenType_in (Token.type tk) [MULTIPLY; DIVIDE]) eqn:E.
  - apply (wp_advance_at toks toks_eof);
      [lia | fold tk; eapply ne_eof_in; [eassumption | reflexivity]|].
    fold tk. intros Hlt Hn. call HEf. cbv zeta.
    eapply wp_conseq;
      [ apply (HEtl _ c0 c1); [lia | lia |]
      | cbv beta; intros t' p' (c' & -> & Hle & Hlen' & Hd'); exists c';
        repeat split; auto; lia
      | auto | auto ].
    rewrite (Derivation.slice_app toks c0 c c1) by lia.
    rewrite (slice_cons toks c c1 tk Hn) by lia.
    now apply term_mul.
  - apply wp_ret. exists c. repeat split; auto.
Qed.

Lemma parse_E_term_body_reads pEf pEtl :
  reads factor_of pEf -> extends_left term_of pEtl ->
  reads term_of (parse_E_term_body pEf pEtl).
Proof.
  intros HEf HEtl c Hc. unfold parse_E_term_body. call HEf.
  eapply wp_conseq;
    [ apply (HEtl _ c c0); [lia | lia | now apply term_factor]
    | cbv beta; intros t' p' (c' & -> & Hle & Hlen' & Hd'); exists c';
      repeat split; auto; lia
    | auto | auto ].
Qed.

Lemma parse_E_expr_loop_body_reads pEt pEel :
  reads term_of pEt -> extends_left sum_of pEel ->
  extends_left sum_of (parse_E_expr_loop_body pEt pEel).
Proof.
  intros HEt HEel left c0 c H0 Hc Hleft.
  unfold parse_E_expr_loop_body. apply wp_peek_at.
  set (tk := peek_token (mk toks c)).
  destruct (TokenType_in (Token.type tk) [PLUS; MINUS]) eqn:E.
  - apply (wp_advance_at toks toks_eof);
      [lia | fold tk; eapply ne_eof_in; [eassumption | reflexivity]|].
    fold tk. intros Hlt Hn. call HEt. cbv zeta.
    eapply wp_conseq;
      [ apply (HEel _ c0 c1); [lia | lia |]
      | cbv beta; intros t' p' (c' & -> & Hle & Hlen' & Hd'); exists c';
        repeat split; auto; lia
      | auto | auto ].
    rewrite (Derivation.slice_app toks c0 c c1) by lia.
    rewrite (slice_cons toks c c1 tk Hn) by lia.
    now apply sum_add.
  - apply wp_ret. exists c. repeat split; auto.
Qed.

Lemma parse_E_expr_body_reads pEt pEel :
  reads term_of pEt -> extends_left sum_of pEel ->
  reads expression_of (parse_E_expr_body pEt pEel).
Proof.
  intros HEt HEel c Hc. unfold parse_E_expr_body. cbv zeta. call HEt.
  eapply wp_bind_call;
    [ apply (HEel _ c c0); [lia | lia | now apply sum_term]
    | cbv beta; intros s p' (c' & -> & Hle & Hlen' & Hd')
    | intros; exact I
    | intros; exact I ].
  apply wp_ret. exists c'. split; [reflexivity|]. split; [lia|].
  split; [assumption|]. now exists s.
Qed.

Definition all_reads (f : nat) : Prop :=
  reads expression_of (parse_E f)
  /\ reads expression_of (parse_E_expr f)
  /\ extends_left sum_of (parse_E_expr_loop f)
  /\ reads term_of (parse_E_term f)
  /\ extends_left term_of (parse_E_term_loop f)
  /\ reads factor_of (parse_E_factor f).

Lemma parse_reads : forall f, all_reads f.
Proof.
  induction f as [|f IH].
  - unfold all_reads, reads, extends_left, wp. cbn. tauto.
  - destruct IH as (HE & HEe & HEel & HEt & HEtl & HEf).
    unfold all_reads. repeat apply conj.
    + exact HEe.
    + exact (parse_E_expr_body_reads _ _ HEt HEel).
    + exact (parse_E_expr_loop_body_reads _ _ HEt HEel).
    + exact (parse_E_term_body_reads _ _ HEf HEtl).
    + exact (parse_E_term_loop_body_reads _ _ HEf HEtl).
    + exact (parse_E_factor_body_reads _ _ HEe HEf).
Qed.

End Expressions.

(** X17. The tree [parse_E] returns is read off the tokens it consumes by
    the three nested levels, parentheses included.  On the token list of
    any parser the constructor builds, from any cursor [c], a returned
    tree is an [E] node around the sum of exactly the tokens from [c] up
    to the final cursor: a sum is a sum, [+] or [-], and a term, so these
    operators associate to the left; a term is a term, [*] or [/], and a
    factor, so [*] and [/] bind tighter than [+] and [-]; a factor is an
    operand, a minus sign and a factor, or a sum between a left and a
    right parenthesis. *)
Theorem expression_derivation :
  forall (ts : list Token) (fuel c : nat) (t : TreeNode) (p' : Parser),
    c < List.length (tokens (init ts)) ->
    parse_E fuel (mk (tokens (init ts)) c) = Ok t p' ->
    exists c',
      p' = mk (tokens (init ts)) c' /\ c < c'
      /\ c' < List.length (tokens (init ts))
      /\ expression_of (slice (tokens (init ts)) c c') t.
Proof.
  intros ts fuel c t p' Hc H.
  destruct (parse_reads (tokens (init ts)) (ParserFacts.init_eof ts) fuel)
    as (HE & _).
  specialize (HE c Hc). unfold wp in HE. now rewrite H in HE.
Qed.

(** *** The trees of [2 * 3 + 4] *)

Definition product_sum_tokens : list Token :=
  [ tok NUMBER "2" 1 1; tok MULTIPLY "*" 1 3; tok NUMBER "3" 1 5;
    tok PLUS "+" 1 7; tok NUMBER "4" 1 9 ].

(** The product first: the tree [parse_E] returns. *)
Definition product_sum_tree : TreeNode :=
  inner "E"
    [ inner "E"
        [ inner "E" [ leaf "num" (tok NUMBER "2" 1 1);
                      leaf "*" (tok MULTIPLY "*" 1 3);
                      leaf "num" (tok NUMBER "3" 1 5) ];
          leaf "+" (tok PLUS "+" 1 7);
          leaf "num" (tok NUMBER "4" 1 9) ] ].

(** The sum first, as for [2 * (3 + 4)]. *)
Definition sum_first_tree : TreeNode :=
  inner "E"
    [ inner "E"
        [ leaf "num" (tok NUMBER "2" 1 1);
          leaf "*" (tok MULTIPLY "*" 1 3);
          inner "E"
            [ inner "E" [ leaf "num" (tok NUMBER "3" 1 5);
                          leaf "+" (tok PLUS "+" 1 7);
                          leaf "num" (tok NUMBER "4" 1 9) ] ] ] ].

(** The tokens of [2 * 3 + 4] are read as the product first, and cannot be
    read as the sum first: the inner sum would need parentheses. *)
Lemma product_sum_read :
  expression_of product_sum_tokens product_sum_tree
  /\ ~ expression_of product_sum_tokens sum_first_tree.
Proof.
  split.
  - eexists. split; [reflexivity|].
    apply (sum_add [tok NUMBER "2" 1 1; tok MULTIPLY "*" 1 3;
                    tok NUMBER "3" 1 5]
                   (tok PLUS "+" 1 7) [tok NUMBER "4" 1 9]
                   (inner "E" [leaf "num" (tok NUMBER "2" 1 1);
                               leaf "*" (tok MULTIPLY "*" 1 3);
                               leaf "num" (tok NUMBER "3" 1 5)])
                   (leaf "num" (tok NUMBER "4" 1 9))); [|reflexivity|].
    + apply sum_term.
      apply (term_mul [tok NUMBER "2" 1 1] (tok MULTIPLY "*" 1 3)
                      [tok NUMBER "3" 1 5]
                      (leaf "num" (tok NUMBER "2" 1 1))
                      (leaf "num" (tok NUMBER "3" 1 5))); [|reflexivity|].
      * apply term_factor. now apply factor_num.
      * now apply factor_num.
    + apply term_factor. now apply factor_num.
  - intros (s & E & Hs). injection E as <-.
    inversion Hs as [ts t Ht|ts1 tk ts2 l r Hl Hop Hr]; subst.
    + inversion Ht as [ts f Hf|ts1 tk ts2 l r Hl Hop Hr]; subst.
      * inversion Hf.
      * inversion Hl as [ts f Hf|]; subst. inversion Hf; subst.
        cbn [app] in *.
        match goal with
        | H : _ :: _ :: _ = product_sum_tokens |- _ =>
            unfold product_sum_tokens in H; injection H; intros; subst
        end.
        inversion Hr as [| | |l0 r0 ts0 s0 Hl0 Hr0 Hs0]; subst.
        discriminate Hl0.
    + discriminate Hop.
Qed.

End Precedence.

Lemma expression_derivation_witness :
  exists c',
    Parser.mk (Parser.tokens (Parser.init Precedence.product_sum_tokens)) 5
    = Parser.mk (Parser.tokens (Parser.init Precedence.product_sum_tokens))
                c'
    /\ 0 < c'
    /\ c' < List.length
              (Parser.tokens (Parser.init Precedence.product_sum_tokens))
    /\ Precedence.expression_of
         (Derivation.slice
            (Parser.tokens (Parser.init Precedence.product_sum_tokens))
            0 c')
         Precedence.product_sum_tree.
Proof.
  apply (Precedence.expression_derivation
           Precedence.product_sum_tokens 20 0 Precedence.product_sum_tree
           (Parser.mk
              (Parser.tokens (Parser.init Precedence.product_sum_tokens))
              5)).
  - vm_compute. lia.
  - vm_compute. reflexivity.
Defined.

Lemma lexical_error_cases_witness :
  let lx' := Lexer.mk (assign_source ++ "@y") (removelast assign_tokens)
                      6 1 7 in
  Lexer.source lx' = Lexer.source (Lexer.init (assign_source ++ "@y"))
  /\ LexerFacts.lexical_error lx'
       (LexicalError.init "Caractere desconhecido: '@'" 1 6).
Proof.
  apply (LexerFacts.lexical_error_cases
           (Lexer.init (assign_source ++ "@y"))
           (LexicalError.init "Caractere desconhecido: '@'" 1 6)
           (Lexer.mk (assign_source ++ "@y") (removelast assign_tokens)
                     6 1 7)).
  vm_compute. reflexivity.
Defined.
